(** * sql-smart-lab: the live draft-interpretation engine of [src/App.js]

    A shallow embedding of the pure part of [App.js]: the structural
    parsers [parseSchema] and [parseAllInsertRows], the table-reference
    detection and state updates of [handleEditorChange], and the roadmap
    generator [analyzeQuestion]; further the rows of the structural
    preview, [runQuery] over a service modelled as a state machine, and
    the parsers and the detection of the earlier local-first version.

    The code is written with JavaScript regular-expression literals, so the
    embedding keeps them as such: a small regular-expression syntax, a
    backtracking matcher that follows the ECMAScript matching order
    (alternatives left to right, greedy and lazy quantifiers, negative
    lookahead, capture groups), and on top of it the String methods the code
    calls ([match], [matchAll], [split], [replace], [test]).

    Text is modelled by [string]; the draft and the question are taken to be
    ASCII text, so [toUpperCase], [toLowerCase], [\s] and [\w] are defined on
    the ASCII range and leave every other character alone. *)

From Stdlib Require Import String Ascii List Bool Arith Lia.
Import ListNotations.

Local Open Scope string_scope.
Local Open Scope list_scope.
Local Open Scope nat_scope.

(** ** Characters and strings as JavaScript sees them *)

Module Js.

Definition code (a : ascii) : nat := nat_of_ascii a.

Definition isUpper (a : ascii) : bool := (65 <=? code a) && (code a <=? 90).
Definition isLower (a : ascii) : bool := (97 <=? code a) && (code a <=? 122).
Definition isDigit (a : ascii) : bool := (48 <=? code a) && (code a <=? 57).

(** [\s] (and the characters [trim] removes): tab, line feed, vertical tab,
    form feed, carriage return and space. *)
Definition isSpace (a : ascii) : bool :=
  ((9 <=? code a) && (code a <=? 13)) || (code a =? 32).

(** [\w] is [[A-Za-z0-9_]]. *)
Definition isWord (a : ascii) : bool :=
  isUpper a || isLower a || isDigit a || (code a =? 95).

(** [.] excludes the line terminators. *)
Definition isLineTerminator (a : ascii) : bool :=
  (code a =? 10) || (code a =? 13).

Definition upperChar (a : ascii) : ascii :=
  if isLower a then ascii_of_nat (code a - 32) else a.

Definition lowerChar (a : ascii) : ascii :=
  if isUpper a then ascii_of_nat (code a + 32) else a.

Fixpoint mapString (f : ascii -> ascii) (s : string) : string :=
  match s with
  | EmptyString => EmptyString
  | String a t => String (f a) (mapString f t)
  end.

Definition toUpperCase : string -> string := mapString upperChar.
Definition toLowerCase : string -> string := mapString lowerChar.

Fixpoint startsWith (p s : string) : bool :=
  match p, s with
  | EmptyString, _ => true
  | String a p', String b s' => Ascii.eqb a b && startsWith p' s'
  | String _ _, EmptyString => false
  end.

(** [s.includes(p)] *)
Fixpoint includes (s p : string) : bool :=
  startsWith p s ||
  match s with
  | EmptyString => false
  | String _ t => includes t p
  end.

Fixpoint dropWhile (f : ascii -> bool) (s : string) : string :=
  match s with
  | EmptyString => EmptyString
  | String a t => if f a then dropWhile f t else s
  end.

Fixpoint takeWhile (f : ascii -> bool) (s : string) : string :=
  match s with
  | EmptyString => EmptyString
  | String a t => if f a then String a (takeWhile f t) else EmptyString
  end.

Fixpoint rev_onto (s acc : string) : string :=
  match s with
  | EmptyString => acc
  | String a t => rev_onto t (String a acc)
  end.

Definition reverse (s : string) : string := rev_onto s EmptyString.

Definition trimStart (s : string) : string := dropWhile isSpace s.
Definition trimEnd (s : string) : string := reverse (dropWhile isSpace (reverse s)).
Definition trim (s : string) : string := trimEnd (trimStart s).

(** [s.split(c)] for a one-character separator string: never returns the
    empty array, [''.split(',')] is [['']]. *)
Fixpoint splitChar (c : ascii) (s : string) : list string :=
  match s with
  | EmptyString => [EmptyString]
  | String a t =>
      if Ascii.eqb a c then EmptyString :: splitChar c t
      else match splitChar c t with
           | [] => [String a EmptyString]
           | piece :: rest => String a piece :: rest
           end
  end.

Fixpoint filterString (f : ascii -> bool) (s : string) : string :=
  match s with
  | EmptyString => EmptyString
  | String a t => if f a then String a (filterString f t) else filterString f t
  end.

(** Membership of a character in a string, as a proposition. *)
Fixpoint occurs (c : ascii) (s : string) : Prop :=
  match s with
  | EmptyString => False
  | String a t => a = c \/ occurs c t
  end.

Fixpoint allChars (P : ascii -> Prop) (s : string) : Prop :=
  match s with
  | EmptyString => True
  | String a t => P a /\ allChars P t
  end.

(** The first [n] characters and the rest after them. *)
Fixpoint take (n : nat) (s : string) : string :=
  match n, s with
  | S n', String a t => String a (take n' t)
  | _, _ => EmptyString
  end.

Fixpoint drop (n : nat) (s : string) : string :=
  match n, s with
  | S n', String _ t => drop n' t
  | _, _ => s
  end.

(** JavaScript truthiness of a string: non-empty. *)
Definition truthy (s : string) : bool :=
  match s with EmptyString => false | _ => true end.

End Js.

(** ** Regular expressions *)

Module RegExp.

(** Character classes that occur in the source's patterns. *)
Inductive cclass : Type :=
| CAny                         (* [\s\S] *)
| CDot                         (* .      *)
| CSpace                       (* \s     *)
| CWord                        (* \w     *)
| COneOf (l : list ascii)      (* [abc]  *)
| CNoneOf (l : list ascii).    (* [^abc] *)

Inductive regex : Type :=
| Eps
| Chr (c : ascii)
| Cls (cs : cclass)
| Seq (r1 r2 : regex)
| Alt (r1 r2 : regex)
| Star (greedy : bool) (r : regex)  (* r* and r*? *)
| Grp (n : nat) (r : regex)         (* the n-th capturing group *)
| NegAhead (r : regex)              (* (?!r) *)
| Eos.                              (* $ without the m flag *)

(** [r+] *)
Definition Plus (r : regex) : regex := Seq r (Star true r).

(** A literal word. *)
Fixpoint Lit (s : string) : regex :=
  match s with
  | EmptyString => Eps
  | String a EmptyString => Chr a
  | String a t => Seq (Chr a) (Lit t)
  end.

(** [a|b|c] *)
Fixpoint Alts (rs : list regex) : regex :=
  match rs with
  | [] => Eps
  | [r] => r
  | r :: rest => Alt r (Alts rest)
  end.

(** Captures: group number to the text it last matched. *)
Definition captures : Type := list (nat * string).

Fixpoint capture (n : nat) (c : captures) : option string :=
  match c with
  | [] => None
  | (m, s) :: rest => if Nat.eqb n m then Some s else capture n rest
  end.

Definition state : Type := (string * captures)%type.
Definition cont : Type := string -> captures -> option state.

(** Canonicalize of the i flag. *)
Definition canon (ic : bool) (a : ascii) : ascii :=
  if ic then Js.upperChar a else a.

Definition charEq (ic : bool) (a b : ascii) : bool :=
  Ascii.eqb (canon ic a) (canon ic b).

Definition classMatch (ic : bool) (cs : cclass) (a : ascii) : bool :=
  match cs with
  | CAny => true
  | CDot => negb (Js.isLineTerminator a)
  | CSpace => Js.isSpace a
  | CWord => Js.isWord a
  | COneOf l => existsb (charEq ic a) l
  | CNoneOf l => negb (existsb (charEq ic a) l)
  end.

(** The text consumed between the input [s] and its suffix [s']. *)
Definition consumed (s s' : string) : string :=
  Js.take (String.length s - String.length s') s.

(** The quantifier loop (RepeatMatcher with min 0 and no max): an iteration
    that consumes nothing is rejected, so at most [length s] iterations
    happen and the counter, started above that, never runs out (lemma
    [repeat_counter_enough] below). *)
Fixpoint repeat (step : string -> captures -> cont -> option state)
    (greedy : bool) (k : cont) (n : nat) (s : string) (c : captures)
    : option state :=
  match n with
  | O => k s c
  | S n' =>
      let again :=
        step s c (fun s' c' =>
          if String.length s' <? String.length s
          then repeat step greedy k n' s' c' else None) in
      if greedy then
        match again with
        | Some x => Some x
        | None => k s c
        end
      else
        match k s c with
        | Some x => Some x
        | None => again
        end
  end.

(** The backtracking matcher, in continuation-passing style as in the
    ECMAScript specification: [mtch ic r s c k] matches [r] at the start
    of [s] and hands the rest of the input to [k]; when [k] fails the
    next choice of [r] is tried. *)
Fixpoint mtch (ic : bool) (r : regex) (s : string) (c : captures) (k : cont)
    {struct r} : option state :=
  match r with
  | Eps => k s c
  | Chr a =>
      match s with
      | String b t => if charEq ic b a then k t c else None
      | EmptyString => None
      end
  | Cls cs =>
      match s with
      | String b t => if classMatch ic cs b then k t c else None
      | EmptyString => None
      end
  | Seq r1 r2 => mtch ic r1 s c (fun s' c' => mtch ic r2 s' c' k)
  | Alt r1 r2 =>
      match mtch ic r1 s c k with
      | Some x => Some x
      | None => mtch ic r2 s c k
      end
  | Star g r1 => repeat (mtch ic r1) g k (S (String.length s)) s c
  | Grp n r1 =>
      mtch ic r1 s c (fun s' c' => k s' ((n, consumed s s') :: c'))
  | NegAhead r1 =>
      match mtch ic r1 s c (fun s' c' => Some (s', c')) with
      | Some _ => None
      | None => k s c
      end
  | Eos =>
      match s with
      | EmptyString => k s c
      | String _ _ => None
      end
  end.

(** A regular-expression object: pattern and the i flag.  (The g flag only
    selects which String method iterates; the methods below are the
    iterating ones.) *)
Record t : Type := mk { pattern : regex; ignoreCase : bool }.

(** One attempt at the start of [s]. *)
Definition matchHere (re : t) (s : string) : option state :=
  mtch (ignoreCase re) (pattern re) s [] (fun s' c' => Some (s', c')).

(** The match object: [index], [m[0]], the groups, and the input after the
    match. *)
Record result : Type := mkResult {
  index : nat;
  matched : string;
  groups : captures;
  after : string
}.

Definition group (n : nat) (m : result) : option string := capture n (groups m).

(** RegExpBuiltinExec: the leftmost start position at which the pattern
    matches. *)
Fixpoint execFrom (re : t) (i : nat) (s : string) : option result :=
  match matchHere re s with
  | Some (rest, caps) => Some (mkResult i (consumed s rest) caps rest)
  | None =>
      match s with
      | EmptyString => None
      | String _ t => execFrom re (S i) t
      end
  end.

(** [s.match(re)] for a pattern without the g flag. *)
Definition exec (re : t) (s : string) : option result := execFrom re 0 s.

(** [re.test(s)] *)
Definition test (re : t) (s : string) : bool :=
  match exec re s with Some _ => true | None => false end.

(** [[...s.matchAll(re)]]: successive matches, each search starting where
    the previous match ended (one character further after an empty
    match). *)
Fixpoint matchAllFrom (re : t) (n : nat) (i : nat) (s : string) : list result :=
  match n with
  | O => []
  | S n' =>
      match execFrom re i s with
      | None => []
      | Some m =>
          m :: match matched m, after m with
               | EmptyString, EmptyString => []
               | EmptyString, String _ t =>
                   matchAllFrom re n' (S (index m)) t
               | _, rest =>
                   matchAllFrom re n' (index m + String.length (matched m)) rest
               end
      end
  end.

Definition matchAll (re : t) (s : string) : list result :=
  matchAllFrom re (S (String.length s)) 0 s.

(** [s.split(re)] for a pattern without capturing groups
    (RegExp.prototype[Symbol.split]): [piece] holds, reversed, the
    characters between the end of the last separator and the current
    position; a separator is only looked for before the end of the input,
    and an empty match right at the end of the previous separator is
    skipped. *)
Fixpoint splitLoop (re : t) (n : nat) (piece : string) (s : string) : list string :=
  match n with
  | O => [Js.rev_onto piece s]
  | S n' =>
      match s with
      | EmptyString => [Js.reverse piece]
      | String a t =>
          match matchHere re s with
          | None => splitLoop re n' (String a piece) t
          | Some (rest, _) =>
              if (String.length rest =? String.length s)
                 && negb (Js.truthy piece)
              then splitLoop re n' (String a piece) t
              else Js.reverse piece :: splitLoop re n' EmptyString rest
          end
      end
  end.

(** [s.replace(re, by)] for a pattern with the g flag and a replacement
    text without dollar patterns. *)
Fixpoint replaceLoop (re : t) (by_ : string) (n : nat) (s : string) : string :=
  match n with
  | O => s
  | S n' =>
      match exec re s with
      | None => s
      | Some m =>
          (Js.take (index m) s ++ by_ ++
           match matched m, after m with
           | EmptyString, EmptyString => EmptyString
           | EmptyString, String a t => String a (replaceLoop re by_ n' t)
           | _, rest => replaceLoop re by_ n' rest
           end)%string
      end
  end.

Definition replaceAll (re : t) (s by_ : string) : string :=
  replaceLoop re by_ (S (String.length s)) s.

Definition split (re : t) (s : string) : list string :=
  match s with
  | EmptyString =>
      match matchHere re s with
      | Some _ => []
      | None => [EmptyString]
      end
  | _ => splitLoop re (2 * String.length s + 1) EmptyString s
  end.

End RegExp.

(** ** The parsers of [App.js] *)

Import RegExp.

Definition space : regex := Cls CSpace.
Definition word : regex := Cls CWord.
Definition anyChar : regex := Cls CAny.

(** A flat sequence of terms. *)
Fixpoint Seqs (rs : list regex) : regex :=
  match rs with
  | [] => Eps
  | [r] => r
  | r :: rest => Seq r (Seqs rest)
  end.

(** [m[n]] of a match whose n-th group took part in it. *)
Definition groupText (n : nat) (m : result) : string :=
  match group n m with Some s => s | None => EmptyString end.

Module Column.

(** [{ name, type }]; the registry's entries have no [type]. *)
Record t : Type := mk { name : string; type : option string }.

End Column.

Module Schema.

(** [{ name, columns }] *)
Record t : Type := mk { name : string; columns : list Column.t }.

End Schema.

(** The create-table pattern of [parseSchema], with the i flag:
    CREATE, white space, TABLE, white space, group 1 of word characters,
    optional white space, an opening parenthesis, group 2 of any
    characters (greedy), a closing parenthesis.  It is written as the part
    before the opening parenthesis followed by the parenthesised list. *)
Definition createHead : regex :=
  Seqs [Lit "CREATE"; Plus space; Lit "TABLE"; Plus space;
        Grp 1 (Plus word); Star true space].

Definition createPattern : regex :=
  Seq createHead (Seqs [Chr "("; Grp 2 (Star true anyChar); Chr ")"]).

Definition createRe : RegExp.t := RegExp.mk createPattern true.

(** The separator of [columnsContent.split]: a comma with a negative
    lookahead for a run of characters other than the opening parenthesis
    followed by a closing parenthesis. *)
Definition columnSepRe : RegExp.t :=
  RegExp.mk
    (Seq (Chr ",") (NegAhead (Seq (Star true (Cls (CNoneOf ["("%char]))) (Chr ")"))))
    false.

(** [/\s+/] *)
Definition spacesRe : RegExp.t := RegExp.mk (Plus space) false.

(** The conditions of the two [if]s on [fullDef]. *)
Definition numericMarker (fullDef : string) : bool :=
  Js.includes fullDef "INT" || Js.includes fullDef "NUMBER".

Definition characterMarker (fullDef : string) : bool :=
  Js.includes fullDef "VARCHAR" || Js.includes fullDef "CHAR".

(** The type a column definition gets: [let type] and the two [if]s that
    assign it, in their order. *)
Definition inferType (col : string) : string :=
  let type := "TEXT" in
  let fullDef := Js.toUpperCase col in
  let type := if numericMarker fullDef then "Number" else type in
  let type := if characterMarker fullDef then "Text" else type in
  type.

(** [parts[0]]: [split] by [/\s+/] never returns the empty array; the
    empty string stands for it all the same, both being falsy in the
    filter below. *)
Definition leadingToken (col : string) : string :=
  hd EmptyString (RegExp.split spacesRe (Js.trim col)).

(** The callback of [columnsRaw.map]. *)
Definition parseColumn (col : string) : Column.t :=
  let name := leadingToken col in
  Column.mk name (Some (inferType col)).

Definition constraintKeywords : list string :=
  ["PRIMARY"; "FOREIGN"; "CONSTRAINT"; "KEY"].

(** [list.includes(s)] *)
Definition includesString (l : list string) (s : string) : bool :=
  existsb (String.eqb s) l.

(** The callback of [filter]. *)
Definition keepColumn (c : Column.t) : bool :=
  Js.truthy (Column.name c)
  && negb (includesString constraintKeywords (Js.toUpperCase (Column.name c))).

Definition columnsRaw (columnsContent : string) : list string :=
  RegExp.split columnSepRe columnsContent.

Definition parseSchema (text : string) : option Schema.t :=
  match RegExp.exec createRe text with
  | Some createMatch =>
      let tableName := groupText 1 createMatch in
      let columnsContent := groupText 2 createMatch in
      let parsedCols :=
        filter keepColumn (map parseColumn (columnsRaw columnsContent)) in
      Some (Schema.mk tableName parsedCols)
  | None => None
  end.

(** The local-first version of [parseSchema] differs in the callback of
    [columnsRaw.map] only: every column gets the type TEXT. *)
Definition parseColumnLocalFirst (col : string) : Column.t :=
  let name := leadingToken col in
  Column.mk name (Some "TEXT").

Definition parseSchemaLocalFirst (text : string) : option Schema.t :=
  match RegExp.exec createRe text with
  | Some createMatch =>
      let tableName := groupText 1 createMatch in
      let columnsContent := groupText 2 createMatch in
      let parsedCols :=
        filter keepColumn
          (map parseColumnLocalFirst (columnsRaw columnsContent)) in
      Some (Schema.mk tableName parsedCols)
  | None => None
  end.

(** The pattern of [parseAllInsertRows] in [App.js], with the g and i flags:
    VALUES, optional white space, an opening parenthesis, group 1 of any
    characters (lazy), a closing parenthesis. *)
Definition valuesRe : RegExp.t :=
  RegExp.mk
    (Seqs [Lit "VALUES"; Star true space; Chr "("; Grp 1 (Star false anyChar);
           Chr ")"])
    true.

Definition singleQuote : ascii := "'"%char.
Definition doubleQuote : ascii := "034"%char.

(** The class of the two quote characters, with the g flag. *)
Definition quoteRe : RegExp.t :=
  RegExp.mk (Cls (COneOf [singleQuote; doubleQuote])) false.

(** The callback of the inner [map]: [val.trim().replace(quoteRe, '')]. *)
Definition cleanCell (val : string) : string :=
  RegExp.replaceAll quoteRe (Js.trim val) EmptyString.

(** The callback of the outer [map]. *)
Definition rowOfMatch (m : result) : list string :=
  map cleanCell (Js.splitChar ","%char (groupText 1 m)).

Definition parseAllInsertRowsWith (re : RegExp.t) (text : string)
    : list (list string) :=
  let matches := RegExp.matchAll re text in
  map rowOfMatch matches.

Definition parseAllInsertRows : string -> list (list string) :=
  parseAllInsertRowsWith valuesRe.

(** The variant of the same function in the local-first version of the
    application: its pattern ends in a non-capturing alternative of the
    closing parenthesis and the end of the input. *)
Definition valuesOpenRe : RegExp.t :=
  RegExp.mk
    (Seqs [Lit "VALUES"; Star true space; Chr "("; Grp 1 (Star false anyChar);
           Alt (Chr ")") Eos])
    true.

Definition parseAllInsertRowsLocalFirst : string -> list (list string) :=
  parseAllInsertRowsWith valuesOpenRe.

(** ** Table detection and the editor's change handler *)

(** The keywords of the table-detection pattern, in the order of its
    alternation: INSERT INTO, FROM, UPDATE, TABLE. *)
Definition tableKeywords : list regex :=
  [Seqs [Lit "INSERT"; Plus space; Lit "INTO"]; Lit "FROM"; Lit "UPDATE";
   Lit "TABLE"].

(** The local-first version adds DELETE FROM at the end. *)
Definition tableKeywordsLocalFirst : list regex :=
  tableKeywords ++ [Seqs [Lit "DELETE"; Plus space; Lit "FROM"]].

(** What follows the keyword: white space and group 1 of word characters. *)
Definition tableNameTail : regex := Seq (Plus space) (Grp 1 (Plus word)).

(** The detection pattern: a non-capturing alternation of the keywords
    followed by the tail, with the i flag. *)
Definition tableReWith (keywords : list regex) : RegExp.t :=
  RegExp.mk (Seq (Alts keywords) tableNameTail) true.

Definition tableRe : RegExp.t := tableReWith tableKeywords.

(** [tableMatch[1].toLowerCase()] when [val.match(tableRe)] is not null. *)
Definition detectTable (val : string) : option string :=
  match RegExp.exec tableRe val with
  | Some tableMatch => Some (Js.toLowerCase (groupText 1 tableMatch))
  | None => None
  end.

(** The detection of the local-first version, with its longer
    alternation. *)
Definition detectTableLocalFirst (val : string) : option string :=
  match RegExp.exec (tableReWith tableKeywordsLocalFirst) val with
  | Some tableMatch => Some (Js.toLowerCase (groupText 1 tableMatch))
  | None => None
  end.

Definition registryColumns (names : list string) : list Column.t :=
  map (fun n => Column.mk n None) names.

(** [SCHEMA_REGISTRY], by its own keys in the order of the literal.  (A
    JavaScript object also answers for the names it inherits, such as
    constructor; the lookup below knows the three tables only.) *)
Definition SCHEMA_REGISTRY : list (string * list Column.t) :=
  [("student", registryColumns ["emp_id"; "emp_name"; "departmenit_id"]);
   ("department", registryColumns ["dept_id"; "dept_name"; "location"]);
   ("courses", registryColumns ["course_id"; "course_title"; "credits"])].

Fixpoint lookup {A : Type} (key : string) (m : list (string * A)) : option A :=
  match m with
  | [] => None
  | (k, v) :: rest => if String.eqb key k then Some v else lookup key rest
  end.

Module Step.

(** One step of the roadmap: [{ id, text, regex }]. *)
Record t : Type := mk { id : nat; text : string; regex : RegExp.t }.

End Step.

(** The body of a reply of the execution service, as far as the handler
    reads it: [status] and [data] (which may be absent). *)
Record Response : Type := mkResponse {
  status : string;
  data : option (list (list string))
}.

(** The state slots of [App] that the modelled handlers read or write. *)
Record AppState : Type := mkState {
  query : string;
  existingData : list (list string);
  multiRowPreview : list (list string);
  activeSchema : option Schema.t;
  studentQuestion : string;
  roadmap : list Step.t
}.

Definition setQuery (v : string) (st : AppState) : AppState :=
  mkState v (existingData st) (multiRowPreview st) (activeSchema st)
          (studentQuestion st) (roadmap st).

Definition setExistingData (v : list (list string)) (st : AppState) : AppState :=
  mkState (query st) v (multiRowPreview st) (activeSchema st)
          (studentQuestion st) (roadmap st).

Definition setMultiRowPreview (v : list (list string)) (st : AppState) : AppState :=
  mkState (query st) (existingData st) v (activeSchema st)
          (studentQuestion st) (roadmap st).

Definition setActiveSchema (v : option Schema.t) (st : AppState) : AppState :=
  mkState (query st) (existingData st) (multiRowPreview st) v
          (studentQuestion st) (roadmap st).

Definition setRoadmap (v : list Step.t) (st : AppState) : AppState :=
  mkState (query st) (existingData st) (multiRowPreview st) (activeSchema st)
          (studentQuestion st) v.

(** The request for the ghost rows. *)
Definition ghostQuery (tableName : string) : string :=
  ("SELECT * FROM " ++ tableName ++ " LIMIT 5;")%string.

Section Handler.

(** The execution service: the reply to a posted query, [None] when the
    request fails (the handler's empty [catch]). *)
Variable post : string -> option Response.

(** [value || ""], for a value that may be undefined. *)
Definition orEmpty (value : option string) : string :=
  match value with Some v => v | None => EmptyString end.

(** [handleEditorChange]: the state after all its setter calls, in the
    order in which they are made.  The handler waits for the reply only
    when a table was detected; without one it runs to its end at once. *)
Definition handleEditorChange (value : option string) (st : AppState) : AppState :=
  let val := orEmpty value in
  let st := setQuery val st in
  let st :=
    match detectTable val with
    | Some tableName =>
        let st :=
          match lookup tableName SCHEMA_REGISTRY with
          | Some cols => setActiveSchema (Some (Schema.mk tableName cols)) st
          | None => st
          end in
        match post (ghostQuery tableName) with
        | Some res =>
            if String.eqb (status res) "success"
            then setExistingData
                   (match data res with Some d => d | None => [] end) st
            else st
        | None => st
        end
    | None => st
    end in
  let st :=
    match parseSchema val with
    | Some detectedSchema => setActiveSchema (Some detectedSchema) st
    | None => st
    end in
  setMultiRowPreview (parseAllInsertRows val) st.

End Handler.

(** ** The roadmap generator *)

Definition words (l : list string) : regex := Alts (map Lit l).

Definition caseSensitive (r : regex) : RegExp.t := RegExp.mk r false.
Definition caseInsensitive (r : regex) : RegExp.t := RegExp.mk r true.

Definition aggregateTrigger : RegExp.t :=
  caseSensitive
    (words ["minimum"; "maximum"; "max"; "min"; "avg"; "average"; "count"; "sum"]).
Definition renameTrigger : RegExp.t :=
  caseSensitive (words ["rename"; "as"; "title"]).
Definition deleteTrigger : RegExp.t :=
  caseSensitive (words ["delete"; "remove"; "clear"]).
Definition selectTrigger : RegExp.t :=
  caseSensitive (words ["list"; "show"; "find"; "select"; "who"]).
Definition filterTrigger : RegExp.t :=
  caseSensitive
    (words ["where"; "scoring"; "more than"; "greater"; "less"; "whose"]).
Definition createTrigger : RegExp.t :=
  caseSensitive (words ["create"; "new table"; "make table"]).

Definition aggregateSteps : list Step.t :=
  [Step.mk 1 "Use Aggregate Function: SELECT MAX(), MIN(), etc."
     (caseInsensitive (Grp 1 (words ["MAX"; "MIN"; "AVG"; "COUNT"; "SUM"])));
   Step.mk 2 "Specify Source: FROM [Table]" (caseInsensitive (Lit "FROM"))].

Definition renameStep : Step.t :=
  Step.mk 3 "Rename columns using AS 'New Name'" (caseInsensitive (Lit "AS")).

Definition deleteSteps : list Step.t :=
  [Step.mk 1 "Start with DELETE FROM [Table]"
     (caseInsensitive (Seqs [Lit "DELETE"; Plus space; Lit "FROM"]));
   Step.mk 2 "Filter using WHERE [Condition]" (caseInsensitive (Lit "WHERE"))].

Definition selectSteps : list Step.t :=
  [Step.mk 1 "Start with SELECT [Columns] or *" (caseInsensitive (Lit "SELECT"));
   Step.mk 2 "Identify Source: FROM [Table]" (caseInsensitive (Lit "FROM"))].

Definition filterStep : Step.t :=
  Step.mk 3 "Filter results using WHERE [Condition]"
    (caseInsensitive (Lit "WHERE")).

Definition createSteps : list Step.t :=
  [Step.mk 1 "Use CREATE TABLE [TableName]"
     (caseInsensitive (Seqs [Lit "CREATE"; Plus space; Lit "TABLE"]));
   Step.mk 2 "Pro-tip: Use 'IF NOT EXISTS' to avoid errors"
     (caseInsensitive
        (Seqs [Lit "IF"; Plus space; Lit "NOT"; Plus space; Lit "EXISTS"]));
   Step.mk 3 "Define columns inside ( )"
     (caseInsensitive (Seqs [Chr "("; Star true (Cls CDot); Chr ")"]))].

(** The steps [analyzeQuestion] computes before the create-table check:
    the chain of [if] and [else if] on the lowercased question. *)
Definition categorySteps (q : string) : list Step.t :=
  if RegExp.test aggregateTrigger q then
    if RegExp.test renameTrigger q
    then aggregateSteps ++ [renameStep] else aggregateSteps
  else if RegExp.test deleteTrigger q then deleteSteps
  else if RegExp.test selectTrigger q then
    if RegExp.test filterTrigger q
    then selectSteps ++ [filterStep] else selectSteps
  else [].

(** The value passed to [setRoadmap]. *)
Definition roadmapFor (question : string) : list Step.t :=
  let q := Js.toLowerCase question in
  let steps := categorySteps q in
  let steps := if RegExp.test createTrigger q then createSteps else steps in
  steps.

Definition analyzeQuestion (st : AppState) : AppState :=
  setRoadmap (roadmapFor (studentQuestion st)) st.

(** The check mark of a step in the sidebar: [step.regex.test(query)]. *)
Definition stepDone (step : Step.t) (draft : string) : bool :=
  RegExp.test (Step.regex step) draft.

(** ** Notions used to state how the matcher behaves *)

(** A successful match is a success of the continuation on a suffix of the
    input; [P] holds of the characters before it when the pattern can
    only consume such characters. *)
Definition reaches (P : ascii -> Prop) (k : cont) (s : string) (x : state)
    : Prop :=
  exists u s' c', s = (u ++ s')%string /\ Js.allChars P u /\ k s' c' = Some x.

Fixpoint eats (ic : bool) (P : ascii -> Prop) (r : regex) : Prop :=
  match r with
  | Eps | Eos | NegAhead _ => True
  | Chr a => forall b, charEq ic b a = true -> P b
  | Cls cs => forall b, classMatch ic cs b = true -> P b
  | Seq r1 r2 | Alt r1 r2 => eats ic P r1 /\ eats ic P r2
  | Star _ r1 | Grp _ r1 => eats ic P r1
  end.

(** The greedy star of a character class tries the longest run first. *)
Fixpoint longestRun (p : ascii -> bool) (k : cont) (s : string) (c : captures)
    : option state :=
  match s with
  | EmptyString => k s c
  | String a t =>
      if p a then
        match longestRun p k t c with
        | Some x => Some x
        | None => k s c
        end
      else k s c
  end.

(** The lazy star of a character class tries the shortest run first. *)
Fixpoint shortestRun (p : ascii -> bool) (k : cont) (s : string) (c : captures)
    : option state :=
  match k s c with
  | Some x => Some x
  | None =>
      match s with
      | EmptyString => None
      | String a t => if p a then shortestRun p k t c else None
      end
  end.

(** Agreement of two continuations on the inputs of length at most [n]. *)
Definition agreeUpTo (n : nat) (k1 k2 : cont) : Prop :=
  forall s c, String.length s <= n -> k1 s c = k2 s c.

(** ** Table detection, pattern by pattern *)

(** One statement shape on its own: the keyword followed by the tail. *)
Definition keywordRe (keyword : regex) : RegExp.t :=
  RegExp.mk (Seq keyword tableNameTail) true.

Fixpoint firstSome {A : Type} (l : list (option A)) : option A :=
  match l with
  | [] => None
  | Some x :: _ => Some x
  | None :: rest => firstSome rest
  end.

(** The selection rule in the specification's words: the shapes are tried
    one after the other in priority order, each anywhere in the text, and
    the first that matches gives the table name. *)
Definition detectByPriority (keywords : list regex) (text : string)
    : option string :=
  firstSome
    (map (fun keyword =>
            match RegExp.exec (keywordRe keyword) text with
            | Some m => Some (Js.toLowerCase (groupText 1 m))
            | None => None
            end)
         keywords).

(** The alternative that only the local-first version has. *)
Definition deleteFrom : regex := Seqs [Lit "DELETE"; Plus space; Lit "FROM"].

(** ** Cells, as the specification words them *)

Definition isQuote (a : ascii) : bool :=
  Ascii.eqb a singleQuote || Ascii.eqb a doubleQuote.

(** Strip one pair of surrounding quote characters, if there is one. *)
Definition stripQuotePair (s : string) : string :=
  match s with
  | String a t =>
      match Js.reverse t with
      | String b r => if isQuote a && Ascii.eqb a b then Js.reverse r else s
      | EmptyString => s
      end
  | EmptyString => s
  end.

Definition rowsWithQuotePairStripped (text : string) : list (list string) :=
  map (fun m =>
         map (fun val => stripQuotePair (Js.trim val))
             (Js.splitChar ","%char (groupText 1 m)))
      (RegExp.matchAll valuesRe text).

(** ** The final fragment, as the specification words it *)

(** The last of the fragments the column list is split into. *)
Definition finalFragment (columnsContent : string) : string :=
  last (columnsRaw columnsContent) EmptyString.

(** The text absorbed after the column list stands in the final fragment. *)
Definition absorbedInFinalFragment (columnsContent absorbed : string) : bool :=
  Js.includes (finalFragment columnsContent) absorbed.

(** ** ASCII text *)

(** The texts on which [Js.toUpperCase] and [Js.toLowerCase] are the
    methods of JavaScript: every character is below 128. *)
Definition asciiText (s : string) : Prop :=
  Js.allChars (fun a => (Js.code a <? 128) = true) s.

(** ** Drafts, questions and a state used as examples *)

Definition constraintDraft : string :=
  "CREATE TABLE t (PRIMARY KEY (a), a INT, constraint c1 UNIQUE (a), b TEXT, Key k (b))".

Definition createThenInsert : string :=
  "CREATE TABLE t (a INT); INSERT INTO t VALUES (1);".

Definition createTwoThenInsert : string :=
  "CREATE TABLE t (a INT, b TEXT); INSERT INTO t VALUES (1, 2)".

Definition unterminatedInsert : string := "INSERT INTO t VALUES (1, 2".

Definition quotedInsert : string := "INSERT INTO t VALUES ('x', 1)".

Definition apostropheInsert : string := "INSERT INTO t VALUES ('it's', 1)".

Definition selectThenInsert : string :=
  "SELECT * FROM a; INSERT INTO b VALUES (1)".

Definition studentSchema : Schema.t :=
  Schema.mk "student" (registryColumns ["emp_id"; "emp_name"; "departmenit_id"]).

Definition stateWithSchema : AppState :=
  mkState "SELECT * FROM student" [["1"; "Ann"; "CS"]] [] (Some studentSchema)
          "" [].

Definition createAndCount : string := "create a new table to count students".

Definition averageQuestion : string := "what is the average score".

(** ** The structural preview table *)

(** [list.map((x, i) => f(x, i))] *)
Fixpoint mapiFrom {A B : Type} (f : A -> nat -> B) (i : nat) (l : list A)
    : list B :=
  match l with
  | [] => []
  | x :: rest => f x i :: mapiFrom f (S i) rest
  end.

Definition mapi {A B : Type} (f : A -> nat -> B) (l : list A) : list B :=
  mapiFrom f 0 l.

(** [row[cIdx] || ''] *)
Definition cellAt (row : list string) (cIdx : nat) : string :=
  match nth_error row cIdx with
  | Some cell => if Js.truthy cell then cell else EmptyString
  | None => EmptyString
  end.

(** The cells of one row of [multiRowPreview]: one per column of the
    active schema. *)
Definition draftCells (columns : list Column.t) (row : list string)
    : list string :=
  mapi (fun _ cIdx => cellAt row cIdx) columns.

Inductive Origin : Type := Existing | Draft.

Record PreviewRow : Type := mkPreviewRow {
  origin : Origin;
  cells : list string
}.

(** The table shown under the editor, when there is an active schema: the
    header of column names, the rows of [existingData] with all their
    cells, then the rows of [multiRowPreview]. *)
Definition previewTable (st : AppState)
    : option (list string * list PreviewRow) :=
  match activeSchema st with
  | Some schema =>
      Some (map Column.name (Schema.columns schema),
            map (fun row => mkPreviewRow Existing row) (existingData st)
            ++ map (fun row =>
                      mkPreviewRow Draft (draftCells (Schema.columns schema) row))
                   (multiRowPreview st))
  | None => None
  end.

(** ** Running a statement *)

(** The body of a reply, as [runQuery] reads it: [status], [message],
    [columns] and [data], the last three possibly absent. *)
Record Body : Type := mkBody {
  bodyStatus : string;
  bodyMessage : option string;
  bodyColumns : option (list string);
  bodyData : option (list (list string))
}.

(** What a posted query comes back with: a reply with its body, or a
    failure, of which the handler reads [err.response?.data?.message].  A
    reply without a body makes the next property access throw and counts
    as a failure without message. *)
Inductive Outcome : Type :=
| Fulfilled (body : Body)
| Rejected (message : option string).

(** [{ columns, data }] of the result table. *)
Record Results : Type := mkResults {
  resultColumns : option (list string);
  resultData : option (list (list string))
}.

Definition noResults : Results := mkResults (Some []) (Some []).

(** [{ name, columns, data }] of the snapshot taken before a change. *)
Record Source : Type := mkSource {
  sourceName : string;
  sourceColumns : option (list string);
  sourceData : option (list (list string))
}.

(** The state of [App]: the slots above and the four that [runQuery]
    writes besides. *)
Record Session : Type := mkSession {
  appState : AppState;
  results : Results;
  sources : list Source;
  successMsg : string;
  error : string
}.

Definition onApp (f : AppState -> AppState) (s : Session) : Session :=
  mkSession (f (appState s)) (results s) (sources s) (successMsg s) (error s).

Definition setResults (v : Results) (s : Session) : Session :=
  mkSession (appState s) v (sources s) (successMsg s) (error s).

Definition setSources (v : list Source) (s : Session) : Session :=
  mkSession (appState s) (results s) v (successMsg s) (error s).

Definition setSuccessMsg (v : string) (s : Session) : Session :=
  mkSession (appState s) (results s) (sources s) v (error s).

Definition setError (v : string) (s : Session) : Session :=
  mkSession (appState s) (results s) (sources s) (successMsg s) v.

(** [a || b] for a text that may be absent. *)
Definition orElse (a : option string) (b : string) : string :=
  match a with
  | Some v => if Js.truthy v then v else b
  | None => b
  end.

(** The table pattern of [runQuery]: FROM, TABLE, UPDATE, INSERT INTO and
    INTO, in this order. *)
Definition runTableRe : RegExp.t :=
  tableReWith
    [Lit "FROM"; Lit "TABLE"; Lit "UPDATE";
     Seqs [Lit "INSERT"; Plus space; Lit "INTO"]; Lit "INTO"].

(** [tableMatch ? tableMatch[1] : null] *)
Definition runTableName (activeQuery : string) : option string :=
  match RegExp.exec runTableRe activeQuery with
  | Some tableMatch => Some (groupText 1 tableMatch)
  | None => None
  end.

Definition selectAll (tableName : string) : string :=
  ("SELECT * FROM " ++ tableName ++ ";")%string.

(** The test that asks for a snapshot before the statement runs. *)
Definition changesData (upperQ : string) : bool :=
  Js.includes upperQ "ALTER" || Js.includes upperQ "DELETE"
  || Js.includes upperQ "DROP" || Js.includes upperQ "UPDATE".

Section Run.

(** The execution service: it answers a posted query and moves on. *)
Variable Server : Type.
Variable post : Server -> string -> Outcome * Server.

(** A run of the handler: the state of the application, the service, and
    the queries posted so far with what came back. *)
Record World : Type := mkWorld {
  session : Session;
  server : Server;
  posted : list (string * Outcome)
}.

(** A piece of the handler: it yields a value or throws, and changes the
    world. *)
Definition Action (A : Type) : Type := World -> (A + option string) * World.

Definition ret {A : Type} (x : A) : Action A := fun w => (inl x, w).

Definition bind {A B : Type} (a : Action A) (f : A -> Action B) : Action B :=
  fun w =>
    match a w with
    | (inl x, w') => f x w'
    | (inr e, w') => (inr e, w')
    end.

Notation "x <- a ;; b" := (bind a (fun x => b))
  (at level 61, a at next level, right associativity).
Notation "a ;; b" := (bind a (fun _ => b))
  (at level 61, right associativity).

(** [await axios.post(url, { query })] followed by reading [.data]. *)
Definition request (q : string) : Action Body :=
  fun w =>
    let (outcome, srv) := post (server w) q in
    let w' := mkWorld (session w) srv (posted w ++ [(q, outcome)]) in
    match outcome with
    | Fulfilled body => (inl body, w')
    | Rejected message => (inr message, w')
    end.

(** A call of a state setter. *)
Definition update (f : Session -> Session) : Action unit :=
  fun w => (inl tt, mkWorld (f (session w)) (server w) (posted w)).

(** [try { a } catch (err) { h(err) }] *)
Definition tryCatch {A : Type} (a : Action A) (h : option string -> Action A)
    : Action A :=
  fun w =>
    match a w with
    | (inl x, w') => (inl x, w')
    | (inr e, w') => h e w'
    end.

(** [runQuery], of one run that nothing interrupts. *)
Definition runQuery (overrideQuery : option string) : Action unit :=
  fun w =>
    let activeQuery := orElse overrideQuery (query (appState (session w))) in
    (update (setError "") ;;
     update (setSuccessMsg "") ;;
     let upperQ := Js.toUpperCase activeQuery in
     tryCatch
       (let tableName := runTableName activeQuery in
        match tableName with
        | Some name =>
            if Js.truthy name && changesData upperQ then
              snapshot <- request (selectAll name) ;;
              update (setSources
                        [mkSource name (bodyColumns snapshot)
                           (bodyData snapshot)])
            else ret tt
        | None => ret tt
        end ;;
        response <- request activeQuery ;;
        if String.eqb (bodyStatus response) "success" then
          update (setSuccessMsg
                    (orElse (bodyMessage response)
                       "Command executed successfully!")) ;;
          if Js.includes upperQ "DROP" then
            update (onApp (setActiveSchema None)) ;;
            update (setResults noResults) ;;
            update (setSources []) ;;
            update (onApp (setExistingData []))
          else
            match tableName with
            | Some name =>
                if Js.truthy name then
                  updated <- request (selectAll name) ;;
                  update (setResults
                            (mkResults (bodyColumns updated)
                               (bodyData updated)))
                else ret tt
            | None => ret tt
            end
        else ret tt)
       (fun err => update (setError (orElse err "Execution Failed")))) w.

(** [applySuggestion] *)
Definition applySuggestion (sql : string) : Action unit :=
  update (onApp (setQuery sql)) ;; runQuery (Some sql).

(** The world a run of [runQuery] leaves. *)
Definition afterRun (overrideQuery : option string) (w : World) : World :=
  snd (runQuery overrideQuery w).

End Run.

(** A posted query that was answered. *)
Definition fulfilled (p : string * Outcome) : Prop :=
  exists body, snd p = Fulfilled body.

(** Two services for the examples: one answers every query with a
    success, a message and one row; the other with the status error. *)
Definition obligingService (n : nat) (q : string) : Outcome * nat :=
  (Fulfilled (mkBody "success" (Some "done") (Some ["id"]) (Some [["1"]])),
   S n).

Definition sulkingService (n : nat) (q : string) : Outcome * nat :=
  (Fulfilled (mkBody "error" (Some "no such table") None None), S n).

Definition sessionWithSchema : Session :=
  mkSession stateWithSchema (mkResults (Some ["old"]) (Some [])) []
            EmptyString EmptyString.

Definition worldWithSchema : World nat := mkWorld nat sessionWithSchema 0 [].

(** ** Patterns without lookahead and anchors *)

Fixpoint plain (r : regex) : bool :=
  match r with
  | Eps | Chr _ | Cls _ => true
  | Seq r1 r2 | Alt r1 r2 => plain r1 && plain r2
  | Star _ r1 | Grp _ r1 => plain r1
  | NegAhead _ | Eos => false
  end.

(** ** Notions for the further properties *)

(** A change of letters applied to the captures, to a matcher state and
    to a match object. *)
Definition mapCaptures (f : ascii -> ascii) (c : captures) : captures :=
  map (fun p => (fst p, Js.mapString f (snd p))) c.

Definition mapState (f : ascii -> ascii) (x : state) : state :=
  (Js.mapString f (fst x), mapCaptures f (snd x)).

Definition mapResult (f : ascii -> ascii) (m : result) : result :=
  mkResult (index m) (Js.mapString f (matched m)) (mapCaptures f (groups m))
    (Js.mapString f (after m)).

(** Two continuations that answer alike on an input and on its image. *)
Definition alike (f : ascii -> ascii) (k k' : cont) : Prop :=
  forall s c,
    k' (Js.mapString f s) (mapCaptures f c) = option_map (mapState f) (k s c).

(** [p] put in front of the first piece of a split. *)
Definition consHead (p : string) (l : list string) : list string :=
  match l with
  | x :: rest => (p ++ x)%string :: rest
  | [] => [p]
  end.

(** The link between a continuation and the one that sees [post] after
    the input. *)
Definition carries (post : string) (k k2 : cont) : Prop :=
  forall s c c2, k s c <> None -> k2 (s ++ post)%string c2 <> None.


Definition allSpace (s : string) : Prop :=
  Js.allChars (fun a => Js.isSpace a = true) s.

Definition allWord (s : string) : Prop :=
  Js.allChars (fun a => Js.isWord a = true) s.

(** Whether the first parenthesis in [s] is a closing one. *)
Fixpoint closesFirst (s : string) : bool :=
  match s with
  | EmptyString => false
  | String b t =>
      if Ascii.eqb b ")" then true
      else if Ascii.eqb b "(" then false
      else closesFirst t
  end.

(** Splitting by one scan: at every comma after which the first
    parenthesis, if any, is an opening one. *)
Fixpoint scanSplit (s : string) : list string :=
  match s with
  | EmptyString => [EmptyString]
  | String a t =>
      if Ascii.eqb a "," && negb (closesFirst t)
      then EmptyString :: scanSplit t
      else match scanSplit t with
           | piece :: rest => String a piece :: rest
           | [] => [String a EmptyString]
           end
  end.

Definition notSpace (a : ascii) : bool := negb (Js.isSpace a).

(** [s] is empty or starts with a character outside [p]. *)
Definition startsOutside (p : ascii -> bool) (s : string) : Prop :=
  match s with
  | EmptyString => True
  | String a _ => p a = false
  end.

(** The texts that begin with a table definition: CREATE, blanks, TABLE,
    blanks, a name, optional blanks, an opening parenthesis and, somewhere
    after it, a closing one; keywords in any letter case. *)
Definition createShape (t : string) : Prop :=
  exists create blanks1 table blanks2 name blanks3 tail,
    t = (create ++ blanks1 ++ table ++ blanks2 ++ name ++ blanks3
           ++ "(" ++ tail)%string /\
    Js.toUpperCase create = "CREATE" /\
    Js.toUpperCase table = "TABLE" /\
    blanks1 <> EmptyString /\ allSpace blanks1 /\
    blanks2 <> EmptyString /\ allSpace blanks2 /\
    name <> EmptyString /\ allWord name /\
    allSpace blanks3 /\
    Js.occurs ")" tail.

(** * Properties *)

(** ** Strings *)

Section StringFacts.

Local Open Scope string_scope.

Lemma append_empty_r (s : string) : s ++ "" = s.
Proof. induction s as [|a s IH]; simpl; [reflexivity | now rewrite IH]. Qed.

Lemma append_assoc (s t u : string) : (s ++ t) ++ u = s ++ (t ++ u).
Proof. induction s as [|a s IH]; simpl; [reflexivity | now rewrite IH]. Qed.

Lemma length_append (s t : string) :
  String.length (s ++ t) = String.length s + String.length t.
Proof. induction s as [|a s IH]; simpl; [reflexivity | now rewrite IH]. Qed.

Lemma take_append (u v : string) : Js.take (String.length u) (u ++ v) = u.
Proof. induction u as [|a u IH]; simpl; [now destruct v | now rewrite IH]. Qed.

Lemma drop_append (u v : string) : Js.drop (String.length u) (u ++ v) = v.
Proof. induction u as [|a u IH]; simpl; [now destruct v | exact IH]. Qed.

Lemma consumed_append (u v : string) : consumed (u ++ v) v = u.
Proof.
  unfold consumed. rewrite length_append.
  replace (String.length u + String.length v - String.length v)
    with (String.length u) by lia.
  apply take_append.
Qed.

Lemma occurs_append (c : ascii) (u v : string) :
  Js.occurs c (u ++ v) <-> Js.occurs c u \/ Js.occurs c v.
Proof. induction u as [|a u IH]; simpl; tauto. Qed.

Lemma occurs_split (c : ascii) (s : string) :
  Js.occurs c s -> exists u v, s = u ++ String c v.
Proof.
  induction s as [|a s IH]; simpl; [tauto|]. intros [->|H].
  - now exists "", s.
  - destruct (IH H) as (u & v & ->). now exists (String a u), v.
Qed.

Lemma allChars_append (P : ascii -> Prop) (u v : string) :
  Js.allChars P (u ++ v) <-> Js.allChars P u /\ Js.allChars P v.
Proof. induction u as [|a u IH]; simpl; tauto. Qed.

Lemma allChars_not_occurs (c : ascii) (s : string) :
  Js.allChars (fun a => a <> c) s <-> ~ Js.occurs c s.
Proof. induction s as [|a s IH]; simpl; tauto. Qed.

Lemma append_eq_length (u v u' v' : string) :
  u ++ v = u' ++ v' -> String.length u = String.length u' -> u = u' /\ v = v'.
Proof.
  revert u'. induction u as [|a u IH]; intros [|a' u'] H L; simpl in *;
    try discriminate; [now split|].
  injection H as -> H. injection L as L.
  destruct (IH _ H L) as [-> ->]. now split.
Qed.

End StringFacts.

(** ** The matcher *)

Section MatcherFacts.

Local Open Scope string_scope.

Variable ic : bool.

Lemma mtch_Seq r1 r2 s c k :
  mtch ic (Seq r1 r2) s c k = mtch ic r1 s c (fun s' c' => mtch ic r2 s' c' k).
Proof. reflexivity. Qed.

Lemma mtch_Chr a b t c k :
  mtch ic (Chr a) (String b t) c k = if charEq ic b a then k t c else None.
Proof. reflexivity. Qed.

Lemma mtch_Seq_assoc r1 r2 r3 s c k :
  mtch ic (Seq r1 (Seq r2 r3)) s c k = mtch ic (Seq (Seq r1 r2) r3) s c k.
Proof. reflexivity. Qed.

Lemma mtch_Alt r1 r2 s c k :
  mtch ic (Alt r1 r2) s c k =
  match mtch ic r1 s c k with Some x => Some x | None => mtch ic r2 s c k end.
Proof. reflexivity. Qed.

Lemma mtch_Star g r s c k :
  mtch ic (Star g r) s c k = repeat (mtch ic r) g k (S (String.length s)) s c.
Proof. reflexivity. Qed.

Lemma mtch_Grp n r s c k :
  mtch ic (Grp n r) s c k =
  mtch ic r s c (fun s' c' => k s' ((n, consumed s s') :: c')).
Proof. reflexivity. Qed.

Lemma eats_anything r : eats ic (fun _ => True) r.
Proof. induction r; simpl; auto. Qed.

Section Reaches.

Variable P : ascii -> Prop.

Lemma reaches_now (k : cont) s c x : k s c = Some x -> reaches P k s x.
Proof. intros H. exists "", s, c. now repeat split. Qed.

Lemma reaches_step s k k' x :
  reaches P k' s x ->
  (forall s' c', k' s' c' = Some x -> reaches P k s' x) ->
  reaches P k s x.
Proof.
  intros (u1 & s1 & c1 & -> & P1 & H1) Hk.
  destruct (Hk _ _ H1) as (u2 & s2 & c2 & -> & P2 & H2).
  exists (u1 ++ u2), s2, c2. rewrite append_assoc, allChars_append.
  now repeat split.
Qed.

Lemma repeat_reaches (step : string -> captures -> cont -> option state) :
  (forall s c k x, step s c k = Some x -> reaches P k s x) ->
  forall g k n s c x, repeat step g k n s c = Some x -> reaches P k s x.
Proof.
  intros Hstep g k n. induction n as [|n IH]; intros s c x H; simpl in H.
  - now apply reaches_now in H.
  - assert (Hagain : forall y,
      step s c (fun s' c' =>
        if (String.length s' <? String.length s)%nat
        then repeat step g k n s' c' else None) = Some y -> reaches P k s y).
    { intros y Hy. apply Hstep in Hy. apply (reaches_step s k _ y Hy).
      intros s' c'. destruct (String.length s' <? String.length s)%nat;
        [apply IH | discriminate]. }
    destruct g.
    + destruct (step s c _) eqn:E.
      * injection H as <-. now apply Hagain.
      * now apply reaches_now in H.
    + destruct (k s c) eqn:E.
      * injection H as <-. now apply reaches_now in E.
      * now apply Hagain.
Qed.

Lemma mtch_reaches r : eats ic P r -> forall s c k x,
  mtch ic r s c k = Some x -> reaches P k s x.
Proof.
  induction r as [|a|cs|r1 IH1 r2 IH2|r1 IH1 r2 IH2|g r IH|n r IH|r IH|];
    intros HP s c k x H.
  - now apply reaches_now in H.
  - destruct s as [|b t]; [discriminate|]. simpl in H.
    destruct (charEq ic b a) eqn:E; [|discriminate].
    exists (String b ""), t, c. simpl. auto.
  - destruct s as [|b t]; [discriminate|]. simpl in H.
    destruct (classMatch ic cs b) eqn:E; [|discriminate].
    exists (String b ""), t, c. simpl. auto.
  - destruct HP as [HP1 HP2]. rewrite mtch_Seq in H. apply (IH1 HP1) in H.
    apply (reaches_step s k _ x H). intros s' c'. now apply IH2.
  - destruct HP as [HP1 HP2]. rewrite mtch_Alt in H.
    destruct (mtch ic r1 s c k) eqn:E.
    + injection H as <-. now apply IH1 in E.
    + now apply IH2 in H.
  - rewrite mtch_Star in H.
    now apply (repeat_reaches (mtch ic r) (IH HP)) in H.
  - rewrite mtch_Grp in H. apply (IH HP) in H.
    apply (reaches_step s k _ x H). intros s' c' Hk.
    now apply reaches_now in Hk.
  - simpl in H. destruct (mtch ic r s c _); [discriminate|].
    now apply reaches_now in H.
  - destruct s; [|discriminate]. now apply reaches_now in H.
Qed.

End Reaches.

Lemma repeat_class cs k : forall n s c,
  String.length s < n ->
  repeat (mtch ic (Cls cs)) true k n s c = longestRun (classMatch ic cs) k s c.
Proof.
  induction n as [|n IH]; intros s c Hn; [lia|].
  destruct s as [|a t]; [reflexivity|]. simpl.
  destruct (classMatch ic cs a); [|reflexivity].
  assert (E : (String.length t <? S (String.length t))%nat = true)
    by (apply Nat.ltb_lt; lia).
  rewrite E, IH by (simpl in Hn; lia). reflexivity.
Qed.

Lemma longestRun_any (k : cont) : forall s c x,
  longestRun (fun _ => true) k s c = Some x ->
  exists u v, s = u ++ v /\ k v c = Some x /\
    forall a w v', v = String a w ++ v' -> k v' c = None.
Proof.
  induction s as [|a t IH]; intros c x H; simpl in H.
  - exists "", "". repeat split; [exact H|]. intros; discriminate.
  - destruct (longestRun _ k t c) eqn:E.
    + injection H as <-. destruct (IH _ _ E) as (u & v & -> & Hk & Hlast).
      now exists (String a u), v.
    + exists "", (String a t). repeat split; [exact H|].
      intros b w v' Hv. simpl in Hv. injection Hv as _ ->.
      clear H IH. revert E. induction w as [|b' w IHw]; simpl.
      * destruct v'; simpl; [tauto|]. now destruct (longestRun _ k v' c).
      * destruct (longestRun _ k (w ++ v') c) eqn:E'; [discriminate|].
        intros _. now apply IHw.
Qed.

End MatcherFacts.

(** ** The loop counters are never exhausted *)

Section Counters.

Variable ic : bool.

Lemma repeat_local (step : string -> captures -> cont -> option state) :
  (forall s c k1 k2,
     agreeUpTo (String.length s) k1 k2 -> step s c k1 = step s c k2) ->
  forall g n s c k1 k2,
    agreeUpTo (String.length s) k1 k2 ->
    repeat step g k1 n s c = repeat step g k2 n s c.
Proof.
  intros Hstep g n. induction n as [|n IH]; intros s c k1 k2 Hk; simpl.
  - apply Hk. lia.
  - rewrite (Hk s c) by lia.
    rewrite (Hstep s c _
      (fun s' c' =>
         if String.length s' <? String.length s
         then repeat step g k2 n s' c' else None)); [reflexivity|].
    intros s' c' Hs'. destruct (String.length s' <? String.length s); auto.
    apply IH. intros s2 c2 Hs2. apply Hk. lia.
Qed.

(** The matcher calls its continuation on suffixes of its input only. *)
Lemma mtch_local r : forall s c k1 k2,
  agreeUpTo (String.length s) k1 k2 -> mtch ic r s c k1 = mtch ic r s c k2.
Proof.
  induction r as [|a|cs|r1 IH1 r2 IH2|r1 IH1 r2 IH2|g r IH|n r IH|r IH|];
    intros s c k1 k2 Hk.
  - apply Hk. lia.
  - destruct s as [|b t]; [reflexivity|]. simpl.
    rewrite (Hk t c) by (simpl; lia). reflexivity.
  - destruct s as [|b t]; [reflexivity|]. simpl.
    rewrite (Hk t c) by (simpl; lia). reflexivity.
  - rewrite !mtch_Seq. apply IH1. intros s' c' Hs'. apply IH2.
    intros s2 c2 Hs2. apply Hk. lia.
  - rewrite !mtch_Alt, (IH1 s c k1 k2 Hk), (IH2 s c k1 k2 Hk). reflexivity.
  - rewrite !mtch_Star. now apply repeat_local.
  - rewrite !mtch_Grp. apply IH. intros s' c' Hs'. now apply Hk.
  - simpl. rewrite (Hk s c) by lia. reflexivity.
  - destruct s; [|reflexivity]. simpl. apply Hk. simpl. lia.
Qed.

Lemma repeat_S (step : string -> captures -> cont -> option state) g k n s c :
  repeat step g k (S n) s c =
  if g then
    match step s c (fun s' c' =>
                      if String.length s' <? String.length s
                      then repeat step g k n s' c' else None) with
    | Some x => Some x
    | None => k s c
    end
  else
    match k s c with
    | Some x => Some x
    | None => step s c (fun s' c' =>
                          if String.length s' <? String.length s
                          then repeat step g k n s' c' else None)
    end.
Proof. reflexivity. Qed.

(** A larger counter for the quantifier loop changes nothing. *)
Lemma repeat_counter r g k : forall n s c,
  String.length s < n ->
  repeat (mtch ic r) g k (S n) s c = repeat (mtch ic r) g k n s c.
Proof.
  induction n as [|n IH]; intros s c Hn; [lia|].
  rewrite (repeat_S _ g k (S n)), (repeat_S _ g k n).
  rewrite (mtch_local r s c
    (fun s' c' =>
       if String.length s' <? String.length s
       then repeat (mtch ic r) g k (S n) s' c' else None)
    (fun s' c' =>
       if String.length s' <? String.length s
       then repeat (mtch ic r) g k n s' c' else None)); [reflexivity|].
  intros s' c' _. destruct (String.length s' <? String.length s) eqn:E;
    [|reflexivity].
  apply Nat.ltb_lt in E. apply IH. lia.
Qed.

Lemma repeat_counter_enough r g k n s c :
  String.length s < n ->
  repeat (mtch ic r) g k n s c = mtch ic (Star g r) s c k.
Proof.
  rewrite mtch_Star. intros Hn.
  induction n as [|n IH]; [lia|].
  destruct (Nat.eq_dec n (String.length s)) as [->|Hne]; [reflexivity|].
  rewrite repeat_counter by lia. apply IH. lia.
Qed.

End Counters.

(** ** Searching *)

Section ExecFacts.

Local Open Scope string_scope.

Variable re : RegExp.t.

(** A match at the start of [t] leaves a suffix of [t]. *)
Lemma matchHere_suffix t rest caps :
  matchHere re t = Some (rest, caps) -> t = consumed t rest ++ rest.
Proof.
  intros H. apply (mtch_reaches _ _ _ (eats_anything _ _)) in H.
  destruct H as (u & s' & c' & -> & _ & H). injection H as -> ->.
  now rewrite consumed_append.
Qed.

(** [exec] returns the match at the leftmost position that has one. *)
Lemma execFrom_leftmost : forall s i m,
  execFrom re i s = Some m ->
  exists before,
    s = before ++ matched m ++ after m /\
    index m = i + String.length before /\
    matchHere re (matched m ++ after m) = Some (after m, groups m) /\
    forall j, j < String.length before -> matchHere re (Js.drop j s) = None.
Proof.
  induction s as [|a t IH]; intros i m H; cbn [execFrom] in H.
  - destruct (matchHere re "") as [[rest caps]|] eqn:E; [|discriminate].
    injection H as <-. cbn [index matched after groups]. exists "".
    cbn [append String.length Js.drop].
    rewrite <- (matchHere_suffix _ _ _ E). repeat split; [lia|exact E|lia].
  - destruct (matchHere re (String a t)) as [[rest caps]|] eqn:E.
    + injection H as <-. cbn [index matched after groups]. exists "".
      cbn [append String.length Js.drop].
      rewrite <- (matchHere_suffix _ _ _ E). repeat split; [lia|exact E|lia].
    + destruct (IH _ _ H) as (before & Ht & Hi & Hm & Hleft).
      exists (String a before). cbn [append String.length]. rewrite <- Ht.
      repeat split; [lia|exact Hm|].
      intros [|j] Hj; [exact E | apply Hleft; lia].
Qed.

Lemma exec_leftmost text m :
  exec re text = Some m ->
  text = Js.take (index m) text ++ matched m ++ after m /\
  Js.drop (index m) text = matched m ++ after m /\
  matchHere re (Js.drop (index m) text) = Some (after m, groups m) /\
  forall j, j < index m -> matchHere re (Js.drop j text) = None.
Proof.
  intros H. destruct (execFrom_leftmost _ _ _ H) as (before & Ht & Hi & Hm & Hl).
  simpl in Hi. rewrite Hi.
  assert (Hd : Js.drop (String.length before) text = matched m ++ after m)
    by (rewrite Ht at 1; apply drop_append).
  assert (Hk : Js.take (String.length before) text = before)
    by (rewrite Ht at 1; apply take_append).
  rewrite Hd, Hk. auto.
Qed.

End ExecFacts.

(** The counters of [matchAll], [replace] and [split] are large enough
    too: one more changes nothing. *)
Section LoopCounters.

Variable re : RegExp.t.

Lemma matchHere_shorter t rest caps :
  matchHere re t = Some (rest, caps) -> String.length rest <= String.length t.
Proof.
  intros H. apply matchHere_suffix in H.
  assert (L := f_equal String.length H). rewrite length_append in L. lia.
Qed.

Lemma execFrom_lengths s i m :
  execFrom re i s = Some m ->
  String.length (matched m) + String.length (after m) <= String.length s.
Proof.
  intros H. apply execFrom_leftmost in H. destruct H as (before & -> & _).
  rewrite !length_append. lia.
Qed.

Lemma matchAllFrom_counter : forall n s i,
  String.length s < n ->
  matchAllFrom re (S n) i s = matchAllFrom re n i s.
Proof.
  induction n as [|n IH]; intros s i Hn; [lia|].
  change (matchAllFrom re (S (S n)) i s) with
    (match execFrom re i s with
     | None => []
     | Some m =>
         m :: match matched m, after m with
              | EmptyString, EmptyString => []
              | EmptyString, String _ t => matchAllFrom re (S n) (S (index m)) t
              | _, rest =>
                  matchAllFrom re (S n)
                    (index m + String.length (matched m)) rest
              end
     end).
  change (matchAllFrom re (S n) i s) with
    (match execFrom re i s with
     | None => []
     | Some m =>
         m :: match matched m, after m with
              | EmptyString, EmptyString => []
              | EmptyString, String _ t => matchAllFrom re n (S (index m)) t
              | _, rest =>
                  matchAllFrom re n (index m + String.length (matched m)) rest
              end
     end).
  destruct (execFrom re i s) as [m|] eqn:E; [|reflexivity].
  apply execFrom_lengths in E. f_equal.
  destruct (matched m) as [|a w]; [destruct (after m) as [|b t]|];
    simpl in E; try reflexivity; apply IH; simpl; lia.
Qed.

Lemma replaceLoop_counter by_ : forall n s,
  String.length s < n ->
  replaceLoop re by_ (S n) s = replaceLoop re by_ n s.
Proof.
  induction n as [|n IH]; intros s Hn; [lia|].
  change (replaceLoop re by_ (S (S n)) s) with
    (match exec re s with
     | None => s
     | Some m =>
         (Js.take (index m) s ++ by_ ++
          match matched m, after m with
          | EmptyString, EmptyString => EmptyString
          | EmptyString, String a t => String a (replaceLoop re by_ (S n) t)
          | _, rest => replaceLoop re by_ (S n) rest
          end)%string
     end).
  change (replaceLoop re by_ (S n) s) with
    (match exec re s with
     | None => s
     | Some m =>
         (Js.take (index m) s ++ by_ ++
          match matched m, after m with
          | EmptyString, EmptyString => EmptyString
          | EmptyString, String a t => String a (replaceLoop re by_ n t)
          | _, rest => replaceLoop re by_ n rest
          end)%string
     end).
  destruct (exec re s) as [m|] eqn:E; [|reflexivity].
  apply execFrom_lengths in E. do 2 f_equal.
  destruct (matched m) as [|a w]; [destruct (after m) as [|b t]|];
    simpl in E; try reflexivity; [f_equal|]; apply IH; simpl; lia.
Qed.

Lemma splitLoop_counter : forall n piece s,
  2 * String.length s + (if Js.truthy piece then 1 else 0) < n ->
  splitLoop re (S n) piece s = splitLoop re n piece s.
Proof.
  induction n as [|n IH]; intros piece s Hn; [lia|].
  destruct s as [|a t]; [reflexivity|].
  change (splitLoop re (S (S n)) piece (String a t)) with
    (match matchHere re (String a t) with
     | None => splitLoop re (S n) (String a piece) t
     | Some (rest, _) =>
         if (String.length rest =? String.length (String a t))
            && negb (Js.truthy piece)
         then splitLoop re (S n) (String a piece) t
         else Js.reverse piece :: splitLoop re (S n) EmptyString rest
     end).
  change (splitLoop re (S n) piece (String a t)) with
    (match matchHere re (String a t) with
     | None => splitLoop re n (String a piece) t
     | Some (rest, _) =>
         if (String.length rest =? String.length (String a t))
            && negb (Js.truthy piece)
         then splitLoop re n (String a piece) t
         else Js.reverse piece :: splitLoop re n EmptyString rest
     end).
  assert (Hstep : splitLoop re (S n) (String a piece) t
                  = splitLoop re n (String a piece) t).
  { apply IH. simpl in *. lia. }
  destruct (matchHere re (String a t)) as [[rest caps]|] eqn:E; [|exact Hstep].
  apply matchHere_shorter in E.
  destruct (Nat.eqb_spec (String.length rest) (String.length (String a t)))
    as [L|L];
    destruct (Js.truthy piece) eqn:T; cbn [andb negb];
    try exact Hstep; f_equal; apply IH; cbn [Js.truthy String.length] in *;
    lia.
Qed.

End LoopCounters.

(** ** The create-table pattern *)

Section CreatePattern.

Local Open Scope string_scope.

Ltac by_cases_on_char b :=
  destruct b as [[] [] [] [] [] [] [] []]; vm_compute;
  intros H; try discriminate H; try reflexivity;
  try (intros E; discriminate E).

Lemma charEq_open b : charEq true b "(" = true -> b = "("%char.
Proof. by_cases_on_char b. Qed.

Lemma charEq_close b : charEq true b ")" = true -> b = ")"%char.
Proof. by_cases_on_char b. Qed.

(** Nothing before the column list's parenthesis is a parenthesis. *)
Lemma createHead_eats : eats true (fun a => a <> "("%char) createHead.
Proof. simpl. repeat split; intros b; by_cases_on_char b. Qed.

(** The tail of the pattern: the parenthesised list.  Group 2 runs up to
    the last closing parenthesis of the input. *)
Lemma columnList_greedy s c k rest caps :
  k = (fun s' c' => Some (s', c')) ->
  mtch true (Seqs [Chr "("; Grp 2 (Star true anyChar); Chr ")"]) s c k
    = Some (rest, caps) ->
  exists content,
    s = "(" ++ content ++ ")" ++ rest /\
    capture 2 caps = Some content /\
    ~ Js.occurs ")" rest.
Proof.
  intros -> H. cbn [Seqs] in H. rewrite mtch_Seq in H.
  destruct s as [|b s2]; [discriminate|]. cbn [mtch] in H.
  destruct (charEq true b "(") eqn:Eb; [|discriminate].
  apply charEq_open in Eb. subst b.
  change (mtch true (Seq (Grp 2 (Star true anyChar)) (Chr ")")) s2 c
            (fun s' c' => Some (s', c')) = Some (rest, caps)) in H.
  rewrite mtch_Seq, mtch_Grp, mtch_Star in H.
  unfold anyChar in H. rewrite repeat_class in H by lia.
  apply longestRun_any in H. destruct H as (u & v & -> & Hk & Hlast).
  destruct v as [|b v]; [discriminate|]. cbn [mtch] in Hk.
  destruct (charEq true b ")") eqn:Eb; [|discriminate].
  apply charEq_close in Eb. subst b. injection Hk as -> <-.
  exists u. repeat split.
  - simpl. now rewrite consumed_append.
  - intros Hocc. apply occurs_split in Hocc. destruct Hocc as (w & w' & ->).
    specialize (Hlast ")"%char w (String ")" w') eq_refl).
    cbn [mtch] in Hlast. discriminate.
Qed.

Lemma createMatch_shape t rest caps :
  matchHere createRe t = Some (rest, caps) ->
  exists head content,
    t = head ++ "(" ++ content ++ ")" ++ rest /\
    ~ Js.occurs "(" head /\
    capture 2 caps = Some content /\
    ~ Js.occurs ")" rest.
Proof.
  unfold matchHere, createRe, createPattern. cbn [pattern ignoreCase].
  rewrite mtch_Seq. intros H.
  apply (mtch_reaches _ _ _ createHead_eats) in H.
  destruct H as (head & s1 & c1 & -> & Hhead & H).
  apply columnList_greedy in H; [|reflexivity].
  destruct H as (content & -> & Hcap & Hrest).
  exists head, content. repeat split; auto.
  now apply allChars_not_occurs.
Qed.

End CreatePattern.

(** ** The table-detection pattern *)

Section TablePattern.

Lemma firstSome_Some {A : Type} (l : list (option A)) (x : A) :
  firstSome l = Some x ->
  exists l1 l2, l = l1 ++ Some x :: l2 /\ Forall (fun o => o = None) l1.
Proof.
  induction l as [|[y|] l IH]; simpl; intros H; [discriminate| |].
  - injection H as ->. now exists [], l.
  - destruct (IH H) as (l1 & l2 & -> & Hl1). exists (None :: l1), l2.
    split; [reflexivity | now constructor].
Qed.

Lemma firstSome_None {A : Type} (l : list (option A)) :
  firstSome l = None -> Forall (fun o => o = None) l.
Proof.
  induction l as [|[y|] l IH]; simpl; intros H;
    [constructor | discriminate | constructor; auto].
Qed.

(** An alternation in front of a common tail tries, at one position, each
    alternative with the tail, in the order of the alternation. *)
Lemma mtch_Alts ic tail s c k : forall keywords, keywords <> [] ->
  mtch ic (Seq (Alts keywords) tail) s c k =
  firstSome (map (fun kw => mtch ic (Seq kw tail) s c k) keywords).
Proof.
  induction keywords as [|kw rest IH]; intros Hne; [congruence|].
  destruct rest as [|kw' rest].
  - simpl. now destruct (mtch ic kw s c _).
  - change (Alts (kw :: kw' :: rest)) with (Alt kw (Alts (kw' :: rest))).
    rewrite mtch_Seq, mtch_Alt, <- !mtch_Seq, IH by discriminate.
    cbn [map firstSome]. now destruct (mtch ic (Seq kw tail) s c k).
Qed.

Lemma matchHere_keywords keywords t : keywords <> [] ->
  matchHere (tableReWith keywords) t =
  firstSome (map (fun kw => matchHere (keywordRe kw) t) keywords).
Proof.
  intros Hne. unfold matchHere, tableReWith, keywordRe.
  cbn [pattern ignoreCase]. now apply mtch_Alts.
Qed.

(** Position first, then order of the alternation. *)
Lemma tableMatch_leftmost keywords text m :
  keywords <> [] ->
  RegExp.exec (tableReWith keywords) text = Some m ->
  (forall j kw, j < index m -> In kw keywords ->
     matchHere (keywordRe kw) (Js.drop j text) = None) /\
  exists earlier kw later,
    keywords = earlier ++ kw :: later /\
    (forall kw', In kw' earlier ->
       matchHere (keywordRe kw') (Js.drop (index m) text) = None) /\
    matchHere (keywordRe kw) (Js.drop (index m) text)
      = Some (after m, groups m).
Proof.
  intros Hne H. apply exec_leftmost in H. destruct H as (_ & _ & Hm & Hleft).
  split.
  - intros j kw Hj Hin. specialize (Hleft j Hj).
    rewrite matchHere_keywords in Hleft by assumption.
    apply firstSome_None in Hleft. rewrite Forall_forall in Hleft.
    apply Hleft. now apply (in_map (fun kw => matchHere (keywordRe kw) _)).
  - rewrite matchHere_keywords in Hm by assumption.
    apply firstSome_Some in Hm. destruct Hm as (l1 & l2 & Hmap & Hl1).
    apply map_eq_app in Hmap. destruct Hmap as (earlier & rest & -> & <- & Hrest).
    destruct rest as [|kw later]; [discriminate|]. injection Hrest as Hkw _.
    exists earlier, kw, later. repeat split; [|exact Hkw].
    intros kw' Hin. rewrite Forall_forall in Hl1. apply Hl1.
    now apply (in_map (fun kw => matchHere (keywordRe kw) _)).
Qed.

End TablePattern.

(** ** Replacing a character class *)

Section ReplaceClass.

Variables (cs : cclass) (ic : bool).

Let re : RegExp.t := RegExp.mk (Cls cs) ic.
Let keep (a : ascii) : bool := negb (classMatch ic cs a).

Lemma filterString_append f (u v : string) :
  Js.filterString f (u ++ v)%string
  = (Js.filterString f u ++ Js.filterString f v)%string.
Proof.
  induction u as [|a u IH]; simpl; [reflexivity|].
  destruct (f a); simpl; now rewrite IH.
Qed.

(** The first match of a one-character class is the first character in
    it. *)
Lemma execFrom_class : forall s i,
  match execFrom re i s with
  | None => Js.filterString keep s = s
  | Some m =>
      exists pre b,
        s = (pre ++ String b (after m))%string /\
        index m = i + String.length pre /\
        matched m = String b EmptyString /\
        classMatch ic cs b = true /\
        Js.filterString keep pre = pre
  end.
Proof.
  induction s as [|a t IH]; intros i; cbn [execFrom].
  - reflexivity.
  - unfold matchHere. cbn [re pattern ignoreCase mtch].
    destruct (classMatch ic cs a) eqn:E.
    + exists EmptyString, a. cbn [index matched after append String.length].
      repeat split; [lia | | exact E].
      exact (consumed_append (String a EmptyString) t).
    + specialize (IH (S i)). destruct (execFrom re (S i) t) as [m|].
      * destruct IH as (pre & b & Ht & Hi & Hm & Hb & Hpre).
        exists (String a pre), b. cbn [append String.length Js.filterString].
        unfold keep at 1. rewrite E. cbn [negb]. rewrite Hpre, <- Ht.
        repeat split; auto; lia.
      * cbn [Js.filterString]. unfold keep at 1. rewrite E. cbn [negb].
        now rewrite IH.
Qed.

(** Replacing every match of the class by nothing deletes its
    characters. *)
Lemma replaceLoop_class : forall n s,
  String.length s < n ->
  replaceLoop re EmptyString n s = Js.filterString keep s.
Proof.
  induction n as [|n IH]; intros s Hn; [lia|]. cbn [replaceLoop].
  unfold exec. pose proof (execFrom_class s 0) as H.
  destruct (execFrom re 0 s) as [m|]; [|now rewrite H].
  destruct H as (pre & b & Hs & Hi & Hm & Hb & Hpre).
  assert (Ht : Js.take (String.length pre) s = pre)
    by (rewrite Hs; apply take_append).
  rewrite Hm, Hi. cbn [Nat.add]. rewrite Ht. cbn [append]. rewrite IH.
  - rewrite Hs, filterString_append. cbn [Js.filterString].
    unfold keep at 3. rewrite Hb. cbn [negb]. now rewrite Hpre.
  - rewrite Hs, length_append in Hn. simpl in Hn. lia.
Qed.

Lemma replaceAll_class s :
  replaceAll re s EmptyString = Js.filterString keep s.
Proof. apply replaceLoop_class. lia. Qed.

End ReplaceClass.

Lemma filterString_ext f g (s : string) :
  (forall a, f a = g a) -> Js.filterString f s = Js.filterString g s.
Proof.
  intros E. induction s as [|a s IH]; simpl; [reflexivity|].
  now rewrite E, IH.
Qed.

Lemma cleanCell_filter (val : string) :
  cleanCell val = Js.filterString (fun a => negb (isQuote a)) (Js.trim val).
Proof.
  unfold cleanCell, quoteRe. rewrite replaceAll_class.
  apply filterString_ext. intros a. unfold isQuote. cbn [classMatch existsb].
  unfold charEq, canon. now rewrite orb_false_r.
Qed.

Lemma filterString_sound f c (s : string) :
  f c = false -> ~ Js.occurs c (Js.filterString f s).
Proof.
  intros Hc. induction s as [|a s IH]; simpl; [tauto|].
  destruct (f a) eqn:E; simpl; [|exact IH].
  intros [->|H]; [congruence | tauto].
Qed.

(** ** Splitting on a one-character separator pattern *)

Section SplitJoin.

Variables (re : RegExp.t) (sep : ascii).

(** The separator pattern, where it matches, consumes exactly [sep]. *)
Hypothesis one_char : forall t rest caps,
  matchHere re t = Some (rest, caps) -> t = String sep rest.

Lemma rev_onto_append (p acc : string) :
  Js.rev_onto p acc = (Js.reverse p ++ acc)%string.
Proof.
  unfold Js.reverse. revert acc.
  induction p as [|a p IH]; intros acc; simpl; [reflexivity|].
  rewrite IH, (IH (String a EmptyString)), append_assoc. reflexivity.
Qed.

Lemma splitLoop_nonempty : forall n piece s, splitLoop re n piece s <> [].
Proof.
  induction n as [|n IH]; intros piece s; simpl; [discriminate|].
  destruct s as [|a t]; [discriminate|].
  destruct (matchHere re (String a t)) as [[rest caps]|]; [|apply IH].
  destruct (_ && _); [apply IH | discriminate].
Qed.

Lemma concat_cons (x : string) (l : list string) :
  l <> [] ->
  String.concat (String sep EmptyString) (x :: l)
  = (x ++ String sep (String.concat (String sep EmptyString) l))%string.
Proof. destruct l; [congruence | reflexivity]. Qed.

(** Joining the pieces with the separator gives the text back: [split]
    drops nothing but the separators. *)
Lemma splitLoop_join : forall n piece s,
  String.concat (String sep EmptyString) (splitLoop re n piece s)
  = Js.rev_onto piece s.
Proof.
  induction n as [|n IH]; intros piece s; simpl; [reflexivity|].
  destruct s as [|a t]; [reflexivity|].
  destruct (matchHere re (String a t)) as [[rest caps]|] eqn:E;
    [|exact (IH (String a piece) t)].
  apply one_char in E. injection E as -> ->.
  assert (L : (String.length rest =? String.length (String sep rest)) = false)
    by (apply Nat.eqb_neq; simpl; lia).
  rewrite L. cbn [andb].
  rewrite concat_cons by apply splitLoop_nonempty.
  rewrite IH. cbn [Js.rev_onto]. symmetry. apply rev_onto_append.
Qed.

Lemma split_join (s : string) :
  String.concat (String sep EmptyString) (RegExp.split re s) = s.
Proof.
  unfold RegExp.split. destruct s as [|a t].
  - destruct (matchHere re EmptyString) as [[rest caps]|] eqn:E;
      [apply one_char in E; discriminate | reflexivity].
  - apply splitLoop_join.
Qed.

End SplitJoin.

Lemma columnSep_one_char t rest caps :
  matchHere columnSepRe t = Some (rest, caps) -> t = String ","%char rest.
Proof.
  unfold matchHere, columnSepRe. cbn [pattern ignoreCase].
  destruct t as [|b t]; [discriminate|]. rewrite mtch_Seq. cbn [mtch].
  unfold charEq, canon. destruct (Ascii.eqb_spec b ","%char) as [->|];
    [|discriminate].
  destruct (repeat _ _ _ _ _ _); [discriminate|].
  intros H. now injection H as -> _.
Qed.

(** The fragments of the column list, joined by commas, are the column
    list. *)
Lemma columnsRaw_join (columnsContent : string) :
  String.concat "," (columnsRaw columnsContent) = columnsContent.
Proof. exact (split_join columnSepRe ","%char columnSep_one_char _). Qed.

(** ** The values pattern of the local-first version *)

Section ValuesOpen.

Lemma repeat_class_lazy ic cs k : forall n s c,
  String.length s < n ->
  repeat (mtch ic (Cls cs)) false k n s c
  = shortestRun (classMatch ic cs) k s c.
Proof.
  induction n as [|n IH]; intros s c Hn; [lia|].
  rewrite repeat_S. destruct s as [|a t]; cbn [shortestRun mtch].
  - now destruct (k EmptyString c).
  - destruct (k (String a t) c); [reflexivity|].
    destruct (classMatch ic cs a); [|reflexivity].
    assert (E : (String.length t <? String.length (String a t)) = true)
      by (apply Nat.ltb_lt; simpl; lia).
    rewrite E. apply IH. simpl in Hn. lia.
Qed.

(** A literal word matches a text that is equal to it up to the letter
    case the flag ignores. *)
Lemma mtch_Lit ic w : forall v rest c k,
  Js.mapString (canon ic) v = Js.mapString (canon ic) w ->
  mtch ic (Lit w) (v ++ rest)%string c k = k rest c.
Proof.
  induction w as [|a w IH]; intros [|b v] rest c k H; try discriminate.
  - reflexivity.
  - cbn [Js.mapString] in H. injection H as Hb Hv.
    assert (Eb : charEq ic b a = true)
      by (unfold charEq; rewrite Hb; apply Ascii.eqb_refl).
    destruct w as [|a' w].
    + destruct v; [|discriminate]. cbn. now rewrite Eb.
    + change (Lit (String a (String a' w)))
        with (Seq (Chr a) (Lit (String a' w))).
      rewrite mtch_Seq. cbn [append mtch]. rewrite Eb. now apply IH.
Qed.

Lemma longestRun_run p k : forall run s c x,
  Js.allChars (fun a => p a = true) run ->
  longestRun p k s c = Some x ->
  longestRun p k (run ++ s)%string c = Some x.
Proof.
  induction run as [|a run IH]; intros s c x Hrun H; [exact H|].
  destruct Hrun as [Ha Hrun]. cbn [append longestRun].
  now rewrite Ha, (IH _ _ _ Hrun H).
Qed.

Lemma shortestRun_to_end (k : cont) c x : forall s,
  (forall a t, a <> ")"%char -> k (String a t) c = None) ->
  k EmptyString c = Some x ->
  ~ Js.occurs ")" s ->
  shortestRun (fun _ => true) k s c = Some x.
Proof.
  induction s as [|a t IH]; intros Hk Hend Hno.
  - cbn. now rewrite Hend.
  - cbn in Hno. cbn [shortestRun]. rewrite Hk by tauto. apply IH; tauto.
Qed.

Lemma consumed_all (s : string) : consumed s EmptyString = s.
Proof.
  rewrite <- (append_empty_r s) at 1. apply consumed_append.
Qed.

(** With no closing parenthesis after the opening one, the group runs to
    the end of the text. *)
Lemma valuesOpen_to_end (keyword blanks content : string) :
  Js.toUpperCase keyword = "VALUES" ->
  Js.allChars (fun a => Js.isSpace a = true) blanks ->
  ~ Js.occurs ")" content ->
  matchHere valuesOpenRe (keyword ++ blanks ++ "(" ++ content)%string
  = Some (EmptyString, [(1, content)]).
Proof.
  intros Hkw Hblanks Hno. unfold matchHere, valuesOpenRe.
  cbn [pattern ignoreCase Seqs]. rewrite mtch_Seq, mtch_Lit by exact Hkw.
  rewrite mtch_Seq, mtch_Star. unfold space. rewrite repeat_class by lia.
  apply longestRun_run; [exact Hblanks|].
  cbn [append longestRun classMatch]. change (Js.isSpace "(") with false.
  cbv match. rewrite mtch_Seq, mtch_Chr.
  change (charEq true "(" "(") with true. cbv match.
  rewrite mtch_Seq, mtch_Grp, mtch_Star. unfold anyChar.
  rewrite repeat_class_lazy by lia.
  apply shortestRun_to_end; [| |exact Hno].
  - intros a t Ha. rewrite mtch_Alt. cbn [mtch].
    destruct (charEq true a ")") eqn:E; [|reflexivity].
    apply charEq_close in E. contradiction.
  - cbn. now rewrite consumed_all.
Qed.

Lemma execFrom_skip re (Q : ascii -> Prop) :
  (forall b t, Q b -> matchHere re (String b t) = None) ->
  forall before t i,
    Js.allChars Q before ->
    execFrom re i (before ++ t)%string
    = execFrom re (i + String.length before) t.
Proof.
  intros HQ. induction before as [|b before IH]; intros t i Hb.
  - cbn. now rewrite Nat.add_0_r.
  - destruct Hb as [Hb Hrest]. cbn [append execFrom String.length].
    rewrite (HQ _ _ Hb), IH by exact Hrest. f_equal. lia.
Qed.

Lemma valuesOpen_first_letter b t :
  Js.upperChar b <> "V"%char -> matchHere valuesOpenRe (String b t) = None.
Proof.
  intros Hb. unfold matchHere, valuesOpenRe. cbn [pattern ignoreCase Seqs].
  change (Lit "VALUES") with (Seq (Chr "V") (Lit "ALUES")).
  rewrite 2!mtch_Seq. cbn [mtch]. unfold charEq, canon.
  change (Js.upperChar "V") with "V"%char.
  destruct (Ascii.eqb_spec (Js.upperChar b) "V"); [contradiction|reflexivity].
Qed.

Lemma execFrom_here re i t rest caps :
  matchHere re t = Some (rest, caps) ->
  execFrom re i t = Some (mkResult i (consumed t rest) caps rest).
Proof. intros H. destruct t; cbn [execFrom]; now rewrite H. Qed.

Lemma matchAllFrom_empty re n i :
  matchHere re EmptyString = None -> matchAllFrom re n i EmptyString = [].
Proof. intros H. destruct n; cbn; [reflexivity | now rewrite H]. Qed.

(** The local-first version keeps an unterminated values group: when no
    letter v stands before the keyword and no closing parenthesis after
    the opening one, the one tuple returned has the cells of the text
    from the parenthesis to the end. *)
Theorem parseAllInsertRowsLocalFirst_unterminated
    (before keyword blanks content : string) :
  Js.allChars (fun a => Js.upperChar a <> "V"%char) before ->
  Js.toUpperCase keyword = "VALUES" ->
  Js.allChars (fun a => Js.isSpace a = true) blanks ->
  ~ Js.occurs ")" content ->
  parseAllInsertRowsLocalFirst
    (before ++ keyword ++ blanks ++ "(" ++ content)%string
  = [map cleanCell (Js.splitChar ","%char content)].
Proof.
  intros Hbefore Hkw Hblanks Hno.
  unfold parseAllInsertRowsLocalFirst, parseAllInsertRowsWith, matchAll.
  cbn [matchAllFrom].
  rewrite (execFrom_skip _ _ valuesOpen_first_letter) by exact Hbefore.
  rewrite (execFrom_here _ _ _ _ _ (valuesOpen_to_end _ _ _ Hkw Hblanks Hno)).
  cbn [matched after index]. rewrite consumed_all.
  destruct keyword as [|a keyword]; [discriminate Hkw|]. cbn [append].
  rewrite matchAllFrom_empty by reflexivity.
  reflexivity.
Qed.

Lemma parseAllInsertRowsLocalFirst_unterminated_witness :
  parseAllInsertRowsLocalFirst "INSERT INTO t VALUES (1, 2" = [["1"; "2"]].
Proof.
  apply (parseAllInsertRowsLocalFirst_unterminated
           "INSERT INTO t " "VALUES" " " "1, 2").
  - cbn; repeat split; discriminate.
  - reflexivity.
  - cbn; auto.
  - cbn; intuition discriminate.
Defined.

End ValuesOpen.

(** * The schema builder *)

Section SchemaBuilder.

(** C1. For the draft CREATE TABLE t (a INT, b VARCHAR(10)), [parseSchema]
    returns the table name t and exactly the columns a of type Number and
    b of type Text, in this order; the column list is split into the two
    fragments around its one top-level comma, and the parameterised type
    VARCHAR(10) stays whole inside the second fragment. *)
Theorem parseSchema_two_columns :
  parseSchema "CREATE TABLE t (a INT, b VARCHAR(10))"
    = Some (Schema.mk "t" [Column.mk "a" (Some "Number");
                           Column.mk "b" (Some "Text")])
  /\ columnsRaw "a INT, b VARCHAR(10)" = ["a INT"; " b VARCHAR(10)"].
Proof. split; vm_compute; reflexivity. Qed.

(** A comma inside a parameter list is no separator: the same draft with a
    two-parameter type. *)
Example parseSchema_parameter_comma :
  columnsRaw "a INT, b DECIMAL(10,2)" = ["a INT"; " b DECIMAL(10,2)"]
  /\ parseSchema "CREATE TABLE t (a INT, b DECIMAL(10,2))"
      = Some (Schema.mk "t" [Column.mk "a" (Some "Number");
                             Column.mk "b" (Some "TEXT")]).
Proof. split; vm_compute; reflexivity. Qed.

Lemma includesString_In (l : list string) (s : string) :
  includesString l s = true <-> In s l.
Proof.
  unfold includesString. rewrite existsb_exists. split.
  - intros (x & Hin & E). apply String.eqb_eq in E. now subst.
  - intros Hin. exists s. split; [exact Hin | apply String.eqb_refl].
Qed.

Lemma keepColumn_not_keyword (c : Column.t) :
  keepColumn c = true ->
  Column.name c <> EmptyString /\
  ~ In (Js.toUpperCase (Column.name c)) constraintKeywords.
Proof.
  unfold keepColumn. intros H. apply andb_prop in H. destruct H as [Ht Hk].
  split.
  - intros E. rewrite E in Ht. discriminate.
  - intros Hin. apply includesString_In in Hin. rewrite Hin in Hk.
    discriminate.
Qed.

(** C5. No column that [parseSchema] returns has a name that is, in upper
    case, one of PRIMARY, FOREIGN, CONSTRAINT and KEY; and every fragment
    of the column list whose leading token is one of them in upper case
    has no column in the result, wherever it stands in the list. *)
Theorem parseSchema_drops_constraints (text : string) (schema : Schema.t)
    (createMatch : result) :
  RegExp.exec createRe text = Some createMatch ->
  parseSchema text = Some schema ->
  (forall c, In c (Schema.columns schema) ->
     ~ In (Js.toUpperCase (Column.name c)) constraintKeywords) /\
  (forall fragment,
     In fragment (columnsRaw (groupText 2 createMatch)) ->
     In (Js.toUpperCase (leadingToken fragment)) constraintKeywords ->
     ~ In (parseColumn fragment) (Schema.columns schema)).
Proof.
  unfold parseSchema. intros -> H. injection H as <-. cbn [Schema.columns].
  assert (Hcols : forall c,
    In c (filter keepColumn
            (map parseColumn (columnsRaw (groupText 2 createMatch)))) ->
    ~ In (Js.toUpperCase (Column.name c)) constraintKeywords).
  { intros c Hin. apply filter_In in Hin. destruct Hin as [_ Hk].
    now apply keepColumn_not_keyword in Hk. }
  split; [exact Hcols|].
  intros fragment _ Hkw Hin. exact (Hcols _ Hin Hkw).
Qed.

Lemma parseSchema_drops_constraints_witness :
  parseSchema constraintDraft
    = Some (Schema.mk "t" [Column.mk "a" (Some "Number");
                           Column.mk "b" (Some "TEXT")])
  /\ (forall c,
        In c [Column.mk "a" (Some "Number"); Column.mk "b" (Some "TEXT")] ->
        ~ In (Js.toUpperCase (Column.name c)) constraintKeywords).
Proof.
  split; [vm_compute; reflexivity|].
  refine (proj1 (parseSchema_drops_constraints constraintDraft
    (Schema.mk "t" [Column.mk "a" (Some "Number"); Column.mk "b" (Some "TEXT")])
    (mkResult 0 constraintDraft
       [(2, "PRIMARY KEY (a), a INT, constraint c1 UNIQUE (a), b TEXT, Key k (b)");
        (1, "t")] "") _ _)); vm_compute; reflexivity.
Defined.

(** C10. In the type inference of [parseSchema] the check for CHAR and
    VARCHAR comes after the check for INT and NUMBER and overrides it: a
    column fragment whose upper-cased text has a numeric marker and a
    character marker gets the type Text, also when the numeric marker is
    part of the column's name (internal CHAR(5)); a fragment with neither
    keeps the initial TEXT. *)
Theorem inferType_character_marker_last :
  (forall col,
     numericMarker (Js.toUpperCase col) = true ->
     characterMarker (Js.toUpperCase col) = true ->
     inferType col = "Text"
     /\ Column.type (parseColumn col) = Some "Text")
  /\ (forall col,
       numericMarker (Js.toUpperCase col) = false ->
       characterMarker (Js.toUpperCase col) = false ->
       inferType col = "TEXT"
       /\ Column.type (parseColumn col) = Some "TEXT")
  /\ parseSchema "CREATE TABLE t (internal CHAR(5), note DATE)"
      = Some (Schema.mk "t" [Column.mk "internal" (Some "Text");
                             Column.mk "note" (Some "TEXT")]).
Proof.
  split; [|split].
  - intros col Hnum Hchar. unfold parseColumn, inferType. cbn [Column.type].
    rewrite Hnum, Hchar. split; reflexivity.
  - intros col Hnum Hchar. unfold parseColumn, inferType. cbn [Column.type].
    rewrite Hnum, Hchar. split; reflexivity.
  - vm_compute. reflexivity.
Qed.

Lemma inferType_character_marker_last_witness :
  numericMarker (Js.toUpperCase "internal CHAR(5)") = true
  /\ characterMarker (Js.toUpperCase "internal CHAR(5)") = true
  /\ inferType "internal CHAR(5)" = "Text"
  /\ numericMarker (Js.toUpperCase " note DATE") = false
  /\ characterMarker (Js.toUpperCase " note DATE") = false
  /\ inferType " note DATE" = "TEXT".
Proof.
  split; [vm_compute; reflexivity|].
  split; [vm_compute; reflexivity|].
  split.
  { refine (proj1 (proj1 inferType_character_marker_last
                     "internal CHAR(5)" _ _)); vm_compute; reflexivity. }
  split; [vm_compute; reflexivity|].
  split; [vm_compute; reflexivity|].
  refine (proj1 (proj1 (proj2 inferType_character_marker_last)
                   " note DATE" _ _)); vm_compute; reflexivity.
Defined.

End SchemaBuilder.

(** * The row extractor *)

Section RowExtractor.

(** C2. On a draft whose values group is not closed, INSERT INTO t VALUES
    (1, 2 without the closing parenthesis, [parseAllInsertRows] of
    [App.js] returns no tuple at all, because its pattern ends in a
    mandatory closing parenthesis; the variant of the local-first version,
    whose pattern ends in the closing parenthesis or the end of the input,
    returns the tuple of the cells 1 and 2 captured to the end of the
    text. *)
Theorem parseAllInsertRows_unterminated :
  parseAllInsertRows unterminatedInsert = []
  /\ parseAllInsertRowsLocalFirst unterminatedInsert = [["1"; "2"]].
Proof. split; vm_compute; reflexivity. Qed.

(** The pattern of [App.js] needs a closing parenthesis. *)
Lemma valuesRe_needs_close t rest caps :
  matchHere valuesRe t = Some (rest, caps) -> Js.occurs ")" t.
Proof.
  unfold matchHere, valuesRe. cbn [pattern ignoreCase Seqs].
  rewrite !mtch_Seq_assoc, mtch_Seq. intros H.
  apply (mtch_reaches _ _ _ (eats_anything _ _)) in H.
  destruct H as (u & s' & c' & -> & _ & H).
  destruct s' as [|b s']; [discriminate|]. cbn [mtch] in H.
  destruct (charEq true b ")") eqn:E; [|discriminate].
  apply charEq_close in E. subst b.
  apply occurs_append. right. now left.
Qed.

(** So a draft without any closing parenthesis gives no row. *)
Lemma parseAllInsertRows_no_close (text : string) :
  ~ Js.occurs ")" text -> parseAllInsertRows text = [].
Proof.
  intros Hno. unfold parseAllInsertRows, parseAllInsertRowsWith, matchAll.
  cbn [matchAllFrom]. destruct (execFrom valuesRe 0 text) as [m|] eqn:E;
    [|reflexivity].
  exfalso. apply Hno. apply execFrom_leftmost in E.
  destruct E as (before & -> & _ & Hm & _).
  apply valuesRe_needs_close in Hm. apply occurs_append. now right.
Qed.

(** C6, as stated, fails: a quote character inside a cell is removed too.
    For the values group ('it's', 1) the code returns the cell its, while
    stripping one surrounding pair of quotes would leave it's. *)
Lemma parseAllInsertRows_inner_quote :
  parseAllInsertRows apostropheInsert = [["its"; "1"]]
  /\ rowsWithQuotePairStripped apostropheInsert = [["it's"; "1"]]
  /\ parseAllInsertRows apostropheInsert
      <> rowsWithQuotePairStripped apostropheInsert.
Proof.
  split; [vm_compute; reflexivity|].
  split; [vm_compute; reflexivity|].
  vm_compute. discriminate.
Qed.

(** C6, amended. For every values group that [parseAllInsertRows] finds,
    each cell is a piece of the group's content between commas, trimmed,
    with every single-quote and double-quote character removed, wherever
    it stands in the cell; no cell of the result contains a quote
    character; and INSERT INTO t VALUES ('x', 1) yields exactly the one
    tuple of x and 1. *)
Theorem parseAllInsertRows_cells (text : string) :
  parseAllInsertRows text
    = map (fun m =>
             map (fun val =>
                    Js.filterString (fun a => negb (isQuote a)) (Js.trim val))
                 (Js.splitChar ","%char (groupText 1 m)))
          (RegExp.matchAll valuesRe text)
  /\ Forall (Forall (fun cell =>
               ~ Js.occurs singleQuote cell /\ ~ Js.occurs doubleQuote cell))
            (parseAllInsertRows text)
  /\ parseAllInsertRows quotedInsert = [["x"; "1"]].
Proof.
  assert (E : parseAllInsertRows text
    = map (fun m =>
             map (fun val =>
                    Js.filterString (fun a => negb (isQuote a)) (Js.trim val))
                 (Js.splitChar ","%char (groupText 1 m)))
          (RegExp.matchAll valuesRe text)).
  { unfold parseAllInsertRows, parseAllInsertRowsWith. apply map_ext.
    intros m. unfold rowOfMatch. apply map_ext. exact cleanCell_filter. }
  split; [exact E|]. split; [|vm_compute; reflexivity].
  rewrite E. apply Forall_map, Forall_forall. intros m _.
  apply Forall_map, Forall_forall. intros val _.
  split; apply filterString_sound; reflexivity.
Qed.

End RowExtractor.

(** * Table detection and the change handler *)

Section Detection.

(** C3, as stated, fails: in SELECT * FROM a; INSERT INTO b VALUES (1) the
    insert-into shape, first in the order, matches (and names b), yet the
    detector returns a, the name after the FROM that stands earlier in the
    text. *)
Lemma detectTable_not_priority_first :
  detectByPriority tableKeywords selectThenInsert = Some "b"
  /\ detectTable selectThenInsert = Some "a"
  /\ detectTable selectThenInsert
      <> detectByPriority tableKeywords selectThenInsert.
Proof.
  split; [vm_compute; reflexivity|].
  split; [vm_compute; reflexivity|].
  vm_compute. discriminate.
Qed.

(** C3, amended. The detector selects by position first and by order of
    the alternation second: when the pattern matches, no statement shape
    (insert-into, from, update, table) matches at any earlier position of
    the text, and at the position of the match the shape that gives the
    result is the first, in the order of the alternation, that matches
    there; the name returned is its group of word characters, in lower
    case. *)
Theorem detectTable_position_first (text : string) (tableMatch : result) :
  RegExp.exec tableRe text = Some tableMatch ->
  detectTable text = Some (Js.toLowerCase (groupText 1 tableMatch))
  /\ (forall j keyword,
        j < index tableMatch -> In keyword tableKeywords ->
        matchHere (keywordRe keyword) (Js.drop j text) = None)
  /\ exists earlier keyword later,
       tableKeywords = earlier ++ keyword :: later
       /\ (forall keyword', In keyword' earlier ->
             matchHere (keywordRe keyword')
               (Js.drop (index tableMatch) text) = None)
       /\ matchHere (keywordRe keyword) (Js.drop (index tableMatch) text)
           = Some (after tableMatch, groups tableMatch).
Proof.
  intros H. split; [unfold detectTable; now rewrite H|].
  apply tableMatch_leftmost; [discriminate | exact H].
Qed.

Lemma detectTable_position_first_witness :
  exists tableMatch,
    RegExp.exec tableRe selectThenInsert = Some tableMatch
    /\ index tableMatch = 9
    /\ detectTable selectThenInsert
        = Some (Js.toLowerCase (groupText 1 tableMatch))
    /\ forall j keyword,
         j < index tableMatch -> In keyword tableKeywords ->
         matchHere (keywordRe keyword) (Js.drop j selectThenInsert) = None.
Proof.
  exists (mkResult 9 "FROM a" [(1, "a")] "; INSERT INTO b VALUES (1)").
  split; [vm_compute; reflexivity|].
  split; [reflexivity|].
  assert (H := detectTable_position_first selectThenInsert
    (mkResult 9 "FROM a" [(1, "a")] "; INSERT INTO b VALUES (1)") eq_refl).
  split; [exact (proj1 H) | exact (proj1 (proj2 H))].
Defined.

(** The same holds of the five shapes of the local-first version. *)
Lemma localFirst_detection_leftmost text tableMatch :
  RegExp.exec (tableReWith tableKeywordsLocalFirst) text = Some tableMatch ->
  forall j keyword,
    j < index tableMatch -> In keyword tableKeywordsLocalFirst ->
    matchHere (keywordRe keyword) (Js.drop j text) = None.
Proof.
  intros H. now apply (tableMatch_leftmost tableKeywordsLocalFirst).
Qed.

Variable post : string -> option Response.

(** C7. A change of the draft in which neither the table detection nor
    [parseSchema] finds anything leaves [activeSchema] as it was. *)
Theorem handleEditorChange_keeps_schema (value : option string)
    (st : AppState) :
  detectTable (orEmpty value) = None ->
  parseSchema (orEmpty value) = None ->
  activeSchema (handleEditorChange post value st) = activeSchema st.
Proof.
  intros Hd Hp. unfold handleEditorChange. now rewrite Hd, Hp.
Qed.

End Detection.

Lemma handleEditorChange_keeps_schema_witness :
  detectTable (orEmpty (Some "SELECT 1 + 1")) = None
  /\ parseSchema (orEmpty (Some "SELECT 1 + 1")) = None
  /\ activeSchema
       (handleEditorChange (fun _ => None) (Some "SELECT 1 + 1") stateWithSchema)
     = Some studentSchema.
Proof.
  split; [vm_compute; reflexivity|].
  split; [vm_compute; reflexivity|].
  apply (handleEditorChange_keeps_schema (fun _ => None) (Some "SELECT 1 + 1")
           stateWithSchema); vm_compute; reflexivity.
Defined.

(** * The roadmap generator *)

Section Roadmap.

(** C4. Whenever the lowercased question matches the create trigger
    (create, new table, make table), the roadmap is exactly the three
    create-table steps, whatever the category chain computed, and this is
    what [analyzeQuestion] stores; the question create a new table to
    count students also matches the aggregate trigger, for which the chain
    computes the aggregate steps, and its roadmap is the create-table
    steps, which differ from the aggregate ones. *)
Theorem roadmap_create_overrides :
  (forall question,
     RegExp.test createTrigger (Js.toLowerCase question) = true ->
     roadmapFor question = createSteps
     /\ forall st, studentQuestion st = question ->
                   roadmap (analyzeQuestion st) = createSteps)
  /\ RegExp.test aggregateTrigger (Js.toLowerCase createAndCount) = true
  /\ categorySteps (Js.toLowerCase createAndCount) = aggregateSteps
  /\ roadmapFor createAndCount = createSteps
  /\ map Step.text createSteps
      = ["Use CREATE TABLE [TableName]";
         "Pro-tip: Use 'IF NOT EXISTS' to avoid errors";
         "Define columns inside ( )"]
  /\ createSteps <> aggregateSteps.
Proof.
  split.
  - intros question H.
    assert (E : roadmapFor question = createSteps)
      by (unfold roadmapFor; now rewrite H).
    split; [exact E|]. intros st <-. exact E.
  - repeat split; try (vm_compute; reflexivity). discriminate.
Qed.

Lemma roadmap_create_overrides_witness :
  RegExp.test createTrigger (Js.toLowerCase "Can you MAKE TABLE of sums?") = true
  /\ roadmapFor "Can you MAKE TABLE of sums?" = createSteps.
Proof.
  split; [vm_compute; reflexivity|].
  refine (proj1 (proj1 roadmap_create_overrides
                   "Can you MAKE TABLE of sums?" _)).
  vm_compute; reflexivity.
Defined.

(** C8. The roadmap of the question what is the average score has the
    aggregate step, whose pattern looks for one of MAX, MIN, AVG, COUNT
    and SUM in any letter case; the step is not done for the draft SELECT
    score FROM t and is done for the draft SELECT AVG(score) FROM t. *)
Theorem roadmap_average_step :
  roadmapFor averageQuestion = aggregateSteps
  /\ exists step,
    In step (roadmapFor averageQuestion)
    /\ Step.text step = "Use Aggregate Function: SELECT MAX(), MIN(), etc."
    /\ Step.regex step
        = caseInsensitive (Grp 1 (words ["MAX"; "MIN"; "AVG"; "COUNT"; "SUM"]))
    /\ stepDone step "SELECT score FROM t" = false
    /\ stepDone step "SELECT AVG(score) FROM t" = true
    /\ stepDone step "select avg(score) from t" = true.
Proof.
  split; [vm_compute; reflexivity|].
  exists (Step.mk 1 "Use Aggregate Function: SELECT MAX(), MIN(), etc."
            (caseInsensitive
               (Grp 1 (words ["MAX"; "MIN"; "AVG"; "COUNT"; "SUM"])))).
  split; [vm_compute; left; reflexivity|].
  repeat split; vm_compute; reflexivity.
Qed.

End Roadmap.

(** * Further properties of the code *)

(** ** What a match of a literal, a run or a group looks like *)

Section Inversion.

Variable ic : bool.

Lemma mtch_Lit_inv w : forall s c k x,
  mtch ic (Lit w) s c k = Some x ->
  exists v rest,
    s = (v ++ rest)%string /\
    Js.mapString (canon ic) v = Js.mapString (canon ic) w /\
    k rest c = Some x.
Proof.
  induction w as [|a w IH]; intros s c k x H.
  - exists EmptyString, s. now repeat split.
  - destruct s as [|b t]; [now destruct w|].
    assert (Hhead : charEq ic b a = true /\
              mtch ic (Lit w) t c k = Some x).
    { destruct w as [|a' w].
      - cbn in H. destruct (charEq ic b a); [now split | discriminate].
      - change (Lit (String a (String a' w)))
          with (Seq (Chr a) (Lit (String a' w))) in H.
        rewrite mtch_Seq, mtch_Chr in H.
        destruct (charEq ic b a); [now split | discriminate]. }
    destruct Hhead as [Hb Ht]. apply IH in Ht.
    destruct Ht as (v & rest & -> & Hv & Hk).
    exists (String b v), rest. repeat split; [|exact Hk].
    cbn [Js.mapString]. unfold charEq in Hb. apply Ascii.eqb_eq in Hb.
    now rewrite Hb, Hv.
Qed.

(** A greedy run of a class ends where the continuation succeeds, and
    leaves the captures alone. *)
Lemma longestRun_inv p k : forall s c x,
  longestRun p k s c = Some x ->
  exists run rest,
    s = (run ++ rest)%string /\
    Js.allChars (fun a => p a = true) run /\
    k rest c = Some x.
Proof.
  induction s as [|a t IH]; intros c x H; cbn [longestRun] in H.
  - exists EmptyString, EmptyString. now repeat split.
  - destruct (p a) eqn:Ea.
    + destruct (longestRun p k t c) eqn:E.
      * injection H as <-. destruct (IH _ _ E) as (run & rest & -> & Hr & Hk).
        exists (String a run), rest. cbn. auto.
      * exists EmptyString, (String a t). now repeat split.
    + exists EmptyString, (String a t). now repeat split.
Qed.

(** When the continuation cannot fail, the greedy run is the whole run. *)
Lemma longestRun_total p (k : cont) :
  (forall s c, k s c <> None) ->
  forall s c, longestRun p k s c = k (Js.dropWhile p s) c.
Proof.
  intros Hk. induction s as [|a t IH]; intros c; cbn [longestRun Js.dropWhile];
    [reflexivity|].
  destruct (p a); [|reflexivity]. rewrite IH.
  destruct (k (Js.dropWhile p t) c) eqn:E; [reflexivity|].
  now apply Hk in E.
Qed.

(** A lazy run ends at the first place where the continuation succeeds. *)
Lemma shortestRun_inv p k : forall s c x,
  shortestRun p k s c = Some x ->
  exists run rest,
    s = (run ++ rest)%string /\
    Js.allChars (fun a => p a = true) run /\
    k rest c = Some x /\
    forall u1 a u2,
      run = (u1 ++ String a u2)%string ->
      k (String a u2 ++ rest)%string c = None.
Proof.
  induction s as [|a t IH]; intros c x H; cbn [shortestRun] in H.
  - destruct (k EmptyString c) eqn:E; [|discriminate]. injection H as <-.
    exists EmptyString, EmptyString. repeat split; auto.
    intros [|? ?] ? ? ?; discriminate.
  - destruct (k (String a t) c) eqn:E.
    + injection H as <-. exists EmptyString, (String a t).
      repeat split; auto. intros [|? ?] ? ? ?; discriminate.
    + destruct (p a) eqn:Ea; [|discriminate].
      destruct (IH _ _ H) as (run & rest & -> & Hr & Hk & Hfirst).
      exists (String a run), rest. repeat split; auto.
      intros [|b u1] a' u2 Hu; cbn in Hu; injection Hu as -> ->.
      * exact E.
      * now apply (Hfirst u1).
Qed.

Lemma mtch_Star_class_inv cs s c k x :
  mtch ic (Star true (Cls cs)) s c k = Some x ->
  exists run rest,
    s = (run ++ rest)%string /\
    Js.allChars (fun a => classMatch ic cs a = true) run /\
    k rest c = Some x.
Proof.
  rewrite mtch_Star, repeat_class by lia. apply longestRun_inv.
Qed.

Lemma mtch_Plus_class_inv cs s c k x :
  mtch ic (Plus (Cls cs)) s c k = Some x ->
  exists b run rest,
    s = String b (run ++ rest) /\
    classMatch ic cs b = true /\
    Js.allChars (fun a => classMatch ic cs a = true) run /\
    k rest c = Some x.
Proof.
  unfold Plus. rewrite mtch_Seq. destruct s as [|b t]; [discriminate|].
  cbn [mtch]. destruct (classMatch ic cs b) eqn:Eb; [|discriminate].
  intros H. apply mtch_Star_class_inv in H.
  destruct H as (run & rest & -> & Hrun & Hk). now exists b, run, rest.
Qed.

End Inversion.

(** ** The parts of a create-table match *)

Section CreateParts.

Lemma columnList_parts s c rest caps :
  mtch true (Seqs [Chr "("; Grp 2 (Star true anyChar); Chr ")"]) s c
    (fun s' c' => Some (s', c')) = Some (rest, caps) ->
  exists content,
    s = ("(" ++ content ++ ")" ++ rest)%string /\
    caps = (2, content) :: c /\
    ~ Js.occurs ")" rest.
Proof.
  intros H. cbn [Seqs] in H. rewrite mtch_Seq in H.
  destruct s as [|b s2]; [discriminate|]. rewrite mtch_Chr in H.
  destruct (charEq true b "(") eqn:Eb; [|discriminate].
  apply charEq_open in Eb. subst b.
  rewrite mtch_Seq, mtch_Grp, mtch_Star in H.
  unfold anyChar in H. rewrite repeat_class in H by lia.
  apply longestRun_any in H. destruct H as (u & v & -> & Hk & Hlast).
  destruct v as [|b v]; [discriminate|]. rewrite mtch_Chr in Hk.
  destruct (charEq true b ")") eqn:Eb; [|discriminate].
  apply charEq_close in Eb. subst b. injection Hk as -> <-.
  exists u. rewrite consumed_append. repeat split.
  intros Hocc. apply occurs_split in Hocc. destruct Hocc as (w & w' & ->).
  specialize (Hlast ")"%char w (String ")" w') eq_refl).
  rewrite mtch_Chr in Hlast. discriminate.
Qed.

(** Every match of the create-table pattern reads: CREATE, blanks, TABLE,
    blanks, a name of word characters, optional blanks, and the
    parenthesised content up to the last closing parenthesis. *)
Lemma createMatch_parts t rest caps :
  matchHere createRe t = Some (rest, caps) ->
  exists create blanks1 table blanks2 name blanks3 content,
    t = (create ++ blanks1 ++ table ++ blanks2 ++ name ++ blanks3
           ++ "(" ++ content ++ ")" ++ rest)%string /\
    Js.toUpperCase create = "CREATE" /\
    Js.toUpperCase table = "TABLE" /\
    blanks1 <> EmptyString /\ allSpace blanks1 /\
    blanks2 <> EmptyString /\ allSpace blanks2 /\
    name <> EmptyString /\ allWord name /\
    allSpace blanks3 /\
    ~ Js.occurs ")" rest /\
    caps = [(2, content); (1, name)].
Proof.
  unfold matchHere, createRe, createPattern, createHead, space, word.
  cbn [pattern ignoreCase]. intros H.
  cbn [Seqs] in H. rewrite 2!mtch_Seq in H.
  apply mtch_Lit_inv in H. destruct H as (create & s1 & -> & Hcreate & H).
  rewrite mtch_Seq in H. apply mtch_Plus_class_inv in H.
  destruct H as (b1 & r1 & s2 & -> & Hb1 & Hr1 & H).
  rewrite mtch_Seq in H.
  apply mtch_Lit_inv in H. destruct H as (table & s3 & -> & Htable & H).
  rewrite mtch_Seq in H. apply mtch_Plus_class_inv in H.
  destruct H as (b2 & r2 & s4 & -> & Hb2 & Hr2 & H).
  rewrite mtch_Seq, mtch_Grp in H. apply mtch_Plus_class_inv in H.
  destruct H as (b3 & r3 & s5 & -> & Hb3 & Hr3 & H).
  apply mtch_Star_class_inv in H. destruct H as (blanks3 & s6 & -> & Hr4 & H).
  change (String b3 (r3 ++ blanks3 ++ s6))
    with (String b3 r3 ++ (blanks3 ++ s6))%string in H.
  rewrite consumed_append in H.
  apply columnList_parts in H. destruct H as (content & -> & -> & Hrest).
  exists create, (String b1 r1), table, (String b2 r2), (String b3 r3),
    blanks3, content.
  cbn [append].
  repeat split; try discriminate; auto.
Qed.

End CreateParts.

(** ** The schema builder, further *)

Section SchemaBuilderMore.

Lemma execFrom_complete re : forall before t i,
  matchHere re t <> None -> execFrom re i (before ++ t)%string <> None.
Proof.
  induction before as [|b before IH]; intros t i Ht.
  - cbn [append]. destruct t; cbn [execFrom];
      destruct (matchHere re _) as [[? ?]|]; congruence.
  - cbn [append execFrom].
    destruct (matchHere re (String b (before ++ t))) as [[? ?]|];
      [congruence | now apply IH].
Qed.

Lemma longestRun_complete p (k : cont) c : forall run s,
  Js.allChars (fun a => p a = true) run ->
  k s c <> None ->
  longestRun p k (run ++ s)%string c <> None.
Proof.
  induction run as [|a run IH]; intros s Hrun Hk.
  - cbn [append]. destruct s as [|b t]; cbn [longestRun]; [exact Hk|].
    destruct (p b); [|exact Hk]. now destruct (longestRun p k t c).
  - destruct Hrun as [Ha Hrun]. cbn [append longestRun]. rewrite Ha.
    specialize (IH s Hrun Hk). now destruct (longestRun p k (run ++ s) c).
Qed.

Lemma mtch_Star_class_complete ic cs run s c (k : cont) :
  Js.allChars (fun a => classMatch ic cs a = true) run ->
  k s c <> None ->
  mtch ic (Star true (Cls cs)) (run ++ s)%string c k <> None.
Proof.
  intros Hrun Hk. rewrite mtch_Star, repeat_class by lia.
  now apply longestRun_complete.
Qed.

Lemma mtch_Plus_class_complete ic cs b run s c (k : cont) :
  classMatch ic cs b = true ->
  Js.allChars (fun a => classMatch ic cs a = true) run ->
  k s c <> None ->
  mtch ic (Plus (Cls cs)) (String b (run ++ s)) c k <> None.
Proof.
  intros Hb Hrun Hk. unfold Plus. rewrite mtch_Seq. cbn [mtch]. rewrite Hb.
  now apply mtch_Star_class_complete.
Qed.

(** The create-table pattern matches every text of the shape. *)
Lemma createMatch_complete create blanks1 table blanks2 name blanks3 tail :
  Js.toUpperCase create = "CREATE" ->
  Js.toUpperCase table = "TABLE" ->
  blanks1 <> EmptyString -> allSpace blanks1 ->
  blanks2 <> EmptyString -> allSpace blanks2 ->
  name <> EmptyString -> allWord name ->
  allSpace blanks3 ->
  Js.occurs ")" tail ->
  matchHere createRe
    (create ++ blanks1 ++ table ++ blanks2 ++ name ++ blanks3 ++ "(" ++ tail)
    <> None.
Proof.
  intros Hcreate Htable Hn1 Hb1 Hn2 Hb2 Hn3 Hname Hb3 Htail.
  destruct blanks1 as [|b1 r1]; [congruence|]. destruct Hb1 as [Hb1 Hr1].
  destruct blanks2 as [|b2 r2]; [congruence|]. destruct Hb2 as [Hb2 Hr2].
  destruct name as [|b3 r3]; [congruence|]. destruct Hname as [Hb3' Hr3].
  unfold matchHere, createRe, createPattern, createHead, space, word.
  cbn [pattern ignoreCase Seqs append].
  rewrite 2!mtch_Seq, mtch_Lit by exact Hcreate.
  rewrite mtch_Seq. apply mtch_Plus_class_complete; [exact Hb1|exact Hr1|].
  rewrite mtch_Seq, mtch_Lit by exact Htable.
  rewrite mtch_Seq. apply mtch_Plus_class_complete; [exact Hb2|exact Hr2|].
  rewrite mtch_Seq, mtch_Grp.
  apply mtch_Plus_class_complete; [exact Hb3'|exact Hr3|].
  apply mtch_Star_class_complete; [exact Hb3|].
  rewrite mtch_Seq, mtch_Chr. change (charEq true "(" "(") with true.
  cbv match. rewrite mtch_Seq, mtch_Grp. unfold anyChar.
  apply occurs_split in Htail. destruct Htail as (u & v & ->).
  apply mtch_Star_class_complete.
  - clear. induction u; cbn; auto.
  - rewrite mtch_Chr. change (charEq true ")" ")") with true. discriminate.
Qed.

(** The create-table pattern is found exactly in the texts that contain a
    table definition shape. *)
Lemma createRe_found (text : string) :
  RegExp.exec createRe text <> None <->
  exists before t, text = (before ++ t)%string /\ createShape t.
Proof.
  split.
  - destruct (RegExp.exec createRe text) as [m|] eqn:E; [intros _|congruence].
    apply exec_leftmost in E. destruct E as (Htext & Hdrop & Hm & _).
    rewrite Hdrop in Hm. apply createMatch_parts in Hm.
    destruct Hm as (create & blanks1 & table & blanks2 & name & blanks3
                    & content & Ht & Hc & Htb & Hn1 & Hb1 & Hn2 & Hb2 & Hn3
                    & Hw & Hb3 & _ & _).
    exists (Js.take (index m) text), (matched m ++ after m)%string.
    split; [exact Htext|].
    exists create, blanks1, table, blanks2, name, blanks3,
      (content ++ ")" ++ after m)%string.
    repeat split; auto. apply occurs_append. right. now left.
  - intros (before & t & -> & create & blanks1 & table & blanks2 & name
            & blanks3 & tail & -> & Hc & Htb & Hn1 & Hb1 & Hn2 & Hb2 & Hn3
            & Hw & Hb3 & Htail).
    apply execFrom_complete. now apply createMatch_complete.
Qed.

Lemma parseSchema_answers (text : string) :
  parseSchema text <> None <-> RegExp.exec createRe text <> None.
Proof.
  unfold parseSchema. destruct (RegExp.exec createRe text); split; congruence.
Qed.

(** [parseSchema] answers exactly for the drafts that contain a table
    definition shape. *)
Theorem parseSchema_recognises (text : string) :
  parseSchema text <> None <->
  exists before t, text = (before ++ t)%string /\ createShape t.
Proof.
  rewrite parseSchema_answers. apply createRe_found.
Qed.

Lemma longestRun_stop p (k : cont) s c :
  startsOutside p s -> longestRun p k s c = k s c.
Proof. destruct s as [|a t]; cbn; [reflexivity | now intros ->]. Qed.

Lemma longestRun_exact p (k : cont) c run s x :
  Js.allChars (fun a => p a = true) run ->
  startsOutside p s ->
  k s c = Some x ->
  longestRun p k (run ++ s)%string c = Some x.
Proof.
  intros Hrun Hs Hk. apply longestRun_run; [exact Hrun|].
  now rewrite longestRun_stop.
Qed.

Lemma mtch_Star_class_exact ic cs run s c (k : cont) x :
  Js.allChars (fun a => classMatch ic cs a = true) run ->
  startsOutside (classMatch ic cs) s ->
  k s c = Some x ->
  mtch ic (Star true (Cls cs)) (run ++ s)%string c k = Some x.
Proof.
  intros Hrun Hs Hk. rewrite mtch_Star, repeat_class by lia.
  now apply longestRun_exact.
Qed.

Lemma mtch_Plus_class_exact ic cs b run s c (k : cont) x :
  classMatch ic cs b = true ->
  Js.allChars (fun a => classMatch ic cs a = true) run ->
  startsOutside (classMatch ic cs) s ->
  k s c = Some x ->
  mtch ic (Plus (Cls cs)) (String b (run ++ s)) c k = Some x.
Proof.
  intros Hb Hrun Hs Hk. unfold Plus. rewrite mtch_Seq. cbn [mtch]. rewrite Hb.
  now apply mtch_Star_class_exact.
Qed.

(** The parenthesised list, when nothing after it closes a parenthesis. *)
Lemma columnList_exact content rest c :
  ~ Js.occurs ")" rest ->
  mtch true (Seqs [Chr "("; Grp 2 (Star true anyChar); Chr ")"])
    ("(" ++ content ++ ")" ++ rest)%string c (fun s' c' => Some (s', c'))
  = Some (rest, (2, content) :: c).
Proof.
  intros Hrest. cbn [Seqs append]. rewrite mtch_Seq, mtch_Chr.
  change (charEq true "(" "(") with true. cbv match.
  rewrite mtch_Seq, mtch_Grp, mtch_Star. unfold anyChar.
  rewrite repeat_class by lia.
  apply longestRun_run; [clear; induction content; cbn; auto|].
  cbn [append longestRun classMatch].
  assert (Hnone : forall k' : cont,
            (forall a t c', a <> ")"%char -> k' (String a t) c' = None) ->
            (forall c', k' EmptyString c' = None) ->
            longestRun (fun _ => true) k' rest c = None).
  { intros k' Hk1 Hk2. clear -Hrest Hk1 Hk2.
    induction rest as [|a t IH]; cbn [longestRun]; [apply Hk2|].
    cbn in Hrest. rewrite IH by tauto. apply Hk1. tauto. }
  rewrite Hnone.
  - rewrite mtch_Chr. change (charEq true ")" ")") with true. cbv match.
    change (String ")" rest) with (")" ++ rest)%string.
    now rewrite consumed_append.
  - intros a t c' Ha. rewrite mtch_Chr.
    destruct (charEq true a ")") eqn:E; [|reflexivity].
    apply charEq_close in E. contradiction.
  - reflexivity.
Qed.

Ltac by_cases_on_char' a :=
  destruct a as [[] [] [] [] [] [] [] []]; vm_compute;
  intros; try discriminate; try reflexivity.

Lemma upper_T_not_space a : Js.upperChar a = "T"%char -> Js.isSpace a = false.
Proof. by_cases_on_char' a. Qed.

Lemma word_not_space a : Js.isWord a = true -> Js.isSpace a = false.
Proof. by_cases_on_char' a. Qed.

Lemma space_not_word a : Js.isSpace a = true -> Js.isWord a = false.
Proof. by_cases_on_char' a. Qed.

Lemma createRe_first_letter b t :
  Js.upperChar b <> "C"%char -> matchHere createRe (String b t) = None.
Proof.
  intros Hb. unfold matchHere, createRe, createPattern, createHead.
  cbn [pattern ignoreCase Seqs].
  change (Lit "CREATE") with (Seq (Chr "C") (Lit "REATE")).
  rewrite 3!mtch_Seq, mtch_Chr. unfold charEq, canon.
  change (Js.upperChar "C") with "C"%char.
  destruct (Ascii.eqb_spec (Js.upperChar b) "C"); [contradiction|reflexivity].
Qed.

Lemma consumed_cons b (u v : string) :
  consumed (String b (u ++ v)) v = String b u.
Proof. exact (consumed_append (String b u) v). Qed.

(** The exact match of a table definition at the start of a text. *)
Lemma createMatch_exact create blanks1 table blanks2 name blanks3 content rest :
  Js.toUpperCase create = "CREATE" ->
  Js.toUpperCase table = "TABLE" ->
  blanks1 <> EmptyString -> allSpace blanks1 ->
  blanks2 <> EmptyString -> allSpace blanks2 ->
  name <> EmptyString -> allWord name ->
  allSpace blanks3 ->
  ~ Js.occurs ")" rest ->
  matchHere createRe
    (create ++ blanks1 ++ table ++ blanks2 ++ name ++ blanks3
       ++ "(" ++ content ++ ")" ++ rest)
  = Some (rest, [(2, content); (1, name)]).
Proof.
  intros Hcreate Htable Hn1 Hb1 Hn2 Hb2 Hn3 Hname Hb3 Hrest.
  destruct blanks1 as [|b1 r1]; [congruence|]. destruct Hb1 as [Hb1 Hr1].
  destruct blanks2 as [|b2 r2]; [congruence|]. destruct Hb2 as [Hb2 Hr2].
  destruct name as [|b3 r3]; [congruence|]. destruct Hname as [Hb3' Hr3].
  assert (Ht1 : forall tail,
            startsOutside (classMatch true CSpace) (table ++ tail)%string).
  { intros tail. destruct table as [|t1 table]; [discriminate|].
    apply upper_T_not_space. now injection Htable. }
  unfold matchHere, createRe, createPattern, createHead, space, word.
  cbn [pattern ignoreCase Seqs append].
  rewrite 2!mtch_Seq, mtch_Lit by exact Hcreate.
  rewrite mtch_Seq.
  apply mtch_Plus_class_exact; [exact Hb1 | exact Hr1 | apply Ht1 |].
  rewrite mtch_Seq, mtch_Lit by exact Htable.
  rewrite mtch_Seq.
  apply mtch_Plus_class_exact;
    [exact Hb2 | exact Hr2 | now apply word_not_space |].
  rewrite mtch_Seq, mtch_Grp.
  apply mtch_Plus_class_exact; [exact Hb3' | exact Hr3 | |].
  { destruct blanks3 as [|b4 r4]; [reflexivity|].
    apply space_not_word, Hb3. }
  apply mtch_Star_class_exact; [exact Hb3 | reflexivity |].
  rewrite consumed_cons. now apply columnList_exact.
Qed.

(** A table definition written out is read back: the name and the columns
    of the content between its parentheses, when no letter c stands
    before it and no closing parenthesis after it. *)
Theorem parseSchema_reads_definition
    (before create blanks1 table blanks2 name blanks3 content rest : string) :
  Js.allChars (fun a => Js.upperChar a <> "C"%char) before ->
  Js.toUpperCase create = "CREATE" ->
  Js.toUpperCase table = "TABLE" ->
  blanks1 <> EmptyString -> allSpace blanks1 ->
  blanks2 <> EmptyString -> allSpace blanks2 ->
  name <> EmptyString -> allWord name ->
  allSpace blanks3 ->
  ~ Js.occurs ")" rest ->
  parseSchema
    (before ++ create ++ blanks1 ++ table ++ blanks2 ++ name ++ blanks3
       ++ "(" ++ content ++ ")" ++ rest)
  = Some (Schema.mk name
            (filter keepColumn (map parseColumn (columnsRaw content)))).
Proof.
  intros Hbefore Hcreate Htable Hn1 Hb1 Hn2 Hb2 Hn3 Hname Hb3 Hrest.
  unfold parseSchema, RegExp.exec.
  rewrite (execFrom_skip _ _ createRe_first_letter) by exact Hbefore.
  rewrite (execFrom_here _ _ _ _ _
             (createMatch_exact _ _ _ _ _ _ content _ Hcreate Htable Hn1 Hb1
                Hn2 Hb2 Hn3 Hname Hb3 Hrest)).
  reflexivity.
Qed.

Lemma parseSchema_reads_definition_witness :
  parseSchema "  create  Table pets (id INT, name VARCHAR(20));"
  = Some (Schema.mk "pets"
            (filter keepColumn
               (map parseColumn (columnsRaw "id INT, name VARCHAR(20)")))).
Proof.
  apply (parseSchema_reads_definition "  " "create" "  " "Table" " " "pets" " "
           "id INT, name VARCHAR(20)" ";");
    cbn; intuition discriminate.
Defined.

(** ** The fragments of the column list *)

(** The lookahead of the separator succeeds exactly when the first
    parenthesis that follows is a closing one. *)
Lemma lookahead_closesFirst (t : string) (c : captures) :
  longestRun (classMatch false (CNoneOf ["("%char]))
    (fun s' c' => mtch false (Chr ")") s' c' (fun s2 c2 => Some (s2, c2))) t c
    <> None
  <-> closesFirst t = true.
Proof.
  induction t as [|b t IH]; cbn [longestRun closesFirst].
  - split; [intros H; now contradiction H | discriminate].
  - cbn [classMatch existsb]. unfold charEq at 1. cbn [canon].
    rewrite orb_false_r, mtch_Chr. unfold charEq, canon.
    destruct (Ascii.eqb_spec b ")") as [->|Hclose].
    + change (Ascii.eqb ")" "(") with false. cbn [negb].
      split; [reflexivity|]. intros _. now destruct (longestRun _ _ t c).
    + destruct (Ascii.eqb_spec b "(") as [->|Hopen]; cbn [negb].
      * split; [intros H; now contradiction H | discriminate].
      * rewrite <- IH. destruct (longestRun _ _ t c); split; congruence.
Qed.

Lemma mtch_Cls ic cs b t c k :
  mtch ic (Cls cs) (String b t) c k
  = if classMatch ic cs b then k t c else None.
Proof. reflexivity. Qed.

Lemma mtch_NegAhead ic r s c k :
  mtch ic (NegAhead r) s c k
  = match mtch ic r s c (fun s' c' => Some (s', c')) with
    | Some _ => None
    | None => k s c
    end.
Proof. reflexivity. Qed.

Lemma columnSep_matchHere a t :
  matchHere columnSepRe (String a t)
  = if Ascii.eqb a "," && negb (closesFirst t) then Some (t, []) else None.
Proof.
  unfold matchHere, columnSepRe. cbn [pattern ignoreCase].
  rewrite mtch_Seq, mtch_Chr. unfold charEq at 1. cbn [canon].
  destruct (Ascii.eqb a ","); [|reflexivity]. cbn [andb].
  rewrite mtch_NegAhead, mtch_Seq, mtch_Star, repeat_class by lia.
  pose proof (lookahead_closesFirst t []) as H.
  destruct (longestRun _ _ t []) as [x|].
  - destruct (closesFirst t); [reflexivity|].
    assert (false = true) by (apply H; discriminate). discriminate.
  - destruct (closesFirst t); [|reflexivity].
    exfalso. now apply H.
Qed.

Lemma scanSplit_nonempty s : scanSplit s <> [].
Proof.
  destruct s as [|a t]; cbn; [discriminate|].
  destruct (_ && _); [discriminate|]. now destruct (scanSplit t).
Qed.

Lemma splitLoop_scan : forall n piece s,
  2 * String.length s + (if Js.truthy piece then 1 else 0) < n ->
  splitLoop columnSepRe n piece s = consHead (Js.reverse piece) (scanSplit s).
Proof.
  induction n as [|n IH]; intros piece s Hn; [lia|].
  destruct s as [|a t].
  - cbn. now rewrite append_empty_r.
  - cbn [splitLoop scanSplit]. rewrite columnSep_matchHere.
    destruct (Ascii.eqb a "," && negb (closesFirst t)).
    + assert (L : (String.length t =? String.length (String a t)) = false)
        by (apply Nat.eqb_neq; simpl; lia).
      rewrite L. cbn [andb consHead]. rewrite append_empty_r. f_equal.
      rewrite IH by (cbn [Js.truthy String.length] in *; lia).
      pose proof (scanSplit_nonempty t) as Hne.
      now destruct (scanSplit t).
    + rewrite IH by (cbn [Js.truthy String.length] in *; lia).
      pose proof (scanSplit_nonempty t) as Hne.
      destruct (scanSplit t) as [|x l]; [congruence|]. cbn [consHead].
      f_equal. unfold Js.reverse. cbn [Js.rev_onto].
      rewrite (rev_onto_append piece (String a EmptyString)).
      rewrite append_assoc. reflexivity.
Qed.

(** [columnsRaw] splits exactly at the commas after which the first
    parenthesis, if there is one, is an opening one. *)
Theorem columnsRaw_scanSplit (columnsContent : string) :
  columnsRaw columnsContent = scanSplit columnsContent.
Proof.
  unfold columnsRaw, RegExp.split. destruct columnsContent as [|a t].
  - reflexivity.
  - rewrite splitLoop_scan by (cbn [Js.truthy]; lia).
    unfold Js.reverse. cbn [Js.rev_onto consHead].
    pose proof (scanSplit_nonempty (String a t)) as Hne.
    now destruct (scanSplit (String a t)).
Qed.

(** ** The column list and the text after it *)

Lemma columnSep_split_scan (s : string) :
  RegExp.split columnSepRe s = scanSplit s.
Proof.
  unfold RegExp.split. destruct s as [|a t].
  - reflexivity.
  - rewrite splitLoop_scan by (cbn [Js.truthy]; lia).
    unfold Js.reverse. cbn [Js.rev_onto consHead].
    pose proof (scanSplit_nonempty (String a t)) as Hne.
    now destruct (scanSplit (String a t)).
Qed.

(** The pieces of a text stay pieces when a text is put in front of it:
    only the first one is joined to what stands before. *)
Lemma scanSplit_append : forall u v first others,
  scanSplit v = first :: others ->
  exists front tail,
    scanSplit (u ++ v) = front ++ (tail ++ first)%string :: others.
Proof.
  induction u as [|a u IH]; intros v first others Hv.
  - exists [], EmptyString. exact Hv.
  - destruct (IH v first others Hv) as (front & tail & E).
    cbn [append scanSplit]. rewrite E.
    destruct (Ascii.eqb a "," && negb (closesFirst (u ++ v))).
    + exists (EmptyString :: front), tail. reflexivity.
    + destruct front as [|piece front]; cbn [app].
      * exists [], (String a tail). reflexivity.
      * exists (String a piece :: front), tail. reflexivity.
Qed.

Lemma last_after {A : Type} (l : list A) (x : A) (l' : list A) (d : A) :
  last (l ++ x :: l') d = last (x :: l') d.
Proof.
  induction l as [|y l IH]; [reflexivity|].
  cbn [app]. destruct l; exact IH.
Qed.

Lemma last_length_concat : forall (l : list string) (x d : string),
  String.length (last (x :: l) d)
  <= String.length (String.concat "," (x :: l)).
Proof.
  induction l as [|y l IH]; intros x d; [cbn; lia|].
  change (last (x :: y :: l) d) with (last (y :: l) d).
  change (String.concat "," (x :: y :: l))
    with (x ++ "," ++ String.concat "," (y :: l))%string.
  rewrite !length_append. specialize (IH y d). lia.
Qed.

(** C9, as stated, fails: in the draft with two columns and a two-value
    insert after them the content runs to the last closing parenthesis,
    but the text absorbed after the column list is not in the final
    fragment: the fragments are the whole text up to the insert's first
    value, and the second value alone. *)
Lemma parseSchema_later_text_spread :
  option_map (groupText 2) (RegExp.exec createRe createTwoThenInsert)
    = Some "a INT, b TEXT); INSERT INTO t VALUES (1, 2"
  /\ columnsRaw "a INT, b TEXT); INSERT INTO t VALUES (1, 2"
     = ["a INT, b TEXT); INSERT INTO t VALUES (1"; " 2"]
  /\ finalFragment "a INT, b TEXT); INSERT INTO t VALUES (1, 2" = " 2"
  /\ absorbedInFinalFragment "a INT, b TEXT); INSERT INTO t VALUES (1, 2"
       "); INSERT INTO t VALUES (1, 2" = false
  /\ parseSchema createTwoThenInsert
     = Some (Schema.mk "t" [Column.mk "a" (Some "Number");
                            Column.mk "2" (Some "TEXT")]).
Proof. repeat split; vm_compute; reflexivity. Qed.

(** C9, amended. When the draft has a create-table shape, the column-list
    content that [parseSchema] splits is group 2 of the match, and it runs
    from the first opening parenthesis of the match (the one after the
    table name) to the last closing parenthesis of the whole draft: no
    closing parenthesis is left after the match.  Whatever follows the
    intended column list up to that last parenthesis is part of the
    content and none of it is dropped by the split: the fragments joined
    by commas are the content.  The later text is not always in the final
    fragment: however the content is divided into a column list and a
    later text, the later text is cut at its own separator commas, its
    first piece is joined to the end of a fragment of the column list and
    every further piece is a fragment of its own; the final fragment ends
    with the whole later text exactly when the later text has no
    separator comma. *)
Theorem parseSchema_content_to_last_paren (text : string)
    (createMatch : result) :
  RegExp.exec createRe text = Some createMatch ->
  parseSchema text
    = Some (Schema.mk (groupText 1 createMatch)
              (filter keepColumn
                 (map parseColumn (columnsRaw (groupText 2 createMatch)))))
  /\ (exists head,
        Js.drop (index createMatch) text
          = (head ++ "(" ++ groupText 2 createMatch ++ ")"
               ++ after createMatch)%string
        /\ ~ Js.occurs "(" head
        /\ ~ Js.occurs ")" (after createMatch)
        /\ String.concat "," (columnsRaw (groupText 2 createMatch))
           = groupText 2 createMatch)
  /\ forall columnList later,
       groupText 2 createMatch = (columnList ++ later)%string ->
       (exists front tail first others,
          columnsRaw later = first :: others
          /\ columnsRaw (groupText 2 createMatch)
             = front ++ (tail ++ first)%string :: others)
       /\ ((exists tail,
              finalFragment (groupText 2 createMatch)
              = (tail ++ later)%string)
           <-> columnsRaw later = [later]).
Proof.
  intros H. split; [unfold parseSchema; now rewrite H|]. split.
  - apply exec_leftmost in H. destruct H as (_ & Hdrop & Hm & _).
    rewrite Hdrop in *. apply createMatch_shape in Hm.
    destruct Hm as (head & content & Ht & Hhead & Hcap & Hrest).
    exists head. unfold groupText, group. rewrite Hcap.
    repeat split; auto. apply columnsRaw_join.
  - intros columnList later ->. clear H.
    pose proof (columnsRaw_join later) as Hjoin.
    unfold finalFragment, columnsRaw in *.
    rewrite !columnSep_split_scan in *.
    destruct (scanSplit later) as [|first others] eqn:Es;
      [now apply scanSplit_nonempty in Es|].
    destruct (scanSplit_append columnList later first others Es)
      as (front & tail & E).
    rewrite E, last_after. split.
    + now exists front, tail, first, others.
    + destruct others as [|piece others].
      * cbn in Hjoin. subst first. split; [reflexivity|].
        intros _. now exists tail.
      * split; [|discriminate]. intros (tail' & Hlast). exfalso.
        change (last ((tail ++ first)%string :: piece :: others) EmptyString)
          with (last (piece :: others) EmptyString) in Hlast.
        pose proof (last_length_concat others piece EmptyString) as Hlen.
        rewrite Hlast in Hlen.
        change (String.concat "," (first :: piece :: others))
          with (first ++ "," ++ String.concat "," (piece :: others))%string
          in Hjoin.
        rewrite <- Hjoin in Hlen at 1. rewrite !length_append in Hlen.
        cbn [String.length] in Hlen. lia.
Qed.

Lemma parseSchema_content_to_last_paren_witness :
  exists createMatch,
    RegExp.exec createRe createThenInsert = Some createMatch
    /\ groupText 2 createMatch = "a INT); INSERT INTO t VALUES (1"
    /\ after createMatch = ";"
    /\ columnsRaw (groupText 2 createMatch)
        = ["a INT); INSERT INTO t VALUES (1"]
    /\ parseSchema createThenInsert
        = Some (Schema.mk (groupText 1 createMatch)
                  (filter keepColumn
                     (map parseColumn (columnsRaw (groupText 2 createMatch))))).
Proof.
  exists (mkResult 0 "CREATE TABLE t (a INT); INSERT INTO t VALUES (1)"
            [(2, "a INT); INSERT INTO t VALUES (1"); (1, "t")] ";").
  split; [vm_compute; reflexivity|].
  split; [vm_compute; reflexivity|].
  split; [vm_compute; reflexivity|].
  split; [vm_compute; reflexivity|].
  refine (proj1 (parseSchema_content_to_last_paren createThenInsert _ _)).
  vm_compute; reflexivity.
Defined.

(** With a second top-level comma in the text that follows, the absorbed
    text is spread over the fragments: the comma before b is no separator
    any more (a closing parenthesis follows it before any opening one),
    and the insert's second value becomes a column. *)
Example parseSchema_absorbs_insert :
  columnsRaw "a INT, b TEXT); INSERT INTO t VALUES (1, 2"
    = ["a INT, b TEXT); INSERT INTO t VALUES (1"; " 2"]
  /\ parseSchema "CREATE TABLE t (a INT, b TEXT); INSERT INTO t VALUES (1, 2)"
      = Some (Schema.mk "t" [Column.mk "a" (Some "Number");
                             Column.mk "2" (Some "TEXT")]).
Proof. split; vm_compute; reflexivity. Qed.

(** ** The names in the result *)

Lemma spaces_matchHere a t :
  matchHere spacesRe (String a t)
  = if Js.isSpace a then Some (Js.dropWhile Js.isSpace t, []) else None.
Proof.
  unfold matchHere, spacesRe, space, Plus. cbn [pattern ignoreCase].
  rewrite mtch_Seq, mtch_Cls. cbn [classMatch].
  destruct (Js.isSpace a); [|reflexivity].
  rewrite mtch_Star, repeat_class by lia.
  now rewrite longestRun_total by discriminate.
Qed.

Lemma dropWhile_shorter p s :
  String.length (Js.dropWhile p s) <= String.length s.
Proof.
  induction s as [|a t IH]; cbn; [lia|]. destruct (p a); cbn; lia.
Qed.

Lemma splitLoop_spaces_hd : forall n piece s,
  2 * String.length s + (if Js.truthy piece then 1 else 0) < n ->
  hd EmptyString (splitLoop spacesRe n piece s)
  = (Js.reverse piece ++ Js.takeWhile notSpace s)%string.
Proof.
  induction n as [|n IH]; intros piece s Hn; [lia|].
  destruct s as [|a t].
  - cbn. now rewrite append_empty_r.
  - cbn [splitLoop Js.takeWhile]. rewrite spaces_matchHere.
    unfold notSpace at 1. destruct (Js.isSpace a); cbn [negb].
    + assert (L : (String.length (Js.dropWhile Js.isSpace t)
                   =? String.length (String a t)) = false).
      { apply Nat.eqb_neq. pose proof (dropWhile_shorter Js.isSpace t).
        simpl. lia. }
      rewrite L. cbn [andb hd]. now rewrite append_empty_r.
    + rewrite IH by (cbn [Js.truthy String.length] in *; lia).
      unfold Js.reverse. cbn [Js.rev_onto].
      rewrite (rev_onto_append piece (String a EmptyString)).
      now rewrite append_assoc.
Qed.

(** The name of a column is the text of its fragment, trimmed, up to the
    first white space. *)
Lemma leadingToken_scan (col : string) :
  leadingToken col = Js.takeWhile notSpace (Js.trim col).
Proof.
  unfold leadingToken, RegExp.split. destruct (Js.trim col) as [|a t].
  - reflexivity.
  - now rewrite splitLoop_spaces_hd by (cbn [Js.truthy]; lia).
Qed.

Lemma takeWhile_all p s : Js.allChars (fun a => p a = true) (Js.takeWhile p s).
Proof.
  induction s as [|a t IH]; cbn; [exact I|].
  destruct (p a) eqn:E; cbn; auto.
Qed.

(** The table name that [parseSchema] returns is a non-empty run of word
    characters. *)
Theorem parseSchema_table_name (text : string) (schema : Schema.t) :
  parseSchema text = Some schema ->
  Schema.name schema <> EmptyString /\ allWord (Schema.name schema).
Proof.
  unfold parseSchema.
  destruct (RegExp.exec createRe text) as [m|] eqn:E; [|discriminate].
  intros H. injection H as <-. cbn [Schema.name].
  apply exec_leftmost in E. destruct E as (_ & _ & Hm & _).
  apply createMatch_parts in Hm.
  destruct Hm as (create & blanks1 & table & blanks2 & name & blanks3
                  & content & _ & _ & _ & _ & _ & _ & _ & Hn & Hw & _ & _
                  & Hcaps).
  unfold groupText, group. rewrite Hcaps. cbn. now split.
Qed.

Lemma parseSchema_table_name_witness :
  allWord "t2" /\ "t2" <> EmptyString.
Proof.
  destruct (parseSchema_table_name "create table t2(a int)"
              (Schema.mk "t2" [Column.mk "a" (Some "Number")])) as [H1 H2];
    [vm_compute; reflexivity | split; assumption].
Defined.

(** Every column that [parseSchema] returns has a non-empty name without
    white space, and one of the three type texts TEXT, Number and Text. *)
Theorem parseSchema_column_shape (text : string) (schema : Schema.t)
    (c : Column.t) :
  parseSchema text = Some schema ->
  In c (Schema.columns schema) ->
  Column.name c <> EmptyString
  /\ Js.allChars (fun a => Js.isSpace a = false) (Column.name c)
  /\ (Column.type c = Some "TEXT" \/ Column.type c = Some "Number"
      \/ Column.type c = Some "Text").
Proof.
  unfold parseSchema.
  destruct (RegExp.exec createRe text) as [m|]; [|discriminate].
  intros H. injection H as <-. cbn [Schema.columns]. intros Hin.
  apply filter_In in Hin. destruct Hin as [Hin Hkeep].
  apply keepColumn_not_keyword in Hkeep. destruct Hkeep as [Hname _].
  apply in_map_iff in Hin. destruct Hin as (fragment & <- & _).
  split; [exact Hname|]. cbn [Column.name Column.type parseColumn]. split.
  - rewrite leadingToken_scan.
    generalize (takeWhile_all notSpace (Js.trim fragment)).
    generalize (Js.takeWhile notSpace (Js.trim fragment)) as s.
    induction s as [|a s IH]; cbn; [auto|]. intros [Ha Hs]. split; auto.
    unfold notSpace in Ha. now destruct (Js.isSpace a).
  - unfold inferType.
    destruct (numericMarker _), (characterMarker _); auto.
Qed.

Lemma parseSchema_column_shape_witness :
  Column.name (Column.mk "a" (Some "Number")) <> EmptyString.
Proof.
  refine (proj1 (parseSchema_column_shape "create table t2(a int)"
                   (Schema.mk "t2" [Column.mk "a" (Some "Number")])
                   (Column.mk "a" (Some "Number")) _ _));
    [vm_compute; reflexivity | left; reflexivity].
Defined.

End SchemaBuilderMore.

(** ** The row extractor, further *)

Section RowExtractorMore.

(** The parts of a match of the values pattern: the group stops at the
    first closing parenthesis. *)
Lemma shortestRun_unfold p (k : cont) s c :
  shortestRun p k s c
  = match k s c with
    | Some x => Some x
    | None =>
        match s with
        | EmptyString => None
        | String a t => if p a then shortestRun p k t c else None
        end
    end.
Proof. destruct s; reflexivity. Qed.

Lemma valuesMatch_parts t rest caps :
  matchHere valuesRe t = Some (rest, caps) ->
  exists keyword blanks content,
    t = (keyword ++ blanks ++ "(" ++ content ++ ")" ++ rest)%string /\
    Js.toUpperCase keyword = "VALUES" /\
    allSpace blanks /\
    ~ Js.occurs ")" content /\
    caps = [(1, content)].
Proof.
  unfold matchHere, valuesRe, space, anyChar. cbn [pattern ignoreCase Seqs].
  intros H. rewrite mtch_Seq in H.
  apply mtch_Lit_inv in H. destruct H as (keyword & s1 & -> & Hkw & H).
  rewrite mtch_Seq in H. apply mtch_Star_class_inv in H.
  destruct H as (blanks & s2 & -> & Hblanks & H).
  rewrite mtch_Seq in H. destruct s2 as [|b s3]; [discriminate|].
  rewrite mtch_Chr in H. destruct (charEq true b "(") eqn:Eb; [|discriminate].
  apply charEq_open in Eb. subst b.
  rewrite mtch_Seq, mtch_Grp, mtch_Star, repeat_class_lazy in H by lia.
  apply shortestRun_inv in H.
  destruct H as (content & s4 & -> & _ & Hk & Hfirst).
  destruct s4 as [|b s5]; [discriminate|]. rewrite mtch_Chr in Hk.
  destruct (charEq true b ")") eqn:Eb; [|discriminate].
  apply charEq_close in Eb. subst b. injection Hk as -> <-.
  exists keyword, blanks, content. rewrite consumed_append.
  repeat split; auto.
  intros Hocc. apply occurs_split in Hocc. destruct Hocc as (u & v & ->).
  specialize (Hfirst u ")"%char v eq_refl). cbn [append] in Hfirst.
  rewrite mtch_Chr in Hfirst. discriminate.
Qed.

Lemma matchAllFrom_matches re : forall n i s m,
  In m (matchAllFrom re n i s) ->
  matchHere re (matched m ++ after m)%string = Some (after m, groups m).
Proof.
  induction n as [|n IH]; intros i s m Hin; [contradiction|].
  cbn [matchAllFrom] in Hin.
  destruct (execFrom re i s) as [m0|] eqn:E; [|contradiction].
  destruct Hin as [<-|Hin].
  - apply execFrom_leftmost in E. now destruct E as (_ & _ & _ & Hm & _).
  - destruct (matched m0) as [|a w]; [destruct (after m0) as [|b t]|];
      [contradiction | now apply IH in Hin | now apply IH in Hin].
Qed.

Lemma splitChar_pieces c : forall s piece,
  In piece (Js.splitChar c s) ->
  ~ Js.occurs c piece /\ forall d, Js.occurs d piece -> Js.occurs d s.
Proof.
  induction s as [|a t IH]; intros piece Hin; cbn [Js.splitChar] in Hin.
  - destruct Hin as [<-|[]]. cbn. tauto.
  - destruct (Ascii.eqb_spec a c) as [->|Hac].
    + destruct Hin as [<-|Hin]; [cbn; tauto|].
      destruct (IH _ Hin) as [H1 H2]. split; [exact H1|]. cbn. auto.
    + destruct (Js.splitChar c t) as [|x l] eqn:E.
      * destruct Hin as [<-|[]]. cbn. split; [tauto|]. intros d [?|[]]. auto.
      * destruct Hin as [<-|Hin].
        -- destruct (IH x (or_introl eq_refl)) as [H1 H2].
           split; [cbn; tauto|]. intros d [?|?]; cbn; auto.
        -- destruct (IH piece (or_intror Hin)) as [H1 H2].
           split; [exact H1|]. cbn. auto.
Qed.

Lemma splitChar_nonempty c s : Js.splitChar c s <> [].
Proof.
  destruct s as [|a t]; cbn; [discriminate|].
  destruct (Ascii.eqb a c); [discriminate|]. now destruct (Js.splitChar c t).
Qed.

Lemma occurs_dropWhile d f s :
  Js.occurs d (Js.dropWhile f s) -> Js.occurs d s.
Proof.
  induction s as [|a t IH]; cbn; [tauto|].
  destruct (f a); cbn; tauto.
Qed.

Lemma occurs_rev_onto d : forall s acc,
  Js.occurs d (Js.rev_onto s acc) <-> Js.occurs d s \/ Js.occurs d acc.
Proof.
  induction s as [|a t IH]; intros acc; cbn; [tauto|].
  rewrite IH. cbn. tauto.
Qed.

Lemma occurs_reverse d s : Js.occurs d (Js.reverse s) <-> Js.occurs d s.
Proof. unfold Js.reverse. rewrite occurs_rev_onto. cbn. tauto. Qed.

Lemma occurs_trim d s : Js.occurs d (Js.trim s) -> Js.occurs d s.
Proof.
  unfold Js.trim, Js.trimEnd, Js.trimStart. rewrite occurs_reverse.
  intros H. apply occurs_dropWhile in H. rewrite occurs_reverse in H.
  now apply occurs_dropWhile in H.
Qed.

Lemma occurs_filterString d f s :
  Js.occurs d (Js.filterString f s) -> Js.occurs d s.
Proof.
  induction s as [|a t IH]; cbn; [tauto|].
  destruct (f a); cbn; tauto.
Qed.

(** Every tuple that [parseAllInsertRows] returns has at least one cell,
    and no cell contains a comma or a closing parenthesis. *)
Theorem parseAllInsertRows_cell_shape (text : string) (row : list string) :
  In row (parseAllInsertRows text) ->
  row <> []
  /\ forall cell, In cell row ->
       ~ Js.occurs "," cell /\ ~ Js.occurs ")" cell.
Proof.
  unfold parseAllInsertRows, parseAllInsertRowsWith, matchAll. intros Hin.
  apply in_map_iff in Hin. destruct Hin as (m & <- & Hm).
  apply matchAllFrom_matches, valuesMatch_parts in Hm.
  destruct Hm as (keyword & blanks & content & _ & _ & _ & Hclose & Hcaps).
  unfold rowOfMatch, groupText, group. rewrite Hcaps. cbn [capture Nat.eqb].
  split.
  - pose proof (splitChar_nonempty ","%char content).
    now destruct (Js.splitChar "," content).
  - intros cell Hcell. apply in_map_iff in Hcell.
    destruct Hcell as (val & <- & Hval). rewrite cleanCell_filter.
    apply splitChar_pieces in Hval. destruct Hval as [Hcomma Hsub].
    split; intros H; apply occurs_filterString, occurs_trim in H; auto.
Qed.

Lemma parseAllInsertRows_cell_shape_witness :
  parseAllInsertRows "insert into t values (f(1), 2)" = [["f(1"]]
  /\ ["f(1"] <> [].
Proof.
  split; [vm_compute; reflexivity|].
  refine (proj1 (parseAllInsertRows_cell_shape
                   "insert into t values (f(1), 2)" ["f(1"] _)).
  vm_compute. left. reflexivity.
Defined.

Lemma shortestRun_skip (k : cont) c : forall run s,
  (forall a t, a <> ")"%char -> k (String a t) c = None) ->
  ~ Js.occurs ")" run ->
  shortestRun (fun _ => true) k (run ++ String ")" s)%string c
  = shortestRun (fun _ => true) k (String ")" s) c.
Proof.
  induction run as [|a run IH]; intros s Hk Hno; [reflexivity|].
  cbn in Hno. rewrite <- (IH s Hk) by tauto.
  cbn [append]. rewrite (shortestRun_unfold _ _ (String a _)).
  now rewrite Hk by tauto.
Qed.

Lemma valuesMatch_exact keyword blanks content rest :
  Js.toUpperCase keyword = "VALUES" ->
  allSpace blanks ->
  ~ Js.occurs ")" content ->
  matchHere valuesRe (keyword ++ blanks ++ "(" ++ content ++ ")" ++ rest)
  = Some (rest, [(1, content)]).
Proof.
  intros Hkw Hblanks Hno. unfold matchHere, valuesRe, space, anyChar.
  cbn [pattern ignoreCase Seqs]. rewrite mtch_Seq, mtch_Lit by exact Hkw.
  rewrite mtch_Seq.
  apply mtch_Star_class_exact; [exact Hblanks | reflexivity |].
  cbn [append]. rewrite mtch_Seq, mtch_Chr.
  change (charEq true "(" "(") with true. cbv match.
  rewrite mtch_Seq, mtch_Grp, mtch_Star, repeat_class_lazy by lia.
  rewrite shortestRun_skip; [| |exact Hno].
  - rewrite shortestRun_unfold, mtch_Chr.
    change (charEq true ")" ")") with true. cbv match.
    change (String ")" rest) with (")" ++ rest)%string.
    now rewrite consumed_append.
  - intros a t Ha. rewrite mtch_Chr.
    destruct (charEq true a ")") eqn:E; [|reflexivity].
    apply charEq_close in E. contradiction.
Qed.

Lemma valuesRe_first_letter b t :
  Js.upperChar b <> "V"%char -> matchHere valuesRe (String b t) = None.
Proof.
  intros Hb. unfold matchHere, valuesRe. cbn [pattern ignoreCase Seqs].
  change (Lit "VALUES") with (Seq (Chr "V") (Lit "ALUES")).
  rewrite 2!mtch_Seq, mtch_Chr. unfold charEq, canon.
  change (Js.upperChar "V") with "V"%char.
  destruct (Ascii.eqb_spec (Js.upperChar b) "V"); [contradiction|reflexivity].
Qed.

Lemma execFrom_none re (Q : ascii -> Prop) :
  (forall b t, Q b -> matchHere re (String b t) = None) ->
  matchHere re EmptyString = None ->
  forall s i, Js.allChars Q s -> execFrom re i s = None.
Proof.
  intros HQ Hempty. induction s as [|b t IH]; intros i Hs; cbn [execFrom].
  - now rewrite Hempty.
  - destruct Hs as [Hb Ht]. rewrite (HQ _ _ Hb). now apply IH.
Qed.

Lemma matchAllFrom_none re n i s :
  execFrom re i s = None -> matchAllFrom re n i s = [].
Proof. intros H. destruct n; cbn [matchAllFrom]; [reflexivity | now rewrite H]. Qed.

(** One values group, closed, with no letter v elsewhere in the draft,
    gives exactly one tuple: the cells of the text between the
    parentheses.  Whatever follows the group, further parenthesised tuples
    included, adds nothing. *)
Theorem parseAllInsertRows_single_group
    (before keyword blanks content tail : string) :
  Js.allChars (fun a => Js.upperChar a <> "V"%char) before ->
  Js.toUpperCase keyword = "VALUES" ->
  allSpace blanks ->
  ~ Js.occurs ")" content ->
  Js.allChars (fun a => Js.upperChar a <> "V"%char) tail ->
  parseAllInsertRows
    (before ++ keyword ++ blanks ++ "(" ++ content ++ ")" ++ tail)
  = [map cleanCell (Js.splitChar ","%char content)].
Proof.
  intros Hbefore Hkw Hblanks Hno Htail.
  unfold parseAllInsertRows, parseAllInsertRowsWith, matchAll.
  cbn [matchAllFrom].
  rewrite (execFrom_skip _ _ valuesRe_first_letter) by exact Hbefore.
  rewrite (execFrom_here _ _ _ _ _
             (valuesMatch_exact _ _ _ tail Hkw Hblanks Hno)).
  cbn [matched after index].
  destruct keyword as [|a keyword]; [discriminate Hkw|].
  rewrite <- !append_assoc, consumed_append, !append_assoc. cbn [append].
  rewrite matchAllFrom_none
    by (apply (execFrom_none _ _ valuesRe_first_letter eq_refl _ _ Htail)).
  reflexivity.
Qed.

Lemma parseAllInsertRows_single_group_witness :
  parseAllInsertRows "INSERT INTO t values (1, 'a'), (2, 'b');"
  = [["1"; "a"]].
Proof.
  apply (parseAllInsertRows_single_group "INSERT INTO t " "values" " "
           "1, 'a'" ", (2, 'b');");
    cbn; intuition discriminate.
Defined.

End RowExtractorMore.

(** ** Table detection, further *)

Section DetectionMore.

Lemma takeWhile_dropWhile p s :
  (Js.takeWhile p s ++ Js.dropWhile p s)%string = s.
Proof.
  induction s as [|a t IH]; cbn; [reflexivity|].
  destruct (p a); cbn; [now rewrite IH | reflexivity].
Qed.

Lemma dropWhile_starts p s : startsOutside p (Js.dropWhile p s).
Proof.
  induction s as [|a t IH]; cbn; [exact I|].
  destruct (p a) eqn:E; [exact IH | exact E].
Qed.

(** What follows the keyword: blanks, then the whole run of word
    characters as group 1. *)
Lemma tableNameTail_parts s c rest caps :
  mtch true tableNameTail s c (fun s' c' => Some (s', c')) = Some (rest, caps) ->
  exists blanks raw,
    s = (blanks ++ raw ++ rest)%string /\
    blanks <> EmptyString /\ allSpace blanks /\
    raw <> EmptyString /\ allWord raw /\
    startsOutside Js.isWord rest /\
    caps = (1, raw) :: c.
Proof.
  unfold tableNameTail, space, word. rewrite mtch_Seq. intros H.
  apply mtch_Plus_class_inv in H.
  destruct H as (b & run & s2 & -> & Hb & Hrun & H).
  rewrite mtch_Grp in H. unfold Plus in H. rewrite mtch_Seq in H.
  destruct s2 as [|w t2]; [discriminate|]. rewrite mtch_Cls in H.
  destruct (classMatch true CWord w) eqn:Ew; [|discriminate].
  rewrite mtch_Star, repeat_class, longestRun_total in H by (lia || discriminate).
  injection H as <- <-.
  assert (Hraw : consumed (String w t2) (Js.dropWhile Js.isWord t2)
                 = String w (Js.takeWhile Js.isWord t2)).
  { rewrite <- (takeWhile_dropWhile Js.isWord t2) at 1. apply consumed_cons. }
  change (classMatch true CWord) with Js.isWord in *. rewrite Hraw.
  exists (String b run), (String w (Js.takeWhile Js.isWord t2)).
  cbn [append]. rewrite takeWhile_dropWhile.
  repeat split; try discriminate; auto.
  - apply (takeWhile_all Js.isWord).
  - apply dropWhile_starts.
Qed.

Lemma tableMatch_parts keywords t rest caps :
  matchHere (tableReWith keywords) t = Some (rest, caps) ->
  exists front raw,
    t = (front ++ raw ++ rest)%string /\
    raw <> EmptyString /\ allWord raw /\
    startsOutside Js.isWord rest /\
    capture 1 caps = Some raw.
Proof.
  unfold matchHere, tableReWith. cbn [pattern ignoreCase].
  rewrite mtch_Seq. intros H.
  apply (mtch_reaches _ _ _ (eats_anything _ _)) in H.
  destruct H as (u & s1 & c1 & -> & _ & H).
  apply tableNameTail_parts in H.
  destruct H as (blanks & raw & -> & _ & _ & Hn & Hw & Hrest & ->).
  exists (u ++ blanks)%string, raw. rewrite append_assoc.
  repeat split; auto.
Qed.

Lemma lower_word a :
  Js.isWord a = true ->
  Js.isWord (Js.lowerChar a) = true /\ Js.isUpper (Js.lowerChar a) = false.
Proof.
  destruct a as [[] [] [] [] [] [] [] []]; vm_compute; intros;
    try discriminate; split; reflexivity.
Qed.

(** The detected table name is a whole identifier of the draft in lower
    case: non-empty, made of word characters none of which is an
    upper-case letter, and not followed by a further word character. *)
Theorem detectTable_name_shape (text name : string) :
  detectTable text = Some name ->
  name <> EmptyString
  /\ Js.allChars (fun a => Js.isWord a = true /\ Js.isUpper a = false) name
  /\ exists front raw rest,
       text = (front ++ raw ++ rest)%string
       /\ name = Js.toLowerCase raw
       /\ allWord raw
       /\ startsOutside Js.isWord rest.
Proof.
  unfold detectTable.
  destruct (RegExp.exec tableRe text) as [m|] eqn:E; [|discriminate].
  intros H. injection H as <-.
  apply exec_leftmost in E. destruct E as (Htext & Hdrop & Hm & _).
  rewrite Hdrop in Hm. apply tableMatch_parts in Hm.
  destruct Hm as (front & raw & Ht & Hn & Hw & Hrest & Hcap).
  unfold groupText, group. rewrite Hcap. repeat split.
  - destruct raw; [congruence | discriminate].
  - clear -Hw. induction raw as [|a raw IH]; cbn; [exact I|].
    destruct Hw as [Ha Hw]. split; [now apply lower_word | now apply IH].
  - exists (Js.take (index m) text ++ front)%string, raw, (after m).
    rewrite append_assoc, <- Ht. auto.
Qed.

Lemma detectTable_name_shape_witness :
  detectTable "select * from Student_2 where id = 1" = Some "student_2"
  /\ "student_2" <> EmptyString.
Proof.
  split; [vm_compute; reflexivity|].
  refine (proj1 (detectTable_name_shape
                   "select * from Student_2 where id = 1" "student_2" _)).
  vm_compute. reflexivity.
Defined.

Lemma firstSome_complete {A : Type} (l : list (option A)) (o : option A) :
  In o l -> o <> None -> firstSome l <> None.
Proof.
  induction l as [|[y|] l IH]; cbn; [tauto | discriminate|].
  intros [<-|Hin] Ho; [congruence | now apply IH].
Qed.

(** The table alternative of the detection pattern matches where the
    create-table pattern has its TABLE keyword. *)
Lemma tableKeyword_complete table blanks2 name tail :
  Js.toUpperCase table = "TABLE" ->
  blanks2 <> EmptyString -> allSpace blanks2 ->
  name <> EmptyString -> allWord name ->
  matchHere tableRe (table ++ blanks2 ++ name ++ tail) <> None.
Proof.
  intros Htable Hn2 Hb2 Hn3 Hname. unfold tableRe.
  rewrite matchHere_keywords by discriminate.
  apply (firstSome_complete _
           (matchHere (keywordRe (Lit "TABLE"))
              (table ++ blanks2 ++ name ++ tail)));
    [cbn; tauto|].
  destruct blanks2 as [|b2 r2]; [congruence|]. destruct Hb2 as [Hb2 Hr2].
  destruct name as [|b3 r3]; [congruence|]. destruct Hname as [Hb3 Hr3].
  unfold matchHere, keywordRe, tableNameTail, space, word.
  cbn [pattern ignoreCase append].
  rewrite mtch_Seq, mtch_Lit by exact Htable.
  rewrite mtch_Seq. apply mtch_Plus_class_complete; [exact Hb2|exact Hr2|].
  rewrite mtch_Grp.
  apply (mtch_Plus_class_complete true CWord b3 EmptyString); cbn; auto.
  discriminate.
Qed.

Variable post : string -> option Response.

(** Whenever [parseSchema] finds a table definition in the draft, the
    table detection finds a table reference in it too; so the change
    handler asks the service for rows also while a table is being
    defined, and shows the rows of a successful reply. *)
Theorem parseSchema_implies_detectTable (text : string) :
  parseSchema text <> None ->
  detectTable text <> None
  /\ forall rows st,
       (forall q, post q = Some (mkResponse "success" (Some rows))) ->
       existingData (handleEditorChange post (Some text) st) = rows.
Proof.
  intros H.
  assert (Hd : detectTable text <> None).
  { apply parseSchema_answers, createRe_found in H.
    destruct H as (before & t & -> & create & blanks1 & table & blanks2
                   & name & blanks3 & tail & -> & _ & Htb & _ & _ & Hn2
                   & Hb2 & Hn3 & Hw & _ & _).
    unfold detectTable.
    assert (E : RegExp.exec tableRe
                  (before ++ create ++ blanks1 ++ table ++ blanks2 ++ name
                     ++ blanks3 ++ "(" ++ tail)%string <> None).
    { rewrite <- 2!append_assoc. apply execFrom_complete.
      now apply tableKeyword_complete. }
    destruct (RegExp.exec tableRe _); congruence. }
  split; [exact Hd|]. intros rows st Hpost.
  unfold handleEditorChange. cbn [orEmpty].
  destruct (detectTable text) as [tableName|]; [|congruence].
  rewrite Hpost. cbn [status data String.eqb].
  destruct (lookup tableName SCHEMA_REGISTRY), (parseSchema text); reflexivity.
Qed.

End DetectionMore.

Lemma parseSchema_implies_detectTable_witness :
  detectTable "SELECT 1 FROM dual; CREATE TABLE t (a INT)" = Some "dual"
  /\ detectTable "SELECT 1 FROM dual; CREATE TABLE t (a INT)" <> None.
Proof.
  split; [vm_compute; reflexivity|].
  refine (proj1 (parseSchema_implies_detectTable (fun _ => None)
                   "SELECT 1 FROM dual; CREATE TABLE t (a INT)" _)).
  vm_compute. discriminate.
Defined.

(** ** The preview table *)

Section Preview.

Lemma mapiFrom_cellAt {A : Type} (row : list string) : forall (l : list A) i,
  mapiFrom (fun _ cIdx => cellAt row cIdx) i l
  = firstn (length l) (skipn i row)
    ++ List.repeat EmptyString (length l - length (skipn i row)).
Proof.
  induction l as [|x l IH]; intros i; [reflexivity|].
  cbn [mapiFrom length]. rewrite IH. unfold cellAt.
  destruct (skipn i row) as [|cell rest] eqn:E.
  - assert (Hnone : nth_error row i = None).
    { apply nth_error_None. rewrite <- (firstn_skipn i row), E, app_nil_r.
      rewrite length_firstn. lia. }
    assert (E' : skipn (S i) row = []).
    { apply skipn_all2. apply nth_error_None in Hnone. lia. }
    rewrite Hnone, E', !firstn_nil. cbn [length app].
    now rewrite !Nat.sub_0_r.
  - assert (Hsome : nth_error row i = Some cell).
    { assert (Hlen : length (firstn i row) = i).
      { rewrite length_firstn. apply Nat.min_l.
        assert (i < length row); [|lia].
        destruct (Nat.lt_ge_cases i (length row)) as [?|Hge]; [assumption|].
        rewrite (skipn_all2 row Hge) in E. discriminate. }
      rewrite <- (firstn_skipn i row), E, nth_error_app2 by lia.
      rewrite Hlen, Nat.sub_diag. reflexivity. }
    assert (E' : skipn (S i) row = rest).
    { change (S i) with (1 + i). rewrite <- skipn_skipn, E. reflexivity. }
    rewrite Hsome, E'. cbn [firstn length Nat.sub app]. f_equal.
    now destruct cell.
Qed.

Lemma draftCells_cells (columns : list Column.t) (row : list string) :
  draftCells columns row
  = firstn (length columns) row
    ++ List.repeat EmptyString (length columns - length row).
Proof. unfold draftCells, mapi. now rewrite mapiFrom_cellAt. Qed.

(** A draft row is shown with exactly one cell per column: the row cut
    to the number of columns, or filled up with empty cells. *)
Theorem draftCells_truncate_pad (columns : list Column.t) (row : list string) :
  draftCells columns row
  = firstn (length columns) row
    ++ List.repeat EmptyString (length columns - length row)
  /\ length (draftCells columns row) = length columns.
Proof.
  split; [apply draftCells_cells|].
  rewrite draftCells_cells, length_app, length_firstn, repeat_length. lia.
Qed.

(** In the preview table the rows of the service come first and keep all
    their cells; the rows of the draft follow, each as wide as the
    header. *)
Theorem previewTable_rows (st : AppState) (header : list string)
    (rows : list PreviewRow) :
  previewTable st = Some (header, rows) ->
  exists ghosts drafts,
    rows = ghosts ++ drafts
    /\ map cells ghosts = existingData st
    /\ Forall (fun r => origin r = Existing) ghosts
    /\ length drafts = length (multiRowPreview st)
    /\ Forall (fun r => origin r = Draft
                         /\ length (cells r) = length header) drafts.
Proof.
  unfold previewTable. destruct (activeSchema st) as [schema|]; [|discriminate].
  intros H. injection H as <- <-.
  eexists _, _. split; [reflexivity|].
  rewrite map_map, map_id, !length_map. repeat split.
  - apply Forall_map, Forall_forall. reflexivity.
  - apply Forall_map, Forall_forall. intros row _. cbn [origin cells].
    split; [reflexivity|].
    rewrite draftCells_cells, length_app, length_firstn, repeat_length. lia.
Qed.

End Preview.

(** ** The roadmap, further *)

Section RoadmapMore.

(** Every roadmap has no step, two steps or three, numbered from 1 in
    their order. *)
Theorem roadmap_numbering (question : string) :
  map Step.id (roadmapFor question) = seq 1 (length (roadmapFor question))
  /\ (length (roadmapFor question) = 0
      \/ length (roadmapFor question) = 2
      \/ length (roadmapFor question) = 3).
Proof.
  unfold roadmapFor, categorySteps.
  generalize (Js.toLowerCase question) as q. intros q.
  destruct (RegExp.test createTrigger q), (RegExp.test aggregateTrigger q),
    (RegExp.test renameTrigger q), (RegExp.test deleteTrigger q),
    (RegExp.test selectTrigger q), (RegExp.test filterTrigger q);
    cbn; auto.
Qed.

Lemma roadmap_patterns_plain (question : string) :
  forallb (fun step => plain (pattern (Step.regex step))) (roadmapFor question)
  = true.
Proof.
  unfold roadmapFor, categorySteps.
  generalize (Js.toLowerCase question) as q. intros q.
  destruct (RegExp.test createTrigger q), (RegExp.test aggregateTrigger q),
    (RegExp.test renameTrigger q), (RegExp.test deleteTrigger q),
    (RegExp.test selectTrigger q), (RegExp.test filterTrigger q);
    reflexivity.
Qed.

Variable ic : bool.

Lemma repeat_at_least (step : string -> captures -> cont -> option state)
    g (k : cont) n s c :
  k s c <> None -> repeat step g k n s c <> None.
Proof.
  intros Hk. destruct n as [|n]; [exact Hk|]. rewrite repeat_S.
  destruct g.
  - now destruct (step s c _).
  - now destruct (k s c).
Qed.

Lemma repeat_mono (step : string -> captures -> cont -> option state) post :
  (forall s c c2 k k2, carries post k k2 ->
     step s c k <> None -> step (s ++ post)%string c2 k2 <> None) ->
  forall g k k2, carries post k k2 ->
  forall n n2, n <= n2 -> forall s c c2,
    repeat step g k n s c <> None ->
    repeat step g k2 n2 (s ++ post)%string c2 <> None.
Proof.
  intros Hstep g k k2 Hk. induction n as [|n IH]; intros n2 Hle s c c2 H.
  - apply repeat_at_least. now apply (Hk s c).
  - destruct n2 as [|n2]; [lia|]. rewrite repeat_S in H. rewrite repeat_S.
    set (again := step s c _) in H.
    set (again2 := step (s ++ post)%string c2 _).
    assert (Hagain : again <> None -> again2 <> None).
    { apply Hstep. intros s' c' c2'.
      destruct (String.length s' <? String.length s) eqn:L; [|congruence].
      assert (L2 : (String.length (s' ++ post) <? String.length (s ++ post))
                   = true).
      { apply Nat.ltb_lt in L. apply Nat.ltb_lt. rewrite !length_append. lia. }
      rewrite L2. apply IH. lia. }
    assert (Hnow : k s c <> None -> k2 (s ++ post)%string c2 <> None)
      by apply Hk.
    destruct g.
    + destruct again; [destruct again2; [congruence | now contradiction Hagain]|].
      destruct again2; [congruence | now apply Hnow].
    + destruct (k s c); [destruct (k2 _ _); [congruence | now contradiction Hnow]|].
      destruct (k2 _ _); [congruence | now apply Hagain].
Qed.

(** A pattern without lookahead and anchors that matches at the start of
    a text still matches there when the text goes on. *)
Lemma mtch_mono r post : plain r = true ->
  forall s c c2 k k2, carries post k k2 ->
    mtch ic r s c k <> None -> mtch ic r (s ++ post)%string c2 k2 <> None.
Proof.
  induction r as [|a|cs|r1 IH1 r2 IH2|r1 IH1 r2 IH2|g r IH|n r IH|r IH|];
    intros Hplain s c c2 k k2 Hk H; try discriminate Hplain.
  - now apply (Hk s c).
  - destruct s as [|b t]; [now contradiction H|]. cbn [append].
    rewrite mtch_Chr in *. destruct (charEq ic b a); [|now contradiction H].
    now apply (Hk t c).
  - destruct s as [|b t]; [now contradiction H|]. cbn [append].
    rewrite mtch_Cls in *. destruct (classMatch ic cs b); [|now contradiction H].
    now apply (Hk t c).
  - cbn [plain] in Hplain. apply andb_prop in Hplain. destruct Hplain as [P1 P2].
    rewrite mtch_Seq in *. revert H. apply (IH1 P1).
    intros s' c' c2'. now apply (IH2 P2).
  - cbn [plain] in Hplain. apply andb_prop in Hplain. destruct Hplain as [P1 P2].
    rewrite mtch_Alt in *.
    destruct (mtch ic r1 s c k) eqn:E1.
    + assert (H1 : mtch ic r1 (s ++ post)%string c2 k2 <> None)
        by (apply (IH1 P1 s c c2 k k2 Hk); congruence).
      now destruct (mtch ic r1 (s ++ post)%string c2 k2).
    + assert (H2 : mtch ic r2 (s ++ post)%string c2 k2 <> None)
        by (now apply (IH2 P2 s c c2 k k2 Hk)).
      now destruct (mtch ic r1 (s ++ post)%string c2 k2).
  - cbn [plain] in Hplain. rewrite mtch_Star in *. revert H.
    apply (repeat_mono (mtch ic r) post); [|exact Hk|].
    + intros s0 c0 c3 k0 k3 Hk0. now apply (IH Hplain).
    + rewrite length_append. lia.
  - cbn [plain] in Hplain. rewrite mtch_Grp in *. revert H.
    apply (IH Hplain). intros s' c' c2'. apply Hk.
Qed.

End RoadmapMore.

Lemma test_mono (re : RegExp.t) (front text back : string) :
  plain (pattern re) = true ->
  RegExp.test re text = true ->
  RegExp.test re (front ++ text ++ back) = true.
Proof.
  unfold RegExp.test. intros Hplain H.
  destruct (RegExp.exec re text) as [m|] eqn:E; [clear H|discriminate].
  apply exec_leftmost in E. destruct E as (Htext & Hdrop & Hm & _).
  assert (Hgo : matchHere re ((matched m ++ after m) ++ back)%string <> None).
  { unfold matchHere.
    apply (mtch_mono _ _ back Hplain _ [] [] (fun s' c' => Some (s', c'))).
    - intros s c c2 _. discriminate.
    - rewrite Hdrop in Hm. unfold matchHere in Hm. congruence. }
  assert (Hex : RegExp.exec re (front ++ text ++ back) <> None).
  { rewrite Htext, !append_assoc, <- (append_assoc front).
    rewrite <- (append_assoc (matched m)). now apply execFrom_complete. }
  now destruct (RegExp.exec re (front ++ text ++ back)).
Qed.

(** A step of a roadmap that is ticked for a draft stays ticked when text
    is added before or after the draft. *)
Theorem stepDone_monotone (question : string) (step : Step.t)
    (front draft back : string) :
  In step (roadmapFor question) ->
  stepDone step draft = true ->
  stepDone step (front ++ draft ++ back) = true.
Proof.
  intros Hin. unfold stepDone. apply test_mono.
  pose proof (roadmap_patterns_plain question) as Hall.
  rewrite forallb_forall in Hall. now apply Hall.
Qed.

Lemma stepDone_monotone_witness :
  stepDone (Step.mk 2 "Specify Source: FROM [Table]" (caseInsensitive (Lit "FROM")))
    ("SELECT AVG(score) " ++ "from" ++ " t") = true.
Proof.
  apply (stepDone_monotone "what is the average score"
           (Step.mk 2 "Specify Source: FROM [Table]"
              (caseInsensitive (Lit "FROM")))
           "SELECT AVG(score) " "from" " t");
    vm_compute; auto.
Defined.

(** ** Running a statement *)

Section RunFacts.

Variable Server : Type.
Variable post : Server -> string -> Outcome * Server.

Ltac run_simpl :=
  cbv beta iota zeta
    delta [tryCatch bind update request ret session server posted
           fst snd andb].

Ltac run_post :=
  match goal with
  | |- context [post ?s ?q] =>
      destruct (post s q) as [[?body|?msg] ?srv] eqn:?
  | |- context [String.eqb (bodyStatus ?b) "success"] =>
      destruct (String.eqb (bodyStatus b) "success") eqn:?
  end;
  run_simpl.

(** All the ways through [runQuery]. *)
Ltac run_cases w :=
  destruct w as [sess srv log]; unfold afterRun, runQuery;
  cbv beta zeta delta [session];
  cbv iota;
  set (activeQuery := orElse _ _) in *;
  destruct (runTableName activeQuery) as [name|] eqn:Htable;
  [destruct (Js.truthy name) eqn:Hname;
   destruct (changesData (Js.toUpperCase activeQuery)) eqn:Hchanges|];
  destruct (Js.includes (Js.toUpperCase activeQuery) "DROP") eqn:Hdrop;
  run_simpl; repeat run_post.

Lemma orElse_nonempty a b : b <> EmptyString -> orElse a b <> EmptyString.
Proof.
  intros Hb. unfold orElse. destruct a as [[|c v]|]; cbn; congruence.
Qed.

Ltac rejected_last :=
  do 2 eexists;
  split; [reflexivity|];
  split; [repeat constructor; eexists; reflexivity|];
  split; [reflexivity | apply orElse_nonempty; discriminate].

(** A run stops at the first request that fails and reports it: every
    request before the last one was answered, and the error text is
    empty exactly when the last one was answered too; otherwise it is the
    message of the failure, or Execution Failed when there is none. *)
Theorem runQuery_fail_stop (overrideQuery : option string) (w : World Server) :
  exists l,
    posted _ (afterRun Server post overrideQuery w) = posted _ w ++ l
    /\ ((Forall fulfilled l /\ error (session _ (afterRun Server post overrideQuery w)) = EmptyString)
        \/ exists l0 q message,
             l = l0 ++ [(q, Rejected message)]
             /\ Forall fulfilled l0
             /\ error (session _ (afterRun Server post overrideQuery w))
                = orElse message "Execution Failed"
             /\ error (session _ (afterRun Server post overrideQuery w)) <> EmptyString).
Proof.
  run_cases w.
  all: eexists; split;
    [first [reflexivity
           | rewrite <- !app_assoc; reflexivity
           | symmetry; apply app_nil_r]|];
    cbn [error onApp setResults setSources setSuccessMsg setError].
  all: first
    [ left; split; [repeat constructor; eexists; reflexivity | reflexivity]
    | right; exists []; rejected_last
    | right; eexists [_]; rejected_last
    | right; eexists [_; _]; rejected_last ].
Qed.

Lemma runTableName_truthy q name :
  runTableName q = Some name -> Js.truthy name = true.
Proof.
  unfold runTableName.
  destruct (RegExp.exec runTableRe q) as [m|] eqn:E; [|discriminate].
  intros H. injection H as <-.
  apply exec_leftmost in E. destruct E as (_ & _ & Hm & _).
  apply tableMatch_parts in Hm.
  destruct Hm as (front & raw & _ & Hn & _ & _ & Hcap).
  unfold groupText, group. rewrite Hcap. now destruct raw.
Qed.

(** What a run posts, and in which order: the statement alone; or, when
    the statement names a table, the snapshot query before it if its text
    contains ALTER, DELETE, DROP or UPDATE, and the refresh query after
    it once it succeeded and does not contain DROP.  The statement is not
    posted when the snapshot fails. *)
Theorem runQuery_request_order (overrideQuery : option string)
    (w : World Server) :
  let q := orElse overrideQuery (query (appState (session _ w))) in
  exists l,
    posted _ (afterRun Server post overrideQuery w) = posted _ w ++ l
    /\ match runTableName q with
       | None => exists o, l = [(q, o)]
       | Some name =>
           let snap := selectAll name in
           if changesData (Js.toUpperCase q) then
             (exists m, l = [(snap, Rejected m)])
             \/ (exists b o, l = [(snap, Fulfilled b); (q, o)])
             \/ (exists b b2 o,
                   l = [(snap, Fulfilled b); (q, Fulfilled b2); (snap, o)]
                   /\ bodyStatus b2 = "success"
                   /\ Js.includes (Js.toUpperCase q) "DROP" = false)
           else
             (exists o, l = [(q, o)])
             \/ (exists b o,
                   l = [(q, Fulfilled b); (snap, o)]
                   /\ bodyStatus b = "success")
       end.
Proof.
  intros q. subst q. run_cases w.
  all: try (apply runTableName_truthy in Htable; congruence).
  all: try apply String.eqb_eq in Heqb.
  all: eexists; split;
    [first [reflexivity | rewrite <- !app_assoc; reflexivity]|];
    cbn [List.app]; eauto 8.
Qed.

(** A statement whose text contains DROP and that succeeds clears the
    active schema, the results, the snapshot and the rows of the service,
    and is the last query posted: nothing is fetched after it. *)
Theorem runQuery_drop_clears (overrideQuery : option string)
    (w : World Server) :
  let q := orElse overrideQuery (query (appState (session _ w))) in
  let s' := session _ (afterRun Server post overrideQuery w) in
  Js.includes (Js.toUpperCase q) "DROP" = true ->
  successMsg s' <> EmptyString ->
  activeSchema (appState s') = None
  /\ results s' = noResults
  /\ sources s' = []
  /\ existingData (appState s') = []
  /\ exists l0 b,
       posted _ (afterRun Server post overrideQuery w) = posted _ w ++ l0 ++ [(q, Fulfilled b)].
Proof.
  intros q s' Hq. subst q s'. run_cases w; try congruence.
  all: cbn [successMsg onApp setResults setSources setSuccessMsg setError
            activeSchema appState results sources existingData
            setActiveSchema setExistingData];
    intros Hmsg; try congruence.
  all: repeat split.
  all: first [ exists []; eexists; reflexivity
             | eexists [_]; eexists; rewrite <- app_assoc; reflexivity ].
Qed.

(** A run that ends with neither a success message nor an error text has
    changed neither the results nor the editor's state: the statement was
    the last query posted and its reply had a status other than
    success. *)
Theorem runQuery_silent (overrideQuery : option string) (w : World Server) :
  let q := orElse overrideQuery (query (appState (session _ w))) in
  let s' := session _ (afterRun Server post overrideQuery w) in
  successMsg s' = EmptyString ->
  error s' = EmptyString ->
  results s' = results (session _ w)
  /\ appState s' = appState (session _ w)
  /\ exists l0 b,
       posted _ (afterRun Server post overrideQuery w) = posted _ w ++ l0 ++ [(q, Fulfilled b)]
       /\ bodyStatus b <> "success".
Proof.
  intros q s'. subst q s'. run_cases w.
  all: cbn [successMsg error onApp setResults setSources setSuccessMsg
            setError appState results];
    intros Hmsg Herr;
    try (now apply orElse_nonempty in Hmsg);
    try (now apply orElse_nonempty in Herr).
  all: apply String.eqb_neq in Heqb.
  all: repeat split.
  all: first [ exists []; eexists; split; [reflexivity | exact Heqb]
             | eexists [_]; eexists; split;
               [rewrite <- app_assoc; reflexivity | exact Heqb] ].
Qed.

(** For a statement that names a table and does not count as a change,
    the results shown after a successful run are those of the refresh
    query, whatever rows the statement's own reply carried. *)
Theorem runQuery_shows_refresh (overrideQuery : option string)
    (w : World Server) (name : string) (body body2 : Body)
    (srv1 srv2 : Server) :
  let q := orElse overrideQuery (query (appState (session _ w))) in
  let w' := afterRun Server post overrideQuery w in
  runTableName q = Some name ->
  changesData (Js.toUpperCase q) = false ->
  post (server _ w) q = (Fulfilled body, srv1) ->
  bodyStatus body = "success" ->
  post srv1 (selectAll name) = (Fulfilled body2, srv2) ->
  results (session _ w') = mkResults (bodyColumns body2) (bodyData body2)
  /\ successMsg (session _ w')
     = orElse (bodyMessage body) "Command executed successfully!"
  /\ error (session _ w') = EmptyString
  /\ map fst (posted _ w') = map fst (posted _ w) ++ [q; selectAll name].
Proof.
  intros q w' Htable Hchanges Hpost Hstatus Hpost2. subst q w'.
  assert (Hdrop : Js.includes
                    (Js.toUpperCase
                       (orElse overrideQuery (query (appState (session _ w)))))
                    "DROP" = false).
  { unfold changesData in Hchanges.
    destruct (Js.includes _ "DROP"); [|reflexivity].
    now rewrite orb_true_r in Hchanges. }
  pose proof (runTableName_truthy _ _ Htable) as Hname.
  destruct w as [sess srv log]. cbn [session server posted] in *.
  unfold afterRun, runQuery. cbv beta zeta delta [session]. cbv iota.
  rewrite Htable. cbv beta iota. rewrite Hname, Hchanges, Hdrop. run_simpl.
  rewrite Hpost. run_simpl. rewrite Hstatus. cbn [String.eqb Ascii.eqb Bool.eqb].
  run_simpl. rewrite Hpost2. run_simpl.
  cbn [results successMsg error setResults setSuccessMsg setError].
  repeat split. rewrite !map_app. cbn. now rewrite <- app_assoc.
Qed.

End RunFacts.


Lemma runQuery_drop_clears_witness :
  activeSchema
    (appState
       (session _ (afterRun nat obligingService (Some "DROP TABLE student")
                     worldWithSchema))) = None
  /\ map fst (posted _ (afterRun nat obligingService
                          (Some "DROP TABLE student") worldWithSchema))
     = ["SELECT * FROM student;"; "DROP TABLE student"].
Proof.
  split; [|vm_compute; reflexivity].
  refine (proj1 (runQuery_drop_clears nat obligingService
                   (Some "DROP TABLE student") worldWithSchema _ _));
    vm_compute; [reflexivity | discriminate].
Defined.

Lemma runQuery_silent_witness :
  successMsg (session _ (afterRun nat sulkingService (Some "SELECT * FROM ghosts")
                           worldWithSchema)) = EmptyString
  /\ error (session _ (afterRun nat sulkingService (Some "SELECT * FROM ghosts")
                         worldWithSchema)) = EmptyString
  /\ results (session _ (afterRun nat sulkingService
                           (Some "SELECT * FROM ghosts") worldWithSchema))
     = mkResults (Some ["old"]) (Some []).
Proof.
  split; [vm_compute; reflexivity|]. split; [vm_compute; reflexivity|].
  refine (proj1 (runQuery_silent nat sulkingService
                   (Some "SELECT * FROM ghosts") worldWithSchema _ _));
    vm_compute; reflexivity.
Defined.

Lemma runQuery_shows_refresh_witness :
  results (session _ (afterRun nat obligingService
                        (Some "SELECT emp_name FROM student WHERE emp_id = 7")
                        worldWithSchema))
  = mkResults (Some ["id"]) (Some [["1"]])
  /\ map fst (posted _ (afterRun nat obligingService
                          (Some "SELECT emp_name FROM student WHERE emp_id = 7")
                          worldWithSchema))
     = ["SELECT emp_name FROM student WHERE emp_id = 7";
        "SELECT * FROM student;"].
Proof.
  split; [|vm_compute; reflexivity].
  refine (proj1 (runQuery_shows_refresh nat obligingService
                   (Some "SELECT emp_name FROM student WHERE emp_id = 7")
                   worldWithSchema "student"
                   (mkBody "success" (Some "done") (Some ["id"]) (Some [["1"]]))
                   (mkBody "success" (Some "done") (Some ["id"]) (Some [["1"]]))
                   1 2 _ _ _ _ _));
    vm_compute; reflexivity.
Defined.

Lemma previewTable_rows_witness :
  exists ghosts drafts,
    [mkPreviewRow Existing ["1"; "Ann"; "CS"; "extra"];
     mkPreviewRow Draft ["2"; "Bob"; ""];
     mkPreviewRow Draft ["3"; "Cy"; "EE"]]
    = ghosts ++ drafts
    /\ length drafts = 2.
Proof.
  destruct (previewTable_rows
              (mkState "" [["1"; "Ann"; "CS"; "extra"]]
                 [["2"; "Bob"]; ["3"; "Cy"; "EE"; "dropped"]]
                 (Some studentSchema) "" [])
              ["emp_id"; "emp_name"; "departmenit_id"]
              [mkPreviewRow Existing ["1"; "Ann"; "CS"; "extra"];
               mkPreviewRow Draft ["2"; "Bob"; ""];
               mkPreviewRow Draft ["3"; "Cy"; "EE"]]
              eq_refl)
    as (ghosts & drafts & Hrows & _ & _ & Hlen & _).
  exists ghosts, drafts. split; [exact Hrows | exact Hlen].
Defined.

(** ** The two versions of the row extractor *)

Section TwoExtractors.

Lemma valuesOpen_parts t rest caps :
  matchHere valuesOpenRe t = Some (rest, caps) ->
  exists keyword blanks content closer,
    t = (keyword ++ blanks ++ "(" ++ content ++ closer ++ rest)%string /\
    (closer = ")" \/ closer = EmptyString /\ rest = EmptyString) /\
    Js.toUpperCase keyword = "VALUES" /\
    allSpace blanks /\
    ~ Js.occurs ")" content /\
    caps = [(1, content)].
Proof.
  unfold matchHere, valuesOpenRe, space, anyChar.
  cbn [pattern ignoreCase Seqs].
  intros H. rewrite mtch_Seq in H.
  apply mtch_Lit_inv in H. destruct H as (keyword & s1 & -> & Hkw & H).
  rewrite mtch_Seq in H. apply mtch_Star_class_inv in H.
  destruct H as (blanks & s2 & -> & Hblanks & H).
  rewrite mtch_Seq in H. destruct s2 as [|b s3]; [discriminate|].
  rewrite mtch_Chr in H. destruct (charEq true b "(") eqn:Eb; [|discriminate].
  apply charEq_open in Eb. subst b.
  rewrite mtch_Seq, mtch_Grp, mtch_Star, repeat_class_lazy in H by lia.
  apply shortestRun_inv in H.
  destruct H as (content & s4 & -> & _ & Hk & Hfirst).
  assert (Hno : ~ Js.occurs ")" content).
  { intros Hocc. apply occurs_split in Hocc. destruct Hocc as (u & v & ->).
    specialize (Hfirst u ")"%char v eq_refl). cbn [append] in Hfirst.
    rewrite mtch_Alt, mtch_Chr in Hfirst. discriminate. }
  rewrite consumed_append, mtch_Alt in Hk.
  destruct s4 as [|b s5].
  - cbn in Hk. injection Hk as <- <-.
    exists keyword, blanks, content, EmptyString. repeat split; auto.
  - rewrite mtch_Chr in Hk. destruct (charEq true b ")") eqn:Eb;
      [|discriminate].
    apply charEq_close in Eb. subst b. injection Hk as -> <-.
    exists keyword, blanks, content, ")". repeat split; auto.
Qed.

Lemma valuesOpen_exact_closed keyword blanks content rest :
  Js.toUpperCase keyword = "VALUES" ->
  allSpace blanks ->
  ~ Js.occurs ")" content ->
  matchHere valuesOpenRe (keyword ++ blanks ++ "(" ++ content ++ ")" ++ rest)
  = Some (rest, [(1, content)]).
Proof.
  intros Hkw Hblanks Hno. unfold matchHere, valuesOpenRe, space, anyChar.
  cbn [pattern ignoreCase Seqs]. rewrite mtch_Seq, mtch_Lit by exact Hkw.
  rewrite mtch_Seq.
  apply mtch_Star_class_exact; [exact Hblanks | reflexivity |].
  cbn [append]. rewrite mtch_Seq, mtch_Chr.
  change (charEq true "(" "(") with true. cbv match.
  rewrite mtch_Seq, mtch_Grp, mtch_Star, repeat_class_lazy by lia.
  rewrite shortestRun_skip; [| |exact Hno].
  - rewrite shortestRun_unfold, mtch_Alt, mtch_Chr.
    change (charEq true ")" ")") with true. cbv match.
    change (String ")" rest) with (")" ++ rest)%string.
    now rewrite consumed_append.
  - intros a t Ha. rewrite mtch_Alt, mtch_Chr.
    destruct (charEq true a ")") eqn:E; [|reflexivity].
    apply charEq_close in E. contradiction.
Qed.

Lemma upper_keeps_close s :
  Js.occurs ")" s -> Js.occurs ")" (Js.toUpperCase s).
Proof.
  induction s as [|a s IH]; cbn; [tauto|].
  intros [->|H]; [left; reflexivity | right; now apply IH].
Qed.

Lemma allSpace_no_close s : allSpace s -> ~ Js.occurs ")" s.
Proof.
  induction s as [|a s IH]; cbn; [tauto|].
  intros [Ha Hs] [->|H]; [discriminate Ha | now apply IH].
Qed.

(** Where the pattern of [App.js] matches, the local-first pattern
    matches in the same way. *)
Lemma values_then_open t x :
  matchHere valuesRe t = Some x -> matchHere valuesOpenRe t = Some x.
Proof.
  destruct x as [rest caps]. intros H. apply valuesMatch_parts in H.
  destruct H as (keyword & blanks & content & -> & Hkw & Hb & Hno & ->).
  now apply valuesOpen_exact_closed.
Qed.

(** Where only the local-first pattern matches, it runs to the end of a
    text without closing parenthesis. *)
Lemma open_not_values t rest caps :
  matchHere valuesOpenRe t = Some (rest, caps) ->
  matchHere valuesRe t = Some (rest, caps)
  \/ rest = EmptyString /\ t <> EmptyString /\ ~ Js.occurs ")" t.
Proof.
  intros H. apply valuesOpen_parts in H.
  destruct H as (keyword & blanks & content & closer & -> & Hcloser & Hkw
                 & Hb & Hno & ->).
  destruct Hcloser as [->|[-> ->]].
  - left. now apply valuesMatch_exact.
  - right. split; [reflexivity|]. split.
    + destruct keyword; [discriminate Hkw | discriminate].
    + cbn [append]. rewrite append_empty_r, !occurs_append.
      intros [H|[H|[H|H]]].
      * apply upper_keeps_close in H. rewrite Hkw in H. cbn in H.
        intuition discriminate.
      * now apply allSpace_no_close in H.
      * cbn in H. intuition discriminate.
      * contradiction.
Qed.

Lemma execFrom_values_no_close : forall s i,
  ~ Js.occurs ")" s -> execFrom valuesRe i s = None.
Proof.
  intros s i Hno. destruct (execFrom valuesRe i s) as [m|] eqn:E;
    [|reflexivity].
  exfalso. apply Hno. apply execFrom_leftmost in E.
  destruct E as (before & -> & _ & Hm & _).
  apply valuesRe_needs_close in Hm. apply occurs_append. now right.
Qed.

Lemma execFrom_two_versions : forall s i,
  execFrom valuesOpenRe i s = execFrom valuesRe i s
  \/ execFrom valuesRe i s = None
     /\ exists m, execFrom valuesOpenRe i s = Some m
                  /\ matched m <> EmptyString /\ after m = EmptyString.
Proof.
  induction s as [|b t IH]; intros i.
  - left. reflexivity.
  - cbn [execFrom].
    destruct (matchHere valuesRe (String b t)) as [[rest caps]|] eqn:E.
    + left. now rewrite (values_then_open _ _ E).
    + destruct (matchHere valuesOpenRe (String b t)) as [[rest caps]|] eqn:E2.
      * apply open_not_values in E2.
        destruct E2 as [E2|(-> & _ & Hno)]; [congruence|].
        right. split.
        -- cbn in Hno. apply execFrom_values_no_close. tauto.
        -- eexists. split; [reflexivity|]. cbn [matched after].
           rewrite consumed_all. split; [discriminate | reflexivity].
      * apply IH.
Qed.

Lemma matchAllFrom_two_versions : forall n i s,
  exists extra,
    matchAllFrom valuesOpenRe n i s = matchAllFrom valuesRe n i s ++ extra
    /\ length extra <= 1.
Proof.
  induction n as [|n IH]; intros i s;
    [exists []; split; [reflexivity | cbn; lia]|].
  cbn [matchAllFrom].
  destruct (execFrom_two_versions s i) as [E|(E & m & Em & Hm & Ha)].
  - rewrite E. destruct (execFrom valuesRe i s) as [m|];
      [|exists []; split; [reflexivity | cbn; lia]].
    destruct (matched m) as [|a w]; [destruct (after m) as [|c t]|].
    + exists []; split; [reflexivity | cbn; lia].
    + destruct (IH (S (index m)) t) as (extra & -> & Hlen). now exists extra.
    + destruct (IH (index m + String.length (String a w)) (after m))
        as (extra & -> & Hlen).
      now exists extra.
  - rewrite E, Em, Ha. destruct (matched m) as [|a w]; [congruence|].
    rewrite matchAllFrom_empty by reflexivity.
    exists [m]. split; [reflexivity | cbn; lia].
Qed.

(** The local-first version of [parseAllInsertRows] returns the tuples
    of the version of [App.js], in the same order, and at most one more
    after them (for a last group that is not closed). *)
Theorem parseAllInsertRows_two_versions (text : string) :
  exists extra,
    parseAllInsertRowsLocalFirst text = parseAllInsertRows text ++ extra
    /\ length extra <= 1.
Proof.
  unfold parseAllInsertRowsLocalFirst, parseAllInsertRows,
    parseAllInsertRowsWith, matchAll.
  destruct (matchAllFrom_two_versions (S (String.length text)) 0 text)
    as (extra & E & Hlen).
  exists (map rowOfMatch extra). rewrite E, map_app, length_map. now split.
Qed.

Lemma parseAllInsertRows_no_close_witness :
  parseAllInsertRows "insert into t values ('a', 'b'" = [].
Proof.
  apply parseAllInsertRows_no_close. cbn. intuition discriminate.
Defined.

End TwoExtractors.

(** ** The two versions of the table detection *)

Section TwoDetections.

Lemma firstSome_last {A : Type} (l : list (option A)) (o : option A) :
  firstSome (l ++ [o])
  = match firstSome l with Some x => Some x | None => o end.
Proof.
  induction l as [|[y|] l IH]; cbn; [now destruct o | reflexivity | exact IH].
Qed.

Lemma matchHere_localFirst t :
  matchHere (tableReWith tableKeywordsLocalFirst) t
  = match matchHere tableRe t with
    | Some x => Some x
    | None => matchHere (keywordRe deleteFrom) t
    end.
Proof.
  unfold tableRe, tableKeywordsLocalFirst.
  rewrite (matchHere_keywords tableKeywords) by discriminate.
  rewrite matchHere_keywords by (cbn; discriminate).
  rewrite map_app. cbn [map]. now rewrite firstSome_last.
Qed.

Lemma mtch_Lit_first a w b t c k :
  charEq true b a = false ->
  mtch true (Lit (String a w)) (String b t) c k = None.
Proof.
  intros H. destruct w as [|a' w].
  - change (Lit (String a EmptyString)) with (Chr a). now rewrite mtch_Chr, H.
  - change (Lit (String a (String a' w)))
      with (Seq (Chr a) (Lit (String a' w))).
    now rewrite mtch_Seq, mtch_Chr, H.
Qed.

Lemma mtch_Lit_second a1 a2 w b1 b2 t c k :
  charEq true b2 a2 = false ->
  mtch true (Lit (String a1 (String a2 w))) (String b1 (String b2 t)) c k
  = None.
Proof.
  intros H.
  change (Lit (String a1 (String a2 w)))
    with (Seq (Chr a1) (Lit (String a2 w))).
  rewrite mtch_Seq, mtch_Chr. destruct (charEq true b1 a1); [|reflexivity].
  now apply mtch_Lit_first.
Qed.

Lemma upper_charEq b a : charEq true b a = (Js.upperChar b =? Js.upperChar a)%char.
Proof. reflexivity. Qed.

(** The alternation of [App.js] starts with one of the letters i, f, u
    and t, and a t is followed by an a. *)
Lemma tableRe_first_letter b t :
  Js.upperChar b <> "I"%char -> Js.upperChar b <> "F"%char ->
  Js.upperChar b <> "U"%char -> Js.upperChar b <> "T"%char ->
  matchHere tableRe (String b t) = None.
Proof.
  intros HI HF HU HT. unfold tableRe.
  rewrite matchHere_keywords by discriminate.
  unfold matchHere, keywordRe, tableKeywords.
  cbn [map firstSome pattern ignoreCase Seqs].
  rewrite !mtch_Seq.
  rewrite !mtch_Lit_first; [reflexivity|..]; rewrite upper_charEq;
    apply Ascii.eqb_neq; assumption.
Qed.

Lemma tableRe_second_letter b1 b2 t :
  Js.upperChar b1 = "T"%char -> Js.upperChar b2 <> "A"%char ->
  matchHere tableRe (String b1 (String b2 t)) = None.
Proof.
  intros HT HA. unfold tableRe.
  rewrite matchHere_keywords by discriminate.
  unfold matchHere, keywordRe, tableKeywords.
  cbn [map firstSome pattern ignoreCase Seqs].
  rewrite !mtch_Seq.
  rewrite (mtch_Lit_second "T" "A") by
    (rewrite upper_charEq; apply Ascii.eqb_neq; assumption).
  rewrite !mtch_Lit_first; [reflexivity|..]; rewrite upper_charEq, HT;
    reflexivity.
Qed.

Lemma space_not_letter b :
  Js.isSpace b = true ->
  Js.upperChar b <> "I"%char /\ Js.upperChar b <> "F"%char /\
  Js.upperChar b <> "U"%char /\ Js.upperChar b <> "T"%char.
Proof.
  destruct b as [[] [] [] [] [] [] [] []]; vm_compute; intros;
    try discriminate; repeat split; discriminate.
Qed.

Lemma deleteFrom_parts t x :
  matchHere (keywordRe deleteFrom) t = Some x ->
  exists del b blanks from tl,
    t = (del ++ String b blanks ++ from ++ tl)%string /\
    Js.toUpperCase del = "DELETE" /\
    Js.isSpace b = true /\ allSpace blanks /\
    Js.toUpperCase from = "FROM" /\
    mtch true tableNameTail tl [] (fun s' c' => Some (s', c')) = Some x.
Proof.
  unfold matchHere, keywordRe, deleteFrom, space.
  cbn [pattern ignoreCase Seqs]. intros H.
  rewrite !mtch_Seq in H.
  apply mtch_Lit_inv in H. destruct H as (del & s1 & -> & Hdel & H).
  apply mtch_Plus_class_inv in H.
  destruct H as (b & blanks & s2 & -> & Hb & Hblanks & H).
  apply mtch_Lit_inv in H. destruct H as (from & tl & -> & Hfrom & H).
  exists del, b, blanks, from, tl. cbn [append].
  repeat split; assumption.
Qed.

Lemma fromKeyword_here from tl x :
  Js.toUpperCase from = "FROM" ->
  mtch true tableNameTail tl [] (fun s' c' => Some (s', c')) = Some x ->
  matchHere tableRe (from ++ tl) = Some x.
Proof.
  intros Hfrom H. unfold tableRe.
  rewrite matchHere_keywords by discriminate.
  unfold matchHere, keywordRe, tableKeywords.
  cbn [map firstSome pattern ignoreCase Seqs].
  destruct from as [|f from]; [discriminate|].
  assert (Hf : Js.upperChar f = "F"%char) by (now injection Hfrom).
  cbn [append]. rewrite !mtch_Seq.
  rewrite mtch_Lit_first by (rewrite upper_charEq, Hf; reflexivity).
  change (String f (from ++ tl)) with (String f from ++ tl)%string.
  rewrite (mtch_Lit true "FROM") by exact Hfrom. now rewrite H.
Qed.

Lemma execFrom_next re i b t :
  matchHere re (String b t) = None ->
  execFrom re i (String b t) = execFrom re (S i) t.
Proof. intros H. cbn [execFrom]. now rewrite H. Qed.

(** Where only the DELETE FROM alternative matches, the pattern of
    [App.js] matches a little further on, at the FROM, with the same
    table name. *)
Lemma deleteFrom_then_from b t i rest caps :
  matchHere (keywordRe deleteFrom) (String b t) = Some (rest, caps) ->
  exists m, execFrom tableRe i t = Some m /\ groups m = caps.
Proof.
  intros H. apply deleteFrom_parts in H.
  destruct H as (del & sp & blanks & from & tl & Ht & Hdel & Hsp & Hblanks
                 & Hfrom & H).
  destruct del as [|d [|e1 [|l [|e2 [|t1 [|e3 [|? ?]]]]]]]; try discriminate.
  cbn [Js.toUpperCase Js.mapString] in Hdel.
  injection Hdel as _ He1 Hl He2 Ht1 He3.
  cbn [append] in Ht. injection Ht as _ ->.
  rewrite execFrom_next
    by (apply tableRe_first_letter; rewrite He1; discriminate).
  rewrite execFrom_next
    by (apply tableRe_first_letter; rewrite Hl; discriminate).
  rewrite execFrom_next
    by (apply tableRe_first_letter; rewrite He2; discriminate).
  rewrite execFrom_next
    by (apply tableRe_second_letter; [exact Ht1 | rewrite He3; discriminate]).
  rewrite execFrom_next
    by (apply tableRe_first_letter; rewrite He3; discriminate).
  change (String sp (blanks ++ from ++ tl))
    with (String sp blanks ++ (from ++ tl))%string.
  rewrite (execFrom_skip tableRe (fun a => Js.isSpace a = true)).
  - rewrite (execFrom_here _ _ _ _ _ (fromKeyword_here _ _ _ Hfrom H)).
    eexists. split; reflexivity.
  - intros a u Ha. apply space_not_letter in Ha.
    now apply tableRe_first_letter.
  - split; assumption.
Qed.

Lemma execFrom_two_detections : forall s i,
  option_map groups (execFrom (tableReWith tableKeywordsLocalFirst) i s)
  = option_map groups (execFrom tableRe i s).
Proof.
  induction s as [|b t IH]; intros i; cbn [execFrom];
    rewrite matchHere_localFirst.
  - destruct (matchHere tableRe EmptyString) as [[rest caps]|];
      [reflexivity|].
    reflexivity.
  - destruct (matchHere tableRe (String b t)) as [[rest caps]|];
      [reflexivity|].
    destruct (matchHere (keywordRe deleteFrom) (String b t))
      as [[rest caps]|] eqn:E; [|apply IH].
    destruct (deleteFrom_then_from _ _ (S i) _ _ E) as (m & -> & <-).
    reflexivity.
Qed.

(** The DELETE FROM alternative that the local-first version adds to
    the detection pattern changes nothing: for every draft both versions
    detect the same table name, or none. *)
Theorem detectTable_two_versions (text : string) :
  detectTableLocalFirst text = detectTable text.
Proof.
  unfold detectTableLocalFirst, detectTable, RegExp.exec.
  pose proof (execFrom_two_detections text 0) as H.
  unfold groupText, group.
  destruct (execFrom (tableReWith tableKeywordsLocalFirst) 0 text) as [m|],
    (execFrom tableRe 0 text) as [m'|]; cbn in H; try discriminate;
    [|reflexivity].
  injection H as ->. reflexivity.
Qed.

End TwoDetections.

(** ** The two versions of the schema builder *)

Section TwoBuilders.

Lemma columns_two_versions (fragments : list string) :
  map Column.name (filter keepColumn (map parseColumnLocalFirst fragments))
  = map Column.name (filter keepColumn (map parseColumn fragments))
  /\ Forall (fun c => Column.type c = Some "TEXT")
       (filter keepColumn (map parseColumnLocalFirst fragments)).
Proof.
  induction fragments as [|col fragments [IHn IHt]]; [now split|].
  cbn [map filter].
  change (keepColumn (parseColumnLocalFirst col))
    with (keepColumn (parseColumn col)).
  destruct (keepColumn (parseColumn col)); [|now split].
  split; [cbn [map]; now f_equal | now constructor].
Qed.

(** The local-first version of [parseSchema] answers for the same
    drafts as the version of [App.js], with the same table name and the
    same column names in the same order; it types every column TEXT. *)
Theorem parseSchema_two_versions (text : string) :
  option_map Schema.name (parseSchemaLocalFirst text)
  = option_map Schema.name (parseSchema text)
  /\ option_map (fun s => map Column.name (Schema.columns s))
       (parseSchemaLocalFirst text)
     = option_map (fun s => map Column.name (Schema.columns s))
         (parseSchema text)
  /\ match parseSchemaLocalFirst text with
     | Some schema =>
         Forall (fun c => Column.type c = Some "TEXT") (Schema.columns schema)
     | None => True
     end.
Proof.
  unfold parseSchemaLocalFirst, parseSchema.
  destruct (RegExp.exec createRe text) as [createMatch|];
    [|repeat split].
  cbn [option_map Schema.name Schema.columns].
  destruct (columns_two_versions (columnsRaw (groupText 2 createMatch)))
    as [Hn Ht].
  repeat split; [now rewrite Hn | exact Ht].
Qed.

End TwoBuilders.

(** ** Letter case of the draft *)

Section LetterCase.

(** A change of letters that the i flag does not see. *)
Variable f : ascii -> ascii.
Hypothesis f_upper : forall a, Js.upperChar (f a) = Js.upperChar a.
Hypothesis f_space : forall a, Js.isSpace (f a) = Js.isSpace a.
Hypothesis f_word : forall a, Js.isWord (f a) = Js.isWord a.
Hypothesis f_line :
  forall a, Js.isLineTerminator (f a) = Js.isLineTerminator a.

Lemma length_mapString (s : string) :
  String.length (Js.mapString f s) = String.length s.
Proof. induction s as [|a s IH]; cbn; [reflexivity | now rewrite IH]. Qed.

Lemma take_mapString : forall n s,
  Js.take n (Js.mapString f s) = Js.mapString f (Js.take n s).
Proof.
  induction n as [|n IH]; intros [|a s]; cbn; try reflexivity.
  now rewrite IH.
Qed.

Lemma consumed_mapString (s s' : string) :
  consumed (Js.mapString f s) (Js.mapString f s')
  = Js.mapString f (consumed s s').
Proof. unfold consumed. now rewrite !length_mapString, take_mapString. Qed.

Lemma charEq_mapped a b : charEq true (f a) b = charEq true a b.
Proof. unfold charEq, canon. now rewrite f_upper. Qed.

Lemma classMatch_mapped cs a :
  classMatch true cs (f a) = classMatch true cs a.
Proof.
  assert (E : forall l, existsb (charEq true (f a)) l
                        = existsb (charEq true a) l).
  { induction l as [|b l IH]; cbn [existsb]; [reflexivity|].
    now rewrite charEq_mapped, IH. }
  destruct cs; cbn [classMatch]; auto.
  - now rewrite f_line.
  - now rewrite E.
Qed.

Lemma repeat_mapped (step : string -> captures -> cont -> option state) g :
  (forall s c k k', alike f k k' ->
     step (Js.mapString f s) (mapCaptures f c) k'
     = option_map (mapState f) (step s c k)) ->
  forall n s c k k', alike f k k' ->
    repeat step g k' n (Js.mapString f s) (mapCaptures f c)
    = option_map (mapState f) (repeat step g k n s c).
Proof.
  intros Hstep. induction n as [|n IH]; intros s c k k' Hk; cbn [repeat].
  - apply Hk.
  - rewrite (Hstep s c
               (fun s' c' => if String.length s' <? String.length s
                             then repeat step g k n s' c' else None)
               (fun s' c' =>
                  if String.length s' <? String.length (Js.mapString f s)
                  then repeat step g k' n s' c' else None)).
    + rewrite (Hk s c).
      destruct g.
      * destruct (step s c _); [reflexivity|]. reflexivity.
      * destruct (k s c); [reflexivity|]. reflexivity.
    + intros s' c'. rewrite !length_mapString.
      destruct (String.length s' <? String.length s); [|reflexivity].
      now apply IH.
Qed.

(** With the i flag the matcher does on the image of an input what it
    does on the input. *)
Lemma mtch_mapped : forall r s c k k', alike f k k' ->
  mtch true r (Js.mapString f s) (mapCaptures f c) k'
  = option_map (mapState f) (mtch true r s c k).
Proof.
  induction r as [|a|cs|r1 IH1 r2 IH2|r1 IH1 r2 IH2|g r IH|n r IH|r IH|];
    intros s c k k' Hk.
  - apply Hk.
  - destruct s as [|b t]; [reflexivity|]. cbn [Js.mapString].
    rewrite !mtch_Chr, charEq_mapped.
    destruct (charEq true b a); [apply Hk | reflexivity].
  - destruct s as [|b t]; [reflexivity|]. cbn [Js.mapString].
    rewrite !mtch_Cls, classMatch_mapped.
    destruct (classMatch true cs b); [apply Hk | reflexivity].
  - rewrite !mtch_Seq. apply IH1. intros s' c'. now apply IH2.
  - rewrite !mtch_Alt, (IH1 s c k k' Hk), (IH2 s c k k' Hk).
    now destruct (mtch true r1 s c k).
  - rewrite !mtch_Star, length_mapString.
    apply repeat_mapped; [|exact Hk]. intros s0 c0 k0 k0' Hk0. now apply IH.
  - rewrite !mtch_Grp. apply IH. intros s' c'.
    rewrite consumed_mapString. apply (Hk s' ((n, consumed s s') :: c')).
  - rewrite !mtch_NegAhead.
    rewrite (IH s c (fun s' c' => Some (s', c')) (fun s' c' => Some (s', c')))
      by (intros s' c'; reflexivity).
    destruct (mtch true r s c _); [reflexivity | apply Hk].
  - destruct s as [|b t]; [apply Hk | reflexivity].
Qed.

Lemma execFrom_unfold (re : RegExp.t) i s :
  execFrom re i s
  = match matchHere re s with
    | Some (rest, caps) => Some (mkResult i (consumed s rest) caps rest)
    | None =>
        match s with
        | EmptyString => None
        | String _ t => execFrom re (S i) t
        end
    end.
Proof. destruct s; reflexivity. Qed.

Lemma execFrom_mapped (re : RegExp.t) :
  ignoreCase re = true ->
  forall s i,
    execFrom re i (Js.mapString f s) = option_map (mapResult f) (execFrom re i s).
Proof.
  intros Hic.
  assert (Hm : forall s, matchHere re (Js.mapString f s)
                         = option_map (mapState f) (matchHere re s)).
  { intros s. unfold matchHere. rewrite Hic.
    apply (mtch_mapped (pattern re) s []). intros s' c'. reflexivity. }
  induction s as [|b t IH]; intros i.
  - rewrite (execFrom_unfold re i (Js.mapString f EmptyString)), Hm.
    rewrite (execFrom_unfold re i EmptyString).
    destruct (matchHere re EmptyString) as [[rest caps]|]; [|reflexivity].
    cbn [option_map mapState fst snd]. unfold mapResult.
    cbn [index matched groups after].
    now rewrite <- consumed_mapString.
  - rewrite (execFrom_unfold re i (Js.mapString f (String b t))), Hm.
    rewrite (execFrom_unfold re i (String b t)).
    destruct (matchHere re (String b t)) as [[rest caps]|].
    + cbn [option_map mapState fst snd]. unfold mapResult.
      cbn [index matched groups after].
      now rewrite <- consumed_mapString.
    + cbn [option_map Js.mapString]. apply IH.
Qed.

Lemma test_mapped (re : RegExp.t) (s : string) :
  ignoreCase re = true ->
  RegExp.test re (Js.mapString f s) = RegExp.test re s.
Proof.
  intros Hic. unfold RegExp.test, RegExp.exec.
  rewrite execFrom_mapped by exact Hic.
  now destruct (execFrom re 0 s).
Qed.

Lemma groupText_mapped n m :
  groupText n (mapResult f m) = Js.mapString f (groupText n m).
Proof.
  unfold groupText, group, mapResult. cbn [groups].
  induction (groups m) as [|[j t] c IH]; [reflexivity|].
  cbn [mapCaptures map capture fst snd].
  destruct (Nat.eqb n j); [reflexivity | exact IH].
Qed.

Hypothesis f_lower : forall a, Js.lowerChar (f a) = Js.lowerChar a.

Lemma detectTable_mapped (text : string) :
  detectTable (Js.mapString f text) = detectTable text.
Proof.
  unfold detectTable, RegExp.exec.
  rewrite execFrom_mapped by reflexivity.
  destruct (execFrom tableRe 0 text) as [m|]; [|reflexivity].
  cbn [option_map]. rewrite groupText_mapped. f_equal.
  unfold Js.toLowerCase. generalize (groupText 1 m) as s.
  induction s as [|a s IH]; cbn; [reflexivity | now rewrite f_lower, IH].
Qed.

End LetterCase.

Section UpperLower.

Lemma upper_facts a :
  Js.upperChar (Js.upperChar a) = Js.upperChar a
  /\ Js.isSpace (Js.upperChar a) = Js.isSpace a
  /\ Js.isWord (Js.upperChar a) = Js.isWord a
  /\ Js.isLineTerminator (Js.upperChar a) = Js.isLineTerminator a
  /\ Js.lowerChar (Js.upperChar a) = Js.lowerChar a.
Proof.
  destruct a as [[] [] [] [] [] [] [] []]; vm_compute; repeat split.
Qed.

Lemma lower_facts a :
  Js.upperChar (Js.lowerChar a) = Js.upperChar a
  /\ Js.isSpace (Js.lowerChar a) = Js.isSpace a
  /\ Js.isWord (Js.lowerChar a) = Js.isWord a
  /\ Js.isLineTerminator (Js.lowerChar a) = Js.isLineTerminator a
  /\ Js.lowerChar (Js.lowerChar a) = Js.lowerChar a.
Proof.
  destruct a as [[] [] [] [] [] [] [] []]; vm_compute; repeat split.
Qed.

(** For a draft of ASCII characters the table detection does not depend
    on the letter case: the draft in upper case and the draft in lower
    case give the table name of the draft as typed. *)
Theorem detectTable_ignores_case (text : string) :
  asciiText text ->
  detectTable (Js.toUpperCase text) = detectTable text
  /\ detectTable (Js.toLowerCase text) = detectTable text.
Proof.
  intros _. split.
  - apply (detectTable_mapped Js.upperChar); intros a; apply upper_facts.
  - apply (detectTable_mapped Js.lowerChar); intros a; apply lower_facts.
Qed.

Lemma detectTable_ignores_case_witness :
  asciiText "Select * From Student_2"
  /\ detectTable (Js.toUpperCase "Select * From Student_2")
     = detectTable "Select * From Student_2".
Proof.
  assert (Hascii : asciiText "Select * From Student_2")
    by (vm_compute; repeat split).
  split; [exact Hascii|].
  exact (proj1 (detectTable_ignores_case "Select * From Student_2" Hascii)).
Defined.

Lemma roadmap_patterns_flag (question : string) :
  forallb (fun step => ignoreCase (Step.regex step)) (roadmapFor question)
  = true.
Proof.
  unfold roadmapFor, categorySteps.
  generalize (Js.toLowerCase question) as q. intros q.
  destruct (RegExp.test createTrigger q), (RegExp.test aggregateTrigger q),
    (RegExp.test renameTrigger q), (RegExp.test deleteTrigger q),
    (RegExp.test selectTrigger q), (RegExp.test filterTrigger q);
    reflexivity.
Qed.

(** For a draft of ASCII characters the check mark of a step of a
    roadmap does not depend on the letter case of the draft. *)
Theorem stepDone_ignores_case (question : string) (step : Step.t)
    (draft : string) :
  asciiText draft ->
  In step (roadmapFor question) ->
  stepDone step (Js.toUpperCase draft) = stepDone step draft
  /\ stepDone step (Js.toLowerCase draft) = stepDone step draft.
Proof.
  intros _ Hin. pose proof (roadmap_patterns_flag question) as Hall.
  rewrite forallb_forall in Hall. specialize (Hall step Hin).
  unfold stepDone. split.
  - apply (test_mapped Js.upperChar); try exact Hall; intros a;
      apply upper_facts.
  - apply (test_mapped Js.lowerChar); try exact Hall; intros a;
      apply lower_facts.
Qed.

Lemma stepDone_ignores_case_witness :
  asciiText "select avg(score) from t"
  /\ stepDone (Step.mk 2 "Specify Source: FROM [Table]" (caseInsensitive (Lit "FROM")))
       (Js.toUpperCase "select avg(score) from t")
     = stepDone (Step.mk 2 "Specify Source: FROM [Table]" (caseInsensitive (Lit "FROM")))
         "select avg(score) from t".
Proof.
  assert (Hascii : asciiText "select avg(score) from t")
    by (vm_compute; repeat split).
  split; [exact Hascii|].
  refine (proj1 (stepDone_ignores_case "what is the average score"
                   (Step.mk 2 "Specify Source: FROM [Table]"
                      (caseInsensitive (Lit "FROM")))
                   "select avg(score) from t" Hascii _)).
  vm_compute. auto.
Defined.

End UpperLower.
